(** * FVENS: cell-centred finite-volume spatial discretisation

    A shallow embedding of [src/aspatial.cpp]: the [Spatial<nvars>] base
    class (cell centres, ghost-cell centres, matrix-free Jacobian-vector
    product) and the [FlowFV] class (free-stream state, boundary closure,
    residual and Jacobian assembly).

    Conventions of the embedding.
    - [a_real] is a parameter: every routine is written once over a
      [Scalar] type and is instantiated at the real numbers (exact
      arithmetic, used for algebraic identities) and at IEEE-754 binary64
      (what the compiled program computes with, used to run the code on
      concrete inputs).
    - A two-dimensional array indexed by a cell or a face whose rows are
      handed around as [a_real*] of length NVARS is a function from the
      row index to a [Vec4]; mesh tables are functions of (row, column)
      as in the mesh accessors.
    - [for] loops are folds over the index range in increasing order; an
      OpenMP parallel loop with atomic updates is run in that order too.
    - Memory that the code allocates and does not initialise is the
      explicit parameter [uninit]. *)

From Stdlib Require Import Reals Lra Lia List ZArith Bool Ascii String.
From Stdlib Require Floats.PrimFloat Uint63.
Import ListNotations.

Set Implicit Arguments.

(** ** Scalars *)

(** The arithmetic that the code performs on [a_real]. *)
Class Scalar (T : Type) : Type := {
  s_zero : T;                 (* 0.0 *)
  s_one : T;                  (* 1.0 *)
  s_two : T;                  (* 2.0 *)
  s_half : T;                 (* 0.5 *)
  s_ten : T;                  (* 10.0 *)
  s_add : T -> T -> T;
  s_sub : T -> T -> T;
  s_mul : T -> T -> T;
  s_div : T -> T -> T;
  s_opp : T -> T;             (* unary minus *)
  s_abs : T -> T;             (* fabs *)
  s_sqrt : T -> T;            (* sqrt *)
  s_sqr : T -> T;             (* pow(x,2) *)
  s_leb : T -> T -> bool;     (* <= *)
  s_of_nat : nat -> T         (* (a_real) of a non-negative int *)
}.

(** Trigonometric functions, used by the [FlowFV] constructor only. *)
Class Trig (T : Type) : Type := {
  s_cos : T -> T;
  s_sin : T -> T
}.

Declare Scope scalar_scope.
Delimit Scope scalar_scope with S.
Infix "+" := s_add : scalar_scope.
Infix "-" := s_sub : scalar_scope.
Infix "*" := s_mul : scalar_scope.
Infix "/" := s_div : scalar_scope.
Notation "- x" := (s_opp x) : scalar_scope.

(** Exact real arithmetic. *)
#[export] Instance Scalar_R : Scalar R := {|
  s_zero := 0%R; s_one := 1%R; s_two := 2%R; s_half := (1/2)%R; s_ten := 10%R;
  s_add := Rplus; s_sub := Rminus; s_mul := Rmult; s_div := Rdiv;
  s_opp := Ropp; s_abs := Rabs; s_sqrt := sqrt; s_sqr := fun x => (x * x)%R;
  s_leb := fun x y => if Rle_dec x y then true else false;
  s_of_nat := INR |}.

#[export] Instance Trig_R : Trig R := {| s_cos := cos; s_sin := sin |}.

(** IEEE-754 binary64, the [double] behind [a_real]. *)
#[export] Instance Scalar_float : Scalar PrimFloat.float := {|
  s_zero := PrimFloat.zero; s_one := PrimFloat.one; s_two := PrimFloat.two;
  s_half := PrimFloat.div PrimFloat.one PrimFloat.two;
  s_ten := PrimFloat.mul PrimFloat.two
             (PrimFloat.add (PrimFloat.mul PrimFloat.two PrimFloat.two) PrimFloat.one);
  s_add := PrimFloat.add; s_sub := PrimFloat.sub;
  s_mul := PrimFloat.mul; s_div := PrimFloat.div;
  s_opp := PrimFloat.opp; s_abs := PrimFloat.abs; s_sqrt := PrimFloat.sqrt;
  s_sqr := fun x => PrimFloat.mul x x;
  s_leb := PrimFloat.leb;
  s_of_nat := fun n => PrimFloat.of_uint63 (Uint63.of_Z (Z.of_nat n)) |}.

(** A binary64 value is finite when it is neither an infinity nor a NaN. *)
Definition is_finite (x : PrimFloat.float) : bool :=
  negb (PrimFloat.is_infinity x) && negb (PrimFloat.is_nan x).

(** ** Small fixed-size arrays *)

(** [a_real x[NVARS]] with NVARS = 4, and the rows of NVARS-column arrays. *)
Record Vec4 (A : Type) : Type := mkVec4 { e0 : A; e1 : A; e2 : A; e3 : A }.

(** [a_real n[NDIM]] with NDIM = 2. *)
Record Vec2 (A : Type) : Type := mkVec2 { d0 : A; d1 : A }.

Definition NVARS : nat := 4.
Definition NDIM : nat := 2.

Definition vmap {A B : Type} (f : A -> B) (v : Vec4 A) : Vec4 B :=
  mkVec4 (f (e0 v)) (f (e1 v)) (f (e2 v)) (f (e3 v)).

Definition vmap2 {A B C : Type} (f : A -> B -> C) (v : Vec4 A) (w : Vec4 B) : Vec4 C :=
  mkVec4 (f (e0 v) (e0 w)) (f (e1 v) (e1 w)) (f (e2 v) (e2 w)) (f (e3 v) (e3 w)).

Definition vconst {A : Type} (a : A) : Vec4 A := mkVec4 a a a a.

(** ** Loops and arrays *)

(** [for (i = lo; i < hi; i++) s = body i s]. *)
Definition for_loop {S : Type} (lo hi : nat) (body : nat -> S -> S) (s : S) : S :=
  fold_left (fun s i => body i s) (seq lo (hi - lo)) s.

(** [a(i) = x]. *)
Definition upd {X : Type} (a : nat -> X) (i : nat) (x : X) : nat -> X :=
  fun j => if Nat.eqb j i then x else a j.

(** [a(i,j) = x]. *)
Definition upd2 {X : Type} (a : nat -> nat -> X) (i j : nat) (x : X) : nat -> nat -> X :=
  fun i' j' => if Nat.eqb i' i && Nat.eqb j' j then x else a i' j'.

(** ** The mesh, the physics and the numerical schemes *)

Section Model.

Context {T : Type} {ST : Scalar T}.
Local Open Scope scalar_scope.

Definition State : Type := Vec4 T.
Definition Block : Type := Vec4 (Vec4 T).
(** [MVector] and [amat::Array2d<a_real>] with NVARS columns. *)
Definition MVector : Type := nat -> State.

(** The read-only accessors of [UMesh2dh] that the discretisation calls.
    [gintfac(f,0)] and [gintfac(f,1)] are the left and right cell of face
    [f], [gintfac(f,2)] and [gintfac(f,3)] its end nodes; [ggallfa(f,0)],
    [ggallfa(f,1)] are the unit normal and [ggallfa(f,2)] the length.
    Column 3 of the same table holds the integer boundary marker, which
    the code only ever compares with integer marker ids: [gmarker]. *)
Record UMesh2dh : Type := {
  gnelem : nat;
  gnbface : nat;
  gnaface : nat;
  gnnode : nat -> nat;
  ginpoel : nat -> nat -> nat;
  gcoords : nat -> nat -> T;
  gintfac : nat -> nat -> nat;
  ggallfa : nat -> nat -> T;
  gmarker : nat -> Z;
  garea : nat -> T
}.

(** The data of [IdealGasPhysics]. *)
Record IdealGasPhysics : Type := {
  g : T;
  Minf : T;
  Tinf : T;
  Reinf : T;
  Pr : T
}.

(** The member functions of [IdealGasPhysics] that [FlowFV] calls; the
    class is declared outside this file. *)
Class PhysicsOps : Type := {
  getPressureFromConserved : IdealGasPhysics -> State -> T;
  getTemperatureFromConserved : IdealGasPhysics -> State -> T;
  getSoundSpeedFromConserved : IdealGasPhysics -> State -> T;
  getEnergyFromPrimitive2 : IdealGasPhysics -> State -> T;
  convertConservedToPrimitive : IdealGasPhysics -> State -> State;
  convertPrimitiveToConserved : IdealGasPhysics -> State -> State
}.

(** [InviscidFlux]: [get_flux(ul, ur, n, flux)] and
    [get_jacobian(ul, ur, n, dfdl, dfdr)]; the outputs are returned. *)
Record InviscidFlux : Type := {
  get_flux : State -> State -> Vec2 T -> State;
  get_jacobian : State -> State -> Vec2 T -> Block * Block
}.

(** [Reconstruction::compute_gradients(u, ug, dudx, dudy)]. *)
Record Reconstruction : Type := {
  compute_gradients :
    MVector -> MVector -> MVector -> MVector -> MVector * MVector
}.

(** [FaceDataComputation::compute_face_values(u, ug, dudx, dudy, uleft, uright)]. *)
Record Limiter : Type := {
  compute_face_values :
    MVector -> MVector -> MVector -> MVector -> MVector -> MVector ->
    MVector * MVector
}.

(** ** Spatial<nvars> *)

Record Spatial : Type := {
  m : UMesh2dh;
  eps : T;
  rc : nat -> nat -> T;
  rcg : nat -> nat -> T
}.

(** What freshly allocated storage holds: [amat::Array2d::resize] and
    local arrays do not initialise their entries. *)
Variable uninit : nat -> State.
Definition uninit1 : nat -> T := fun i => e0 (uninit i).
Definition uninit2 : nat -> nat -> T := fun i _ => e0 (uninit i).

(** Cell centres: the loop of the constructor, lines 23-32. *)
Definition compute_cell_centres (mesh : UMesh2dh) (rc0 : nat -> nat -> T)
  : nat -> nat -> T :=
  for_loop 0 (gnelem mesh) (fun ielem rc =>
    for_loop 0 NDIM (fun idim rc =>
      let rc := upd2 rc ielem idim s_zero in
      let rc := for_loop 0 (gnnode mesh ielem) (fun inode rc =>
                  upd2 rc ielem idim
                    (rc ielem idim + gcoords mesh (ginpoel mesh ielem inode) idim)) rc in
      upd2 rc ielem idim (rc ielem idim / s_of_nat (gnnode mesh ielem)))
    rc) rc0.

(** The sum over the nodes of cell [ielem] of their coordinate [idim];
    divided by the number of nodes it is the centroid of the cell. *)
Definition node_sum (mesh : UMesh2dh) (ielem idim : nat) : T :=
  for_loop 0 (gnnode mesh ielem)
    (fun inode s => s + gcoords mesh (ginpoel mesh ielem inode) idim) s_zero.

(** [compute_ghost_cell_coords_about_midpoint], lines 61-79. *)
Definition compute_ghost_cell_coords_about_midpoint
  (mesh : UMesh2dh) (rc rcg0 : nat -> nat -> T) : nat -> nat -> T :=
  for_loop 0 (gnbface mesh) (fun iface rcg =>
    let ielem := gintfac mesh iface 0 in
    let ip1 := gintfac mesh iface 2 in
    let ip2 := gintfac mesh iface 3 in
    let midpoint := for_loop 0 NDIM (fun idim midpoint =>
        upd midpoint idim (s_half * (gcoords mesh ip1 idim + gcoords mesh ip2 idim)))
        uninit1 in
    for_loop 0 NDIM (fun idim rcg =>
        upd2 rcg iface idim (s_two * midpoint idim - rc ielem idim)) rcg)
    rcg0.

(** The constructor [Spatial<nvars>::Spatial], lines 12-53.  [ZERO_TOL]
    is a macro of a header outside this file.  The Gauss points [gr] that
    the constructor also stores are read by the limiters only and are not
    part of the record. *)
Definition Spatial_new (ZERO_TOL : T) (mesh : UMesh2dh) : Spatial :=
  let rc := compute_cell_centres mesh uninit2 in
  let rcg := compute_ghost_cell_coords_about_midpoint mesh rc uninit2 in
  {| m := mesh; eps := s_sqrt ZERO_TOL / s_ten; rc := rc; rcg := rcg |}.

(** ** FlowFV *)

Record FlowFV : Type := {
  base : Spatial;
  physics : IdealGasPhysics;
  isothermal_wall_id : Z;
  isothermalbaric_wall_id : Z;
  adiabatic_wall_id : Z;
  slip_wall_id : Z;
  inflow_outflow_id : Z;
  isothermal_wall_temperature : T;
  isothermal_wall_tangvel : T;
  isothermalbaric_wall_temperature : T;
  isothermalbaric_wall_tangvel : T;
  isothermalbaric_wall_pressure : T;
  adiabatic_wall_tangvel : T;
  reconstructPrimitive : bool;
  secondOrderRequested : bool;
  inviflux : InviscidFlux;
  jflux : InviscidFlux;
  rec : Reconstruction;
  lim : Limiter;
  uinf : State
}.

(** "Set farfield", lines 323-329: the free-stream state that the
    constructor stores in [uinf]. *)
Definition farfield_state {TT : Trig T} (physics : IdealGasPhysics) (a : T) : State :=
  mkVec4 s_one (s_cos a) (s_sin a)
         (s_one / ((g physics - s_one) * g physics * Minf physics * Minf physics)
          + s_half).

(** The constructor [FlowFV::FlowFV], lines 189-330.  The flux,
    reconstruction and limiter classes that the constructor instantiates
    by name are declared outside this file: the objects its [new]
    expressions produce are the arguments [invflux_obj], [jacflux_obj],
    [rec_obj] and [lim_obj]; [reconst] is the reconstruction name, which
    decides [secondOrderRequested]. *)
Definition FlowFV_new {TT : Trig T} (ZERO_TOL : T) (mesh : UMesh2dh)
  (g Minf Tinf Reinf Pr a : T)
  (isothermal_marker isothermalbaric_marker adiabatic_marker
   slip_marker inflowoutflow_marker : Z)
  (isothermal_Temperature isothermal_TangVel
   isothermalbaric_Temperature isothermalbaric_TangVel
   isothermalbaric_Pressure adiabatic_TangVel : T)
  (invflux_obj jacflux_obj : InviscidFlux) (reconst : string)
  (rec_obj : Reconstruction) (lim_obj : Limiter)
  (reconstructPrim : bool) : FlowFV :=
  let physics := {| g := g; Minf := Minf; Tinf := Tinf; Reinf := Reinf; Pr := Pr |} in
  {| base := Spatial_new ZERO_TOL mesh;
     physics := physics;
     isothermal_wall_id := isothermal_marker;
     isothermalbaric_wall_id := isothermalbaric_marker;
     adiabatic_wall_id := adiabatic_marker;
     slip_wall_id := slip_marker;
     inflow_outflow_id := inflowoutflow_marker;
     isothermal_wall_temperature := isothermal_Temperature / Tinf;
     isothermal_wall_tangvel := isothermal_TangVel;
     isothermalbaric_wall_temperature := isothermalbaric_Temperature;
     isothermalbaric_wall_tangvel := isothermalbaric_TangVel;
     isothermalbaric_wall_pressure := isothermalbaric_Pressure;
     adiabatic_wall_tangvel := adiabatic_TangVel;
     reconstructPrimitive := reconstructPrim;
     secondOrderRequested :=
       if String.eqb reconst "LEASTSQUARES" then true
       else if String.eqb reconst "GREENGAUSS" then true
       else false;
     inviflux := invflux_obj;
     jflux := jacflux_obj;
     rec := rec_obj;
     lim := lim_obj;
     uinf := farfield_state physics a |}.

(** [FlowFV::initializeUnknowns], lines 341-357. *)
Definition initializeUnknowns (fv : FlowFV) (fromfile : bool) (file : string)
  (u : MVector) : MVector :=
  if fromfile then u
  else for_loop 0 (gnelem (m (base fv))) (fun i u => upd u i (uinf fv)) u.

Context {PO : PhysicsOps}.

(** [FlowFV::compute_boundary_state], lines 368-470: [ins] is the interior
    state, [bs] the storage the ghost state is written to.  The marker
    tests are independent [if] statements, executed one after the other. *)
Definition compute_boundary_state (fv : FlowFV) (ied : nat) (ins bs : State) : State :=
  let mesh := m (base fv) in
  let nx := ggallfa mesh ied 0 in
  let ny := ggallfa mesh ied 1 in
  let vni := (e1 ins * nx + e2 ins * ny) / e0 ins in
  let bs :=
    if (gmarker mesh ied =? slip_wall_id fv)%Z then
      let b0 := e0 ins in
      mkVec4 b0
             (e1 ins - s_two * vni * nx * b0)
             (e2 ins - s_two * vni * ny * b0)
             (e3 ins)
    else bs in
  let bs :=
    if (gmarker mesh ied =? isothermal_wall_id fv)%Z then
      let b0 := e0 ins in
      let b1 := - e1 ins in
      let b2 := - e2 ins in
      let prim2state := mkVec4 b0 (b1 / b0) (b2 / b0) (isothermal_wall_temperature fv) in
      mkVec4 b0 b1 b2 (getEnergyFromPrimitive2 (physics fv) prim2state)
    else bs in
  let bs :=
    if (gmarker mesh ied =? adiabatic_wall_id fv)%Z then
      let b0 := e0 ins in
      let b1 := - e1 ins in
      let b2 := - e2 ins in
      let Tins := getTemperatureFromConserved (physics fv) ins in
      let prim2state := mkVec4 b0 (b1 / b0) (b2 / b0) Tins in
      mkVec4 b0 b1 b2 (getEnergyFromPrimitive2 (physics fv) prim2state)
    else bs in
  let bs :=
    if (gmarker mesh ied =? inflow_outflow_id fv)%Z then uinf fv else bs in
  let characteristic_id := (-1)%Z in
  let bs :=
    if (gmarker mesh ied =? characteristic_id)%Z then
      let ci := getSoundSpeedFromConserved (physics fv) ins in
      let Mni := vni / ci in
      let pinf := getPressureFromConserved (physics fv) (uinf fv) in
      if s_leb Mni s_zero then uinf fv
      else if s_leb Mni s_one then
        mkVec4 (e0 ins) (e1 ins) (e2 ins)
               (pinf / (g (physics fv) - s_one)
                + s_half * (e1 ins * e1 ins + e2 ins * e2 ins) / e0 ins)
      else ins
    else bs in
  bs.

(** [FlowFV::compute_boundary_states], lines 359-366. *)
Definition compute_boundary_states (fv : FlowFV) (ins bs : MVector) : MVector :=
  for_loop 0 (gnbface (m (base fv)))
    (fun ied bs => upd bs ied (compute_boundary_state fv ied (ins ied) (bs ied))) bs.

(** The left and right states of every face: lines 491-568 of
    [FlowFV::compute_residual]. *)
Definition face_states (fv : FlowFV) (u : MVector) : MVector * MVector :=
  let mesh := m (base fv) in
  let ug : MVector := uninit in
  let uleft : MVector := uninit in
  let uright : MVector := uninit in
  let dudx : MVector := uninit in
  let dudy : MVector := uninit in
  (* cell-centred values of boundary cells as left values of boundary faces *)
  let uleft := for_loop 0 (gnbface mesh)
                 (fun ied uleft => upd uleft ied (u (gintfac mesh ied 0))) uleft in
  let '(uleft, uright) :=
    if secondOrderRequested fv then
      let ug := compute_boundary_states fv uleft ug in
      if reconstructPrimitive fv then
        let up : MVector := uninit in
        let ug := for_loop 0 (gnbface mesh)
                    (fun iface ug =>
                       upd ug iface (convertConservedToPrimitive (physics fv) (ug iface))) ug in
        let up := for_loop 0 (gnelem mesh)
                    (fun iel up =>
                       upd up iel (convertConservedToPrimitive (physics fv) (u iel))) up in
        let '(dudx, dudy) := compute_gradients (rec fv) up ug dudx dudy in
        let '(uleft, uright) :=
          compute_face_values (lim fv) up ug dudx dudy uleft uright in
        let '(uleft, uright) :=
          for_loop (gnbface mesh) (gnaface mesh)
            (fun iface '(uleft, uright) =>
               (upd uleft iface (convertPrimitiveToConserved (physics fv) (uleft iface)),
                upd uright iface (convertPrimitiveToConserved (physics fv) (uright iface))))
            (uleft, uright) in
        let uleft := for_loop 0 (gnbface mesh)
                       (fun iface uleft =>
                          upd uleft iface
                              (convertPrimitiveToConserved (physics fv) (uleft iface)))
                       uleft in
        (uleft, uright)
      else
        let '(dudx, dudy) := compute_gradients (rec fv) u ug dudx dudy in
        compute_face_values (lim fv) u ug dudx dudy uleft uright
    else
      for_loop (gnbface mesh) (gnaface mesh)
        (fun ied '(uleft, uright) =>
           (upd uleft ied (u (gintfac mesh ied 0)),
            upd uright ied (u (gintfac mesh ied 1))))
        (uleft, uright) in
  (* right (ghost) state of the boundary faces *)
  let uright := compute_boundary_states fv uleft uright in
  (uleft, uright).

(** The flux through face [ied] integrated over the face: lines 583-595. *)
Definition face_flux (fv : FlowFV) (uleft uright : MVector) (ied : nat) : State :=
  let mesh := m (base fv) in
  let n := mkVec2 (ggallfa mesh ied 0) (ggallfa mesh ied 1) in
  let len := ggallfa mesh ied 2 in
  let fluxes := get_flux (inviflux fv) (uleft ied) (uright ied) n in
  vmap (fun f => f * len) fluxes.

(** One iteration of the face loop, lines 581-625, on the residual and the
    per-cell integral of the largest wave speed. *)
Definition face_step (fv : FlowFV) (uleft uright : MVector) (ied : nat)
  (st : MVector * (nat -> T)) : MVector * (nat -> T) :=
  let '(residual, integ) := st in
  let mesh := m (base fv) in
  let n0 := ggallfa mesh ied 0 in
  let n1 := ggallfa mesh ied 1 in
  let len := ggallfa mesh ied 2 in
  let lelem := gintfac mesh ied 0 in
  let relem := gintfac mesh ied 1 in
  let fluxes := face_flux fv uleft uright ied in
  let ul := uleft ied in
  let ur := uright ied in
  let pi := (g (physics fv) - s_one)
            * (e3 ul - s_half * (s_sqr (e1 ul) + s_sqr (e2 ul)) / e0 ul) in
  let pj := (g (physics fv) - s_one)
            * (e3 ur - s_half * (s_sqr (e1 ur) + s_sqr (e2 ur)) / e0 ur) in
  let ci := s_sqrt (g (physics fv) * pi / e0 ul) in
  let cj := s_sqrt (g (physics fv) * pj / e0 ur) in
  let vni := (e1 ul * n0 + e2 ul * n1) / e0 ul in
  let vnj := (e1 ur * n0 + e2 ur * n1) / e0 ur in
  let residual := upd residual lelem (vmap2 s_add (residual lelem) fluxes) in
  let residual :=
    if relem <? gnelem mesh
    then upd residual relem (vmap2 s_sub (residual relem) fluxes)
    else residual in
  let integ := upd integ lelem (integ lelem + (s_abs vni + ci) * len) in
  let integ :=
    if relem <? gnelem mesh
    then upd integ relem (integ relem + (s_abs vnj + cj) * len)
    else integ in
  (residual, integ).

(** [FlowFV::compute_residual], lines 472-635: the new contents of
    [residual] and [dtm]. *)
Definition compute_residual (fv : FlowFV) (u residual : MVector)
  (gettimesteps : bool) (dtm : nat -> T) : MVector * (nat -> T) :=
  let mesh := m (base fv) in
  let integ : nat -> T := uninit1 in
  let integ := for_loop 0 (gnelem mesh) (fun iel integ => upd integ iel s_zero) integ in
  let '(uleft, uright) := face_states fv u in
  let '(residual, integ) :=
    for_loop 0 (gnaface mesh) (face_step fv uleft uright) (residual, integ) in
  let dtm :=
    if gettimesteps
    then for_loop 0 (gnelem mesh)
           (fun iel dtm => upd dtm iel (garea mesh iel / integ iel)) dtm
    else dtm in
  (residual, dtm).

(** ** The matrix-free Jacobian-vector product *)

(** [x[k]] and [x[k] = a] on a row. *)
Definition vget (v : State) (k : nat) : T :=
  match k with 0 => e0 v | 1 => e1 v | 2 => e2 v | _ => e3 v end.

Definition vset (v : State) (k : nat) (a : T) : State :=
  match k with
  | 0 => mkVec4 a (e1 v) (e2 v) (e3 v)
  | 1 => mkVec4 (e0 v) a (e2 v) (e3 v)
  | 2 => mkVec4 (e0 v) (e1 v) a (e3 v)
  | _ => mkVec4 (e0 v) (e1 v) (e2 v) a
  end.

(** [x.data()[i]] and [x.data()[i] = a]: the entries of an [MVector] row
    after row, NVARS to a row. *)
Definition data (x : MVector) (i : nat) : T :=
  vget (x (i / NVARS)%nat) (i mod NVARS).

Definition data_set (x : MVector) (i : nat) (a : T) : MVector :=
  upd x (i / NVARS)%nat (vset (x (i / NVARS)%nat) (i mod NVARS) a).

(** Modelled from the spec: [dot] is defined in the linear-algebra header,
    which is outside this file; the spec's norm of [v] is the square root
    of this sum of products. *)
Definition dot (N : nat) (a b : MVector) : T :=
  for_loop 0 N (fun i sum => sum + data a i * data b i) s_zero.

(** Modelled from the spec: [axpbypcz] is defined in the linear-algebra
    header, which is outside this file; [z <- p z + q x + r y], which with
    [p = 0], [q = 1] is the spec's perturbed state [x + r y]. *)
Definition axpbypcz (N : nat) (p : T) (z : MVector) (q : T) (x : MVector)
  (r : T) (y : MVector) : MVector :=
  for_loop 0 N
    (fun i z => data_set z i (p * data z i + q * data x i + r * data y i)) z.

(** [Spatial<nvars>::compute_jac_vec], lines 124-153, for nvars = NVARS.
    [residual_of] is the virtual member function [compute_residual] of the
    object; the results are the new contents of [aux] and [prod]. *)
Definition compute_jac_vec (sp : Spatial)
  (residual_of : MVector -> MVector -> bool -> (nat -> T) -> MVector * (nat -> T))
  (resu u v : MVector) (add_time_deriv : bool) (dtm : nat -> T)
  (aux prod : MVector) : MVector * MVector :=
  let N := (gnelem (m sp) * NVARS)%nat in
  let vnorm := dot N v v in
  let vnorm := s_sqrt vnorm in
  (* the perturbed state *)
  let aux := axpbypcz N s_zero aux s_one u (eps sp / vnorm) v in
  (* residual at the perturbed state *)
  let _dtm : nat -> T := uninit1 in
  let prod := fst (residual_of aux prod false _dtm) in
  (* the Jacobian vector product *)
  let prod :=
    for_loop 0 (gnelem (m sp) * NVARS)%nat
      (fun i prod => data_set prod i ((data prod i - data resu i) / (eps sp / vnorm)))
      prod in
  (* time term *)
  let prod :=
    if add_time_deriv then
      for_loop 0 (gnelem (m sp)) (fun iel prod =>
        for_loop 0 NVARS (fun ivar prod =>
          upd prod iel
              (vset (prod iel) ivar
                    (vget (prod iel) ivar
                     + garea (m sp) iel / dtm iel * vget (v iel) ivar)))
          prod) prod
    else prod in
  (aux, prod).

(** [compute_jac_vec] on a [FlowFV] object. *)
Definition FlowFV_compute_jac_vec (fv : FlowFV) :=
  compute_jac_vec (base fv) (compute_residual fv).

(** ** Jacobian assembly *)

(** The member functions of [LinearOperator] that the assembly calls, as
    functions on the state of the operator. *)
Class LinearOperator (A : Type) : Type := {
  type : A -> ascii;
  submitBlock : A -> nat -> nat -> Block -> nat -> nat -> A;
  updateDiagBlock : A -> nat -> Block -> nat -> A
}.

Definition bmap (f : T -> T) (b : Block) : Block := vmap (vmap f) b.

(** One iteration of the boundary-face loop of [FlowFV::compute_jacobian],
    lines 756-773. *)
Definition jacobian_boundary_face {A : Type} {LO : LinearOperator A}
  (fv : FlowFV) (u : MVector) (iface : nat) (op : A) : A :=
  let mesh := m (base fv) in
  let lelem := gintfac mesh iface 0 in
  let n := mkVec2 (ggallfa mesh iface 0) (ggallfa mesh iface 1) in
  let len := ggallfa mesh iface 2 in
  let uface : State := uninit 0 in
  let uface := compute_boundary_state fv iface (u lelem) uface in
  let '(left_, right_) := get_jacobian (jflux fv) (u lelem) uface n in
  (* multiply by length of face and negate, as -ve of L is added to D *)
  let left_ := bmap (fun x => (- len) * x) left_ in
  updateDiagBlock op (lelem * NVARS)%nat left_ NVARS.

(** One iteration of the interior-face loop, lines 776-805. *)
Definition jacobian_interior_face {A : Type} {LO : LinearOperator A}
  (fv : FlowFV) (u : MVector) (iface : nat) (op : A) : A :=
  let mesh := m (base fv) in
  let intface := (iface - gnbface mesh)%nat in
  let lelem := gintfac mesh iface 0 in
  let relem := gintfac mesh iface 1 in
  let n := mkVec2 (ggallfa mesh iface 0) (ggallfa mesh iface 1) in
  let len := ggallfa mesh iface 2 in
  let '(L, U) := get_jacobian (jflux fv) (u lelem) (u relem) n in
  let L := bmap (fun x => x * len) L in
  let U := bmap (fun x => x * len) U in
  let op :=
    if Ascii.eqb (type op) "d" then
      let op := submitBlock op (relem * NVARS)%nat (lelem * NVARS)%nat L 1 intface in
      submitBlock op (lelem * NVARS)%nat (relem * NVARS)%nat U 2 intface
    else
      let op := submitBlock op (relem * NVARS)%nat (lelem * NVARS)%nat L NVARS NVARS in
      submitBlock op (lelem * NVARS)%nat (relem * NVARS)%nat U NVARS NVARS in
  (* negative L and U contribute to diagonal blocks *)
  let L := bmap (fun x => x * (- s_one)) L in
  let U := bmap (fun x => x * (- s_one)) U in
  let op := updateDiagBlock op (lelem * NVARS)%nat L NVARS in
  updateDiagBlock op (relem * NVARS)%nat U NVARS.

(** [FlowFV::compute_jacobian] into a [LinearOperator], lines 752-806. *)
Definition compute_jacobian {A : Type} {LO : LinearOperator A}
  (fv : FlowFV) (u : MVector) (op : A) : A :=
  let mesh := m (base fv) in
  let op := for_loop 0 (gnbface mesh) (jacobian_boundary_face fv u) op in
  for_loop (gnbface mesh) (gnaface mesh) (jacobian_interior_face fv u) op.

(** A linear operator that records, in the order they are made, the calls
    it receives. *)
Inductive OpCall : Type :=
| SubmitBlock (starti startj : nat) (buffer : Block) (param1 param2 : nat)
| UpdateDiagBlock (starti : nat) (buffer : Block) (param : nat).

Record Recorder : Type := {
  rec_type : ascii;
  rec_calls : list OpCall
}.

#[export] Instance Recorder_LinearOperator : LinearOperator Recorder := {|
  type := rec_type;
  submitBlock := fun op i j b p1 p2 =>
    {| rec_type := rec_type op;
       rec_calls := rec_calls op ++ [SubmitBlock i j b p1 p2] |};
  updateDiagBlock := fun op i b p =>
    {| rec_type := rec_type op;
       rec_calls := rec_calls op ++ [UpdateDiagBlock i b p] |}
|}.

End Model.

Arguments mkVec4 {A} _ _ _ _.
Arguments mkVec2 {A} _ _.

(** ** The rest of [Spatial<nvars>] and of [FlowFV] *)

(** The strict comparison [>] on [a_real]. *)
Class ScalarOrder (T : Type) : Type := {
  s_gtb : T -> T -> bool
}.

#[export] Instance ScalarOrder_R : ScalarOrder R := {|
  s_gtb := fun x y => if Rgt_dec x y then true else false |}.

#[export] Instance ScalarOrder_float : ScalarOrder PrimFloat.float := {|
  s_gtb := fun x y => PrimFloat.ltb y x |}.

Section Model2.

Context {T : Type} {ST : Scalar T} {SO : ScalarOrder T} {PO : @PhysicsOps T}.
Variable uninit : nat -> @State T.
Local Open Scope scalar_scope.

(** [a(i)(j,k) = x], for the array of arrays [gr]. *)
Definition upd3 {X : Type} (a : nat -> nat -> nat -> X) (i j k : nat) (x : X)
  : nat -> nat -> nat -> X :=
  fun i' => if Nat.eqb i' i then upd2 (a i') j k x else a i'.

(** The Gauss points of the faces: the last loop of the [Spatial]
    constructor, lines 41-52.  [NGAUSS] is a macro of a header outside
    this file. *)
Definition compute_gauss_points (NGAUSS : nat) (mesh : @UMesh2dh T)
  (gr0 : nat -> nat -> nat -> T) : nat -> nat -> nat -> T :=
  for_loop 0 (gnaface mesh) (fun ied gr =>
    let x1 := gcoords mesh (gintfac mesh ied 2) 0 in
    let y1 := gcoords mesh (gintfac mesh ied 2) 1 in
    let x2 := gcoords mesh (gintfac mesh ied 3) 0 in
    let y2 := gcoords mesh (gintfac mesh ied 3) 1 in
    for_loop 0 NGAUSS (fun ig gr =>
      let gr := upd3 gr ied ig 0
                  (x1 + (s_of_nat ig + s_one) / (s_of_nat NGAUSS + s_one) * (x2 - x1)) in
      upd3 gr ied ig 1
           (y1 + (s_of_nat ig + s_one) / (s_of_nat NGAUSS + s_one) * (y2 - y1)))
      gr) gr0.

(** The point [(xs, ys)] about which
    [compute_ghost_cell_coords_about_face] reflects the centre of the left
    cell of boundary face [ied]: lines 91-118.  [A_SMALL_NUMBER] is a macro
    of a header outside this file. *)
Definition reflection_point (A_SMALL_NUMBER : T) (mesh : @UMesh2dh T)
  (rc : nat -> nat -> T) (ied : nat) : T * T :=
  let ielem := gintfac mesh ied 0 in
  let nx := ggallfa mesh ied 0 in
  let ny := ggallfa mesh ied 1 in
  let xi := rc ielem 0 in
  let yi := rc ielem 1 in
  let x1 := gcoords mesh (gintfac mesh ied 2) 0 in
  let x2 := gcoords mesh (gintfac mesh ied 3) 0 in
  let y1 := gcoords mesh (gintfac mesh ied 2) 1 in
  let y2 := gcoords mesh (gintfac mesh ied 3) 1 in
  if s_gtb (s_abs nx) A_SMALL_NUMBER && s_gtb (s_abs ny) A_SMALL_NUMBER then
    let xs := (yi - y1 - ny / nx * xi + (y2 - y1) / (x2 - x1) * x1)
              / ((y2 - y1) / (x2 - x1) - ny / nx) in
    let ys := ny / nx * xs + yi - ny / nx * xi in
    (xs, ys)
  else if s_leb (s_abs nx) A_SMALL_NUMBER then (xi, y1)
  else (x1, yi).

(** [compute_ghost_cell_coords_about_face], lines 84-122. *)
Definition compute_ghost_cell_coords_about_face (A_SMALL_NUMBER : T)
  (mesh : @UMesh2dh T) (rc rcg0 : nat -> nat -> T) : nat -> nat -> T :=
  for_loop 0 (gnbface mesh) (fun ied rcg =>
    let ielem := gintfac mesh ied 0 in
    let xi := rc ielem 0 in
    let yi := rc ielem 1 in
    let '(xs, ys) := reflection_point A_SMALL_NUMBER mesh rc ied in
    let rcg := upd2 rcg ied 0 (s_two * xs - xi) in
    upd2 rcg ied 1 (s_two * ys - yi)) rcg0.

(** [Spatial<nvars>::compute_jac_gemv], lines 155-187, for nvars = NVARS:
    the new contents of [aux] and [prod]. *)
Definition compute_jac_gemv (sp : @Spatial T)
  (residual_of : (@MVector T) -> (@MVector T) -> bool -> (nat -> T) -> (@MVector T) * (nat -> T))
  (a : T) (resu u v : (@MVector T)) (add_time_deriv : bool) (dtm : nat -> T)
  (b : T) (w : (@MVector T)) (aux prod : (@MVector T)) : (@MVector T) * (@MVector T) :=
  let N := (gnelem (m sp) * NVARS)%nat in
  let vnorm := dot N v v in
  let vnorm := s_sqrt vnorm in
  let aux := axpbypcz N s_zero aux s_one u (eps sp / vnorm) v in
  let _dtm : nat -> T := uninit1 uninit in
  let prod := fst (residual_of aux prod false _dtm) in
  let prod :=
    for_loop 0 (gnelem (m sp) * NVARS)%nat
      (fun i prod =>
         data_set prod i
           (a * (data prod i - data resu i) / (eps sp / vnorm) + b * data w i))
      prod in
  let prod :=
    if add_time_deriv then
      for_loop 0 (gnelem (m sp)) (fun iel prod =>
        for_loop 0 NVARS (fun ivar prod =>
          upd prod iel
              (vset (prod iel) ivar
                    (vget (prod iel) ivar
                     + a * garea (m sp) iel / dtm iel * vget (v iel) ivar)))
          prod) prod
    else prod in
  (aux, prod).

Definition FlowFV_compute_jac_gemv (fv : @FlowFV T) :=
  compute_jac_gemv (base fv) (compute_residual uninit fv).

(** [IdealGasPhysics::getEntropyFromConserved], declared outside this
    file. *)
Class EntropyOps : Type := {
  getEntropyFromConserved : @IdealGasPhysics T -> @State T -> T
}.

(** [FlowFV::compute_entropy_cell], lines 878-897: the value returned; the
    line it prints is left out. *)
Definition compute_entropy_cell {EO : EntropyOps} (fv : @FlowFV T) (u : (@MVector T)) : T :=
  let mesh := m (base fv) in
  let sinf := getEntropyFromConserved (physics fv) (uinf fv) in
  let s_err : nat -> T := uninit1 uninit in
  let '(s_err, error) :=
    for_loop 0 (gnelem mesh) (fun iel '(s_err, error) =>
      let s_err :=
        upd s_err iel
            ((getEntropyFromConserved (physics fv) (u iel) - sinf) / sinf) in
      (s_err, error + s_err iel * s_err iel * garea mesh iel))
      (s_err, s_zero) in
  s_sqrt error.

(** The nodal averages of [FlowFV::postprocess_point], lines 817-834: the
    contents of [up] and [areasum] after the accumulation loop, and of
    [up] after the division.  [gnpoin] is the number of nodes of the
    mesh. *)
Definition accumulate_at_nodes (fv : @FlowFV T) (u : (@MVector T))
  : (@MVector T) * (nat -> T) :=
  let mesh := m (base fv) in
  let areasum : nat -> T := fun _ => s_zero in
  let up : (@MVector T) := fun _ => vconst s_zero in
  for_loop 0 (gnelem mesh) (fun ielem st =>
    for_loop 0 (gnnode mesh ielem) (fun inode st =>
      for_loop 0 NVARS (fun ivar '(up, areasum) =>
        let ip := ginpoel mesh ielem inode in
        (upd up ip (vset (up ip) ivar
                         (vget (up ip) ivar + vget (u ielem) ivar * garea mesh ielem)),
         upd areasum ip (areasum ip + garea mesh ielem)))
        st) st) (up, areasum).

Definition nodal_averages (gnpoin : nat) (fv : @FlowFV T) (u : (@MVector T)) : (@MVector T) :=
  let '(up, areasum) := accumulate_at_nodes fv u in
  for_loop 0 gnpoin (fun ipoin up =>
    for_loop 0 NVARS (fun ivar up =>
      upd up ipoin (vset (up ipoin) ivar (vget (up ipoin) ivar / areasum ipoin)))
      up) up.

(** [FlowFV::postprocess_point], lines 810-852: the new contents of
    [scalars] and [velocities].  The call of [compute_entropy_cell] at the
    end only prints. *)
Definition postprocess_point (gnpoin : nat) (fv : @FlowFV T) (u : (@MVector T))
  : (nat -> nat -> T) * (nat -> nat -> T) :=
  let scalars : nat -> nat -> T := uninit2 uninit in
  let velocities : nat -> nat -> T := uninit2 uninit in
  let up := nodal_averages gnpoin fv u in
  for_loop 0 gnpoin (fun ipoin '(scalars, velocities) =>
    let scalars := upd2 scalars ipoin 0 (e0 (up ipoin)) in
    let velocities := upd2 velocities ipoin 0 (e1 (up ipoin) / e0 (up ipoin)) in
    let velocities := upd2 velocities ipoin 1 (e2 (up ipoin) / e0 (up ipoin)) in
    let vmag2 := s_sqr (velocities ipoin 0) + s_sqr (velocities ipoin 1) in
    let scalars := upd2 scalars ipoin 2
                     (getPressureFromConserved (physics fv) (up ipoin)) in
    let c := getSoundSpeedFromConserved (physics fv) (up ipoin) in
    let scalars := upd2 scalars ipoin 1 (s_sqrt vmag2 / c) in
    (scalars, velocities))
    (scalars, velocities).

(** [FlowFV::postprocess_cell], lines 854-876. *)
Definition postprocess_cell (fv : @FlowFV T) (u : (@MVector T))
  : (nat -> nat -> T) * (nat -> nat -> T) :=
  let mesh := m (base fv) in
  let scalars : nat -> nat -> T := uninit2 uninit in
  let velocities : nat -> nat -> T := uninit2 uninit in
  let scalars := for_loop 0 (gnelem mesh)
                   (fun iel scalars => upd2 scalars iel 0 (e0 (u iel))) scalars in
  for_loop 0 (gnelem mesh) (fun iel '(scalars, velocities) =>
    let velocities := upd2 velocities iel 0 (e1 (u iel) / e0 (u iel)) in
    let velocities := upd2 velocities iel 1 (e2 (u iel) / e0 (u iel)) in
    let vmag2 := s_sqr (velocities iel 0) + s_sqr (velocities iel 1) in
    let scalars := upd2 scalars iel 2 (getPressureFromConserved (physics fv) (u iel)) in
    let c := getSoundSpeedFromConserved (physics fv) (u iel) in
    let scalars := upd2 scalars iel 1 (s_sqrt vmag2 / c) in
    (scalars, velocities))
    (scalars, velocities).

End Model2.

(** ** Diffusion<nvars> and DiffusionMA<nvars> *)

Section DiffusionModel.

Context {T : Type} {ST : Scalar T} {SO : ScalarOrder T}.
Variable uninit : nat -> @State T.
Local Open Scope scalar_scope.

(** The template parameter. *)
Variable nvars : nat.

(** [amat::Array2d<a_real>] and [MVector] with [nvars] columns: entry
    (row, column); a row is handed around as [a_real*]. *)
Definition Array2d : Type := nat -> nat -> T.

(** The longest face of every cell: the loop of the constructor
    [Diffusion<nvars>::Diffusion], lines 907-915.  [gnfael] and
    [gelemface] are the accessors of the mesh for the number of faces of a
    cell and for the faces of a cell. *)
Definition longest_faces (gnfael : nat -> nat) (gelemface : nat -> nat -> nat)
  (mesh : @UMesh2dh T) (h0 : nat -> T) : nat -> T :=
  for_loop 0 (gnelem mesh) (fun iel h =>
    let h := upd h iel s_zero in
    for_loop 0 (gnfael iel) (fun ifael h =>
      let face := gelemface iel ifael in
      if s_gtb (ggallfa mesh face 2) (h iel)
      then upd h iel (ggallfa mesh face 2)
      else h) h) h0.

(** [source(r, t, u, sourceterm)]: the value written to [sourceterm]. *)
Record Diffusion : Type := {
  dbase : @Spatial T;
  diffusivity : T;
  bval : T;
  source : (nat -> T) -> T -> (nat -> T) -> T;
  h : nat -> T
}.

Definition Diffusion_new (gnfael : nat -> nat) (gelemface : nat -> nat -> nat)
  (ZERO_TOL : T) (mesh : @UMesh2dh T) (diffcoeff bvalue : T)
  (sourcefunc : (nat -> T) -> T -> (nat -> T) -> T) : Diffusion :=
  {| dbase := Spatial_new uninit ZERO_TOL mesh;
     diffusivity := diffcoeff;
     bval := bvalue;
     source := sourcefunc;
     h := longest_faces gnfael gelemface mesh (uninit1 uninit) |}.

(** [Diffusion<nvars>::compute_boundary_state], lines 922-929. *)
Definition Diffusion_compute_boundary_state (d : Diffusion) (ied : nat)
  (ins bs : nat -> T) : nat -> T :=
  for_loop 0 nvars (fun ivar bs => upd bs ivar (s_two * bval d - ins ivar)) bs.

(** [Diffusion<nvars>::compute_boundary_states], lines 931-937. *)
Definition Diffusion_compute_boundary_states (d : Diffusion)
  (instates bounstates : Array2d) : Array2d :=
  for_loop 0 (gnbface (m (dbase d)))
    (fun ied bounstates =>
       upd bounstates ied
           (Diffusion_compute_boundary_state d ied (instates ied) (bounstates ied)))
    bounstates.

(** The gradient reconstruction of [DiffusionMA]:
    [compute_gradients(u, ug, dudx, dudy)]. *)
Record ScalarReconstruction : Type := {
  compute_scalar_gradients :
    Array2d -> Array2d -> Array2d -> Array2d -> Array2d * Array2d
}.

Record DiffusionMA : Type := {
  diff : Diffusion;
  drec : ScalarReconstruction
}.

(** The distance between two points and the component along it of the
    normal of face [iface]: the [dist] and [sn] computed at lines
    1025-1033, 1056-1064, 1102-1110 and 1142-1150 from the displacement
    [dr]. *)
Definition dist_of (dr : nat -> T) : T :=
  s_sqrt (for_loop 0 NDIM (fun i dist => dist + dr i * dr i) s_zero).

Definition sn_of (mesh : @UMesh2dh T) (iface : nat) (dr : nat -> T) : T :=
  for_loop 0 NDIM (fun i sn => sn + dr i / dist_of dr * ggallfa mesh iface i) s_zero.

(** One iteration of the interior-face loop of
    [DiffusionMA<nvars>::compute_residual], lines 1020-1050. *)
Definition diffusion_interior_face (dm : DiffusionMA) (u dudx dudy : Array2d)
  (iface : nat) (residual : Array2d) : Array2d :=
  let d := diff dm in
  let mesh := m (dbase d) in
  let lelem := gintfac mesh iface 0 in
  let relem := gintfac mesh iface 1 in
  let len := ggallfa mesh iface 2 in
  let dr : nat -> T :=
    for_loop 0 NDIM
      (fun i dr => upd dr i (rc (dbase d) relem i - rc (dbase d) lelem i))
      (uninit1 uninit) in
  let dist := dist_of dr in
  let sn := sn_of mesh iface dr in
  let gradterm : nat -> T :=
    for_loop 0 nvars (fun ivar gradterm =>
      upd gradterm ivar
          (s_half * (dudx lelem ivar + dudx relem ivar)
           * (ggallfa mesh iface 0 - sn * dr 0 / dist)
           + s_half * (dudy lelem ivar + dudy relem ivar)
             * (ggallfa mesh iface 1 - sn * dr 1 / dist)))
      (uninit1 uninit) in
  for_loop 0 nvars (fun ivar residual =>
    let flux := diffusivity d
                * (gradterm ivar + (u relem ivar - u lelem ivar) / dist * sn)
                * len in
    let residual := upd2 residual lelem ivar (residual lelem ivar - flux) in
    upd2 residual relem ivar (residual relem ivar + flux)) residual.

(** One iteration of the boundary-face loop, lines 1052-1076. *)
Definition diffusion_boundary_face (dm : DiffusionMA) (u ug dudx dudy : Array2d)
  (iface : nat) (residual : Array2d) : Array2d :=
  let d := diff dm in
  let mesh := m (dbase d) in
  let lelem := gintfac mesh iface 0 in
  let len := ggallfa mesh iface 2 in
  let dr : nat -> T :=
    for_loop 0 NDIM
      (fun i dr => upd dr i (rcg (dbase d) iface i - rc (dbase d) lelem i))
      (uninit1 uninit) in
  let dist := dist_of dr in
  let sn := sn_of mesh iface dr in
  let gradterm : nat -> T :=
    for_loop 0 nvars (fun ivar gradterm =>
      upd gradterm ivar
          (dudx lelem ivar * (ggallfa mesh iface 0 - sn * dr 0 / dist)
           + dudy lelem ivar * (ggallfa mesh iface 1 - sn * dr 1 / dist)))
      (uninit1 uninit) in
  for_loop 0 nvars (fun ivar residual =>
    upd2 residual lelem ivar
         (residual lelem ivar
          - diffusivity d
            * ((ug iface ivar - u lelem ivar) / dist * sn + gradterm ivar)
            * len)) residual.

(** The first loop of [DiffusionMA<nvars>::compute_residual], lines
    1010-1015: the states of the interior cells of the boundary faces. *)
Definition boundary_interior_states (d : Diffusion) (u uleft : Array2d) : Array2d :=
  let mesh := m (dbase d) in
  for_loop 0 (gnbface mesh) (fun ied uleft =>
    let ielem := gintfac mesh ied 0 in
    for_loop 0 nvars (fun ivar uleft => upd2 uleft ied ivar (u ielem ivar)) uleft)
    uleft.

(** [DiffusionMA<nvars>::compute_residual], lines 994-1087: the new
    contents of [residual] and [dtm]. *)
Definition DiffusionMA_compute_residual (dm : DiffusionMA) (u residual : Array2d)
  (gettimesteps : bool) (dtm : nat -> T) : Array2d * (nat -> T) :=
  let d := diff dm in
  let mesh := m (dbase d) in
  let dudx : Array2d := uninit2 uninit in
  let dudy : Array2d := uninit2 uninit in
  let uleft : Array2d := uninit2 uninit in
  let ug : Array2d := uninit2 uninit in
  let uleft := boundary_interior_states d u uleft in
  let ug := Diffusion_compute_boundary_states d uleft ug in
  let '(dudx, dudy) := compute_scalar_gradients (drec dm) u ug dudx dudy in
  let residual :=
    for_loop (gnbface mesh) (gnaface mesh)
      (diffusion_interior_face dm u dudx dudy) residual in
  let residual :=
    for_loop 0 (gnbface mesh) (diffusion_boundary_face dm u ug dudx dudy) residual in
  for_loop 0 (gnelem mesh) (fun iel '(residual, dtm) =>
    let dtm := if gettimesteps
               then upd dtm iel (h d iel * h d iel / diffusivity d)
               else dtm in
    let sourceterm := source d (rc (dbase d) iel) s_zero (u iel) in
    (upd2 residual iel 0 (residual iel 0 - sourceterm * garea mesh iel), dtm))
    (residual, dtm).

(** A linear operator that records the calls it receives, each with the
    [nvars * nvars] entries that the buffer holds when the call is made. *)
Inductive DiffusionCall : Type :=
| DSubmitBlock (starti startj : nat) (buffer : list T) (param1 param2 : nat)
| DUpdateDiagBlock (starti : nat) (buffer : list T) (param : nat).

Definition entries (ll : nat -> T) : list T := map ll (seq 0 (nvars * nvars)).

(** The buffer [ll] of the Jacobian assembly: zero, with [a] on the
    diagonal; lines 1112-1118 and 1152-1158. *)
Definition fill_diagonal (a : T) (ll0 : nat -> T) : nat -> T :=
  for_loop 0 nvars (fun ivar ll =>
    let ll := for_loop 0 nvars
                (fun jvar ll => upd ll (ivar * nvars + jvar) s_zero) ll in
    upd ll (ivar * nvars + ivar) a) ll0.

(** One iteration of the interior-face loop of
    [DiffusionMA<nvars>::compute_jacobian], lines 1095-1135, on the type
    of the operator and the list of the calls made so far. *)
Definition diffusion_jacobian_interior_face (dm : DiffusionMA) (ty : ascii)
  (iface : nat) (calls : list DiffusionCall) : list DiffusionCall :=
  let d := diff dm in
  let mesh := m (dbase d) in
  let lelem := gintfac mesh iface 0 in
  let relem := gintfac mesh iface 1 in
  let len := ggallfa mesh iface 2 in
  let dr : nat -> T :=
    for_loop 0 NDIM
      (fun i dr => upd dr i (rc (dbase d) relem i - rc (dbase d) lelem i))
      (uninit1 uninit) in
  let dist := dist_of dr in
  let sn := sn_of mesh iface dr in
  let ll := fill_diagonal (- diffusivity d * sn * len / dist) (uninit1 uninit) in
  let faceid := (iface - gnbface mesh)%nat in
  let calls :=
    if Ascii.eqb ty "d" then
      calls ++ [DSubmitBlock (relem * nvars) (lelem * nvars) (entries ll) 1 faceid;
                DSubmitBlock (lelem * nvars) (relem * nvars) (entries ll) 2 faceid]
    else
      calls ++ [DSubmitBlock (relem * nvars) (lelem * nvars) (entries ll) nvars nvars;
                DSubmitBlock (lelem * nvars) (relem * nvars) (entries ll) nvars nvars] in
  let ll := for_loop 0 nvars (fun ivar (ll : nat -> T) =>
              upd ll (ivar * nvars + ivar)
                  (ll (ivar * nvars + ivar)%nat * (- s_one))) ll in
  calls ++ [DUpdateDiagBlock (lelem * nvars) (entries ll) nvars;
            DUpdateDiagBlock (relem * nvars) (entries ll) nvars].

(** One iteration of the boundary-face loop, lines 1137-1161. *)
Definition diffusion_jacobian_boundary_face (dm : DiffusionMA)
  (iface : nat) (calls : list DiffusionCall) : list DiffusionCall :=
  let d := diff dm in
  let mesh := m (dbase d) in
  let lelem := gintfac mesh iface 0 in
  let len := ggallfa mesh iface 2 in
  let dr : nat -> T :=
    for_loop 0 NDIM
      (fun i dr => upd dr i (rcg (dbase d) iface i - rc (dbase d) lelem i))
      (uninit1 uninit) in
  let dist := dist_of dr in
  let sn := sn_of mesh iface dr in
  let ll := fill_diagonal (diffusivity d * sn * len / dist) (uninit1 uninit) in
  calls ++ [DUpdateDiagBlock (lelem * nvars) (entries ll) nvars].

(** [DiffusionMA<nvars>::compute_jacobian], lines 1089-1162. *)
Definition DiffusionMA_compute_jacobian (dm : DiffusionMA) (ty : ascii)
  (calls : list DiffusionCall) : list DiffusionCall :=
  let mesh := m (dbase (diff dm)) in
  let calls := for_loop (gnbface mesh) (gnaface mesh)
                 (diffusion_jacobian_interior_face dm ty) calls in
  for_loop 0 (gnbface mesh) (diffusion_jacobian_boundary_face dm) calls.

End DiffusionModel.

(** The state of the accumulation of [postprocess_point] for a uniform
    solution: every node holds a non-negative multiple s of the state, and
    four times s as its area sum; s is positive at the nodes in [seen]. *)
Definition accumulated (U : @State R) (seen : nat -> Prop)
  (st : @MVector R * (nat -> R)) : Prop :=
  forall p, exists s : R, (0 <= s)%R /\ fst st p = vmap (Rmult s) U
                      /\ snd st p = (4 * s)%R /\ (seen p -> (0 < s)%R).

(** ** A small configuration to run the code on *)

Section Channel.

Context {T : Type} {ST : Scalar T}.
Local Open Scope scalar_scope.

(** Modelled from the spec: the member functions of [IdealGasPhysics] are
    defined outside this file; pressure [(g-1)(rho E - rho |v|^2 / 2)],
    the non-dimensional gas law [p = rho T / (g Minf^2)], sound speed
    [sqrt(g p / rho)], and primitive variables (rho, vx, vy, T). *)
Definition ideal_gas : PhysicsOps (T := T) :=
  let pressure (ph : IdealGasPhysics) (uc : State) : T :=
    (g ph - s_one) * (e3 uc - s_half * (s_sqr (e1 uc) + s_sqr (e2 uc)) / e0 uc) in
  let temperature (ph : IdealGasPhysics) (uc : State) : T :=
    pressure ph uc * g ph * Minf ph * Minf ph / e0 uc in
  let energy2 (ph : IdealGasPhysics) (up : State) : T :=
    e0 up * e3 up / (g ph * Minf ph * Minf ph) / (g ph - s_one)
    + s_half * e0 up * (s_sqr (e1 up) + s_sqr (e2 up)) in
  {| getPressureFromConserved := pressure;
     getTemperatureFromConserved := temperature;
     getSoundSpeedFromConserved := fun ph uc => s_sqrt (g ph * pressure ph uc / e0 uc);
     getEnergyFromPrimitive2 := energy2;
     convertConservedToPrimitive := fun ph uc =>
       mkVec4 (e0 uc) (e1 uc / e0 uc) (e2 uc / e0 uc) (temperature ph uc);
     convertPrimitiveToConserved := fun ph up =>
       mkVec4 (e0 up) (e0 up * e1 up) (e0 up * e2 up) (energy2 ph up) |}.

(** Two unit squares side by side: cell 0 is [0,1]x[0,1], cell 1 is
    [1,2]x[0,1].  Faces 0-5 are the boundary, counter-clockwise from the
    bottom of cell 0; face 6 is the interior face, left cell 0, right
    cell 1.  Bottom and top carry marker 2, the right and left ends
    marker 4.  The right "cell" of boundary face f is the ghost slot
    2 + f. *)
Definition channel_mesh : UMesh2dh (T := T) := {|
  gnelem := 2;
  gnbface := 6;
  gnaface := 7;
  gnnode := fun _ => 4%nat;
  ginpoel := fun ielem inode =>
    nth inode (nth ielem [[0; 1; 4; 5]; [1; 2; 3; 4]] []) 0%nat;
  gcoords := fun ipoin idim =>
    nth idim (nth ipoin [[s_zero; s_zero]; [s_one; s_zero]; [s_two; s_zero];
                         [s_two; s_one]; [s_one; s_one]; [s_zero; s_one]] [])
        s_zero;
  gintfac := fun iface k =>
    nth k (nth iface [[0; 2; 0; 1]; [1; 3; 1; 2]; [1; 4; 2; 3]; [1; 5; 3; 4];
                      [0; 6; 4; 5]; [0; 7; 5; 0]; [0; 1; 1; 4]] []) 0%nat;
  ggallfa := fun iface k =>
    nth k (nth iface [[s_zero; - s_one; s_one]; [s_zero; - s_one; s_one];
                      [s_one; s_zero; s_one]; [s_zero; s_one; s_one];
                      [s_zero; s_one; s_one]; [- s_one; s_zero; s_one];
                      [s_one; s_zero; s_one]] []) s_zero;
  gmarker := fun iface => nth iface [2; 2; 4; 2; 2; 4]%Z 0%Z;
  garea := fun _ => s_one
|}.

(** One cell and no face at all. *)
Definition isolated_cell_mesh : UMesh2dh (T := T) := {|
  gnelem := 1;
  gnbface := 0;
  gnaface := 0;
  gnnode := fun _ => 4%nat;
  ginpoel := fun _ inode => inode;
  gcoords := fun ipoin idim =>
    nth idim (nth ipoin [[s_zero; s_zero]; [s_one; s_zero];
                         [s_one; s_one]; [s_zero; s_one]] []) s_zero;
  gintfac := fun _ _ => 0%nat;
  ggallfa := fun _ _ => s_zero;
  gmarker := fun _ => 0%Z;
  garea := fun _ => s_one
|}.

(** The unit square as one cell with its four boundary faces, counter-
    clockwise from the bottom; bottom and top carry marker 2, right and
    left marker 4. *)
Definition square_mesh : UMesh2dh (T := T) := {|
  gnelem := 1;
  gnbface := 4;
  gnaface := 4;
  gnnode := fun _ => 4%nat;
  ginpoel := fun _ inode => inode;
  gcoords := fun ipoin idim =>
    nth idim (nth ipoin [[s_zero; s_zero]; [s_one; s_zero];
                         [s_one; s_one]; [s_zero; s_one]] []) s_zero;
  gintfac := fun iface k =>
    nth k (nth iface [[0; 1; 0; 1]; [0; 2; 1; 2]; [0; 3; 2; 3]; [0; 4; 3; 0]] [])
        0%nat;
  ggallfa := fun iface k =>
    nth k (nth iface [[s_zero; - s_one; s_one]; [s_one; s_zero; s_one];
                      [s_zero; s_one; s_one]; [- s_one; s_zero; s_one]] []) s_zero;
  gmarker := fun iface => nth iface [2; 4; 2; 4]%Z 0%Z;
  garea := fun _ => s_one
|}.

(** The arithmetic mean of the two states as a numerical flux, with its
    Jacobians in the convention of [compute_jacobian]: [dfdl] is minus the
    derivative with respect to the left state, [dfdr] the derivative with
    respect to the right state. *)
Definition diag_block (a : T) : Block :=
  mkVec4 (mkVec4 a s_zero s_zero s_zero) (mkVec4 s_zero a s_zero s_zero)
         (mkVec4 s_zero s_zero a s_zero) (mkVec4 s_zero s_zero s_zero a).

Definition mean_flux : InviscidFlux (T := T) := {|
  get_flux := fun ul ur _ => vmap (fun x => s_half * x) (vmap2 s_add ul ur);
  get_jacobian := fun _ _ _ => (diag_block (- s_half), diag_block s_half)
|}.

(** As [mean_flux], with the right Jacobian replaced by [dfdr]. *)
Definition mean_flux_with (dfdr : Block) : InviscidFlux (T := T) := {|
  get_flux := get_flux mean_flux;
  get_jacobian := fun _ _ _ => (diag_block (- s_half), dfdr)
|}.

(** Schemes of a first-order run: they are stored and never called. *)
Definition no_reconstruction : Reconstruction (T := T) :=
  {| compute_gradients := fun _ _ dudx dudy => (dudx, dudy) |}.

Definition no_limiter : Limiter (T := T) :=
  {| compute_face_values := fun _ _ _ _ uleft uright => (uleft, uright) |}.

Definition zeros : MVector (T := T) := fun _ => vconst s_zero.

(** Modelled from the spec: [ZERO_TOL] is a macro of a header outside this
    file; the spec's unit round-off, 2^-52 for binary64, as a product of
    52 halves. *)
Definition unit_roundoff : T := for_loop 0 52 (fun _ x => x * s_half) s_one.

(** A first-order [FlowFV] object with adiabatic index 2 at free-stream
    Mach number 1 and zero angle of attack, so that [uinf] = (1, 1, 0, 1);
    the marker ids are the arguments.  The base object is the one that the
    [Spatial] constructor builds on the mesh. *)
Definition flow_on (mesh : UMesh2dh) (flux : InviscidFlux)
  (isothermal_marker adiabatic_marker slip_marker inflowoutflow_marker : Z)
  : FlowFV (T := T) := {|
  base := Spatial_new zeros unit_roundoff mesh;
  physics := {| g := s_two; Minf := s_one; Tinf := s_one; Reinf := s_one; Pr := s_one |};
  isothermal_wall_id := isothermal_marker;
  isothermalbaric_wall_id := (-1)%Z;
  adiabatic_wall_id := adiabatic_marker;
  slip_wall_id := slip_marker;
  inflow_outflow_id := inflowoutflow_marker;
  isothermal_wall_temperature := s_one;
  isothermal_wall_tangvel := s_zero;
  isothermalbaric_wall_temperature := s_one;
  isothermalbaric_wall_tangvel := s_zero;
  isothermalbaric_wall_pressure := s_one;
  adiabatic_wall_tangvel := s_zero;
  reconstructPrimitive := false;
  secondOrderRequested := false;
  inviflux := flux;
  jflux := flux;
  rec := no_reconstruction;
  lim := no_limiter;
  uinf := mkVec4 s_one s_one s_zero s_one
|}.

Definition channel_flow : FlowFV (T := T) := flow_on channel_mesh mean_flux 6 8 2 4.

Definition ones : MVector (T := T) := fun _ => vconst s_one.

(** Time-step arrays of zeros and of ones. *)
Definition zeros_dtm : nat -> T := fun _ => s_zero.

Definition ones_dtm : nat -> T := fun _ => s_one.

(** The free-stream state, and the array that holds it in every cell. *)
Definition uniform_stream_state : State (T := T) := mkVec4 s_one s_one s_zero s_one.

Definition uniform_stream : MVector (T := T) := fun _ => uniform_stream_state.

(** Unit density, no momentum and no energy in every cell. *)
Definition cold_gas_at_rest : MVector (T := T) :=
  fun _ => mkVec4 s_one s_zero s_zero s_zero.

(** A state moving up at unit speed: (rho, rho vx, rho vy, rho E) =
    (1, 0, 1, 2). *)
Definition rising_state : State (T := T) := mkVec4 s_one s_zero s_one s_two.

(** As [channel_flow], with marker 2 given both as the slip-wall and as
    the inflow-outflow marker. *)
Definition shared_marker_flow : FlowFV (T := T) :=
  flow_on channel_mesh mean_flux 6 8 2 2.

Definition isolated_cell_flow : FlowFV (T := T) :=
  flow_on isolated_cell_mesh mean_flux 6 8 2 4.

(** Two objects on the unit square that differ in the right Jacobian of
    the Jacobian flux only: the identity, and zero. *)
Definition square_flow_identity : FlowFV (T := T) :=
  flow_on square_mesh (mean_flux_with (diag_block s_one)) 6 8 2 4.

Definition square_flow_zero : FlowFV (T := T) :=
  flow_on square_mesh (mean_flux_with (diag_block s_zero)) 6 8 2 4.

(** The block - len * left for len = 1 and left = diag(-1/2). *)
Definition minus_len_left : Block (T := T) :=
  bmap (fun x => (- s_one) * x) (diag_block (- s_half)).

(** An operator of type 'd' that has received no call. *)
Definition fresh_operator : Recorder (T := T) :=
  {| rec_type := "d"; rec_calls := [] |}.





End Channel.

(** The object that the constructor builds on the channel for adiabatic
    index 2, free-stream Mach number 1 and zero angle of attack, in exact
    arithmetic, with [ZERO_TOL] = 2^-52. *)
Definition constructed_flow : @FlowFV R :=
  FlowFV_new zeros (/ 2 ^ 52)%R channel_mesh 2%R 1%R 1%R 1%R 1%R 0%R
    6 (-1) 8 2 4 1%R 0%R 1%R 0%R 1%R 0%R
    mean_flux mean_flux "NONE" no_reconstruction no_limiter false.

(** The binary64 value of a small natural number. *)
Definition fl (n : nat) : PrimFloat.float := s_of_nat n.

(** As [channel_flow], with the two ends (marker 4) as adiabatic walls and
    no inflow-outflow face. *)
Definition adiabatic_ends_flow : @FlowFV R := flow_on channel_mesh mean_flux 6 4 2 8.

(** As [channel_flow], with no boundary condition given for the two ends:
    marker 4 is none of the markers of the object. *)
Definition unmarked_ends_flow : @FlowFV R := flow_on channel_mesh mean_flux 6 8 2 10.

(** The unit square with marker -1 on its four faces. *)
Definition farfield_square_mesh : @UMesh2dh R := {|
  gnelem := gnelem (@square_mesh R _);
  gnbface := gnbface (@square_mesh R _);
  gnaface := gnaface (@square_mesh R _);
  gnnode := gnnode (@square_mesh R _);
  ginpoel := ginpoel (@square_mesh R _);
  gcoords := gcoords (@square_mesh R _);
  gintfac := gintfac (@square_mesh R _);
  ggallfa := ggallfa (@square_mesh R _);
  gmarker := fun _ => (-1)%Z;
  garea := garea (@square_mesh R _)
|}.

Definition farfield_square_flow : @FlowFV R :=
  flow_on farfield_square_mesh mean_flux 6 8 2 4.

(** The right triangle with vertices (0,0), (4,0) and (0,3) as one cell:
    face 0 is the bottom, face 1 the hypotenuse, of length 5 and unit
    normal (3/5, 4/5), face 2 the left side. *)
Definition right_triangle_mesh : @UMesh2dh R := {|
  gnelem := 1;
  gnbface := 3;
  gnaface := 3;
  gnnode := fun _ => 3%nat;
  ginpoel := fun _ inode => inode;
  gcoords := fun ipoin idim =>
    nth idim (nth ipoin [[0; 0]; [4; 0]; [0; 3]]%R []) 0%R;
  gintfac := fun iface k =>
    nth k (nth iface [[0; 1; 0; 1]; [0; 2; 1; 2]; [0; 3; 2; 0]] []) 0%nat;
  ggallfa := fun iface k =>
    nth k (nth iface [[0; -1; 4]; [3 / 5; 4 / 5; 5]; [-1; 0; 3]]%R []) 0%R;
  gmarker := fun _ => 2%Z;
  garea := fun _ => 6%R
|}.

(** The centroid (4/3, 1) of the right triangle, as the array of cell
    centres. *)
Definition right_triangle_centre : nat -> nat -> R :=
  fun _ idim => nth idim [4 / 3; 1]%R 0%R.

(** Modelled from the spec: [getEntropyFromConserved] is defined outside
    this file; the entropy is p / rho^gamma, written here for the
    adiabatic index 2 of [flow_on]. *)
Definition ideal_gas_entropy : @EntropyOps R := {|
  getEntropyFromConserved := fun ph uc =>
    (getPressureFromConserved (PhysicsOps := ideal_gas) ph uc / (e0 uc * e0 uc))%R
|}.

(** The faces of the two cells of the channel, as [gnfael] and [gelemface]
    give them. *)
Definition channel_gnfael : nat -> nat := fun _ => 4.

Definition channel_gelemface : nat -> nat -> nat :=
  fun iel ifael => nth ifael (nth iel [[0; 6; 4; 5]; [1; 2; 3; 6]] []) 0.

(** Scalar diffusion on the channel: diffusivity 1, boundary value 3, no
    source, and a reconstruction that leaves the gradient arrays as they
    are. *)
Definition channel_diffusion : @DiffusionMA R := {|
  diff := Diffusion_new zeros channel_gnfael channel_gelemface (/ 2 ^ 52)%R
            channel_mesh 1%R 3%R (fun _ _ _ => 0%R);
  drec := {| compute_scalar_gradients := fun _ _ dudx dudy => (dudx, dudy) |}
|}.

(** ** Quantities the properties are stated with *)

Section Quantities.

Context {T : Type} {ST : Scalar T} {PO : @PhysicsOps T}.
Variable uninit : nat -> @State T.
Local Open Scope scalar_scope.

(** What one pass of the [idim] loop body of the [Spatial] constructor
    (lines 27-30) stores. *)
Definition centre_step (mesh : UMesh2dh) (ielem idim : nat) (rc : nat -> nat -> T)
  : nat -> nat -> T :=
  let rc := upd2 rc ielem idim s_zero in
  let rc := for_loop 0 (gnnode mesh ielem) (fun inode rc =>
              upd2 rc ielem idim
                (rc ielem idim + gcoords mesh (ginpoel mesh ielem inode) idim)) rc in
  upd2 rc ielem idim (rc ielem idim / s_of_nat (gnnode mesh ielem)).

(** The per-cell integral of the largest wave speed that
    [compute_residual] holds in [integ] when the face loop is over. *)
Definition wave_integral (fv : FlowFV) (u residual : MVector) : nat -> T :=
  let mesh := m (base fv) in
  let integ := for_loop 0 (gnelem mesh) (fun iel integ => upd integ iel s_zero)
                 (uninit1 uninit) in
  let '(uleft, uright) := face_states uninit fv u in
  snd (for_loop 0 (gnaface mesh) (face_step fv uleft uright) (residual, integ)).

(** The number whose square root the face loop of [compute_residual]
    takes as the sound speed of a face state, lines 598-604. *)
Definition sound_speed_radicand (fv : FlowFV) (s : State) : T :=
  g (physics fv)
  * ((g (physics fv) - s_one)
     * (e3 s - s_half * (s_sqr (e1 s) + s_sqr (e2 s)) / e0 s))
  / e0 s.



(** The calls that one iteration of the boundary-face loop, and of the
    interior-face loop, of [compute_jacobian] makes on an operator of type
    [ty]. *)
Definition boundary_face_calls (fv : FlowFV) (u : MVector) (ty : ascii)
  (iface : nat) : list OpCall :=
  rec_calls (jacobian_boundary_face uninit fv u iface
               {| rec_type := ty; rec_calls := [] |}).

Definition interior_face_calls (fv : FlowFV) (u : MVector) (ty : ascii)
  (iface : nat) : list OpCall :=
  rec_calls (jacobian_interior_face fv u iface
               {| rec_type := ty; rec_calls := [] |}).

(** Whether a recorded call submits an off-diagonal block. *)
Definition is_submit (c : @OpCall T) : bool :=
  match c with
  | SubmitBlock _ _ _ _ _ => true
  | UpdateDiagBlock _ _ _ => false
  end.

(** The sum of column [ivar] over the rows [0 .. n-1]. *)
Definition sum_column (n : nat) (a : nat -> nat -> T) (ivar : nat) : T :=
  for_loop 0 n (fun i s => s + a i ivar) s_zero.

(** The [nvars * nvars] entries, row by row, of [a] times the identity. *)
Definition diagonal_block (nvars : nat) (a : T) : list T :=
  map (fun q => if q / nvars =? q mod nvars then a else s_zero)
      (seq 0 (nvars * nvars)).

End Quantities.

(** * Properties *)

(** ** Loops and array updates *)

Lemma for_loop_empty {S : Type} (lo hi : nat) (body : nat -> S -> S) (s : S) :
  hi <= lo -> for_loop lo hi body s = s.
Proof.
  intros Hle. unfold for_loop.
  replace (hi - lo) with 0 by lia. reflexivity.
Qed.

Lemma for_loop_last {S : Type} (lo hi : nat) (body : nat -> S -> S) (s : S) :
  lo <= hi -> for_loop lo (Datatypes.S hi) body s = body hi (for_loop lo hi body s).
Proof.
  intros Hle. unfold for_loop.
  replace (Datatypes.S hi - lo) with (Datatypes.S (hi - lo)) by lia.
  rewrite seq_S, fold_left_app. simpl.
  replace (lo + (hi - lo)) with hi by lia. reflexivity.
Qed.

(** Loop invariants: [P i s] holds of the state before iteration [i]. *)
Lemma for_loop_invariant {S : Type} (P : nat -> S -> Prop)
  (lo hi : nat) (body : nat -> S -> S) (s : S) :
  lo <= hi ->
  P lo s ->
  (forall i s', lo <= i < hi -> P i s' -> P (Datatypes.S i) (body i s')) ->
  P hi (for_loop lo hi body s).
Proof.
  intros Hle Hinit Hstep.
  induction hi as [|hi IH].
  - assert (lo = 0) by lia; subst. exact Hinit.
  - destruct (Nat.eq_dec lo (Datatypes.S hi)) as [->|Hne].
    + rewrite for_loop_empty by lia. exact Hinit.
    + rewrite for_loop_last by lia.
      apply Hstep; [lia|].
      apply IH; [lia|].
      intros i s' Hi. apply Hstep. lia.
Qed.

Lemma upd_same {X : Type} (a : nat -> X) (i : nat) (x : X) : upd a i x i = x.
Proof. unfold upd. now rewrite Nat.eqb_refl. Qed.

Lemma upd_other {X : Type} (a : nat -> X) (i j : nat) (x : X) :
  j <> i -> upd a i x j = a j.
Proof. intros Hne. unfold upd. apply Nat.eqb_neq in Hne. now rewrite Hne. Qed.

Lemma upd2_same {X : Type} (a : nat -> nat -> X) (i j : nat) (x : X) :
  upd2 a i j x i j = x.
Proof. unfold upd2. now rewrite !Nat.eqb_refl. Qed.

Lemma upd2_other {X : Type} (a : nat -> nat -> X) (i j i' j' : nat) (x : X) :
  i' <> i \/ j' <> j -> upd2 a i j x i' j' = a i' j'.
Proof.
  intros Hne. unfold upd2.
  destruct (Nat.eqb_spec i' i), (Nat.eqb_spec j' j); simpl; try reflexivity.
  destruct Hne; contradiction.
Qed.

(** A loop that stores into entry [i] at iteration [i] a value that does
    not depend on the array. *)
Lemma for_loop_fill {X : Type} (f : nat -> X) (n : nat) (a : nat -> X) (i : nat) :
  for_loop 0 n (fun k a => upd a k (f k)) a i = if i <? n then f i else a i.
Proof.
  induction n as [|n IH].
  - reflexivity.
  - rewrite for_loop_last by lia.
    destruct (Nat.eq_dec i n) as [->|Hne].
    + rewrite upd_same.
      destruct (Nat.ltb_spec n (Datatypes.S n)); [reflexivity|lia].
    + rewrite upd_other by assumption. rewrite IH.
      destruct (Nat.ltb_spec i n), (Nat.ltb_spec i (Datatypes.S n));
        try reflexivity; lia.
Qed.

Lemma vec4_ext {A : Type} (v w : Vec4 A) :
  e0 v = e0 w -> e1 v = e1 w -> e2 v = e2 w -> e3 v = e3 w -> v = w.
Proof. destruct v, w; simpl; intros; subst; reflexivity. Qed.

(** ** The free-stream state and the initial condition *)

Section FreeStream.

Local Open Scope R_scope.

Variable uninit : nat -> @State R.
Context {PO : @PhysicsOps R}.

(** C8: the constructor stores
    uinf = (1, cos a, sin a, 1/((g-1) g Minf^2) + 1/2), and
    [initializeUnknowns] with [fromfile = false] sets the state of every
    cell to that [uinf]. *)
Theorem freestream_state_and_initial_condition
  (ZERO_TOL : R) (mesh : UMesh2dh) (g Minf Tinf Reinf Pr a : R)
  (isothermal_marker isothermalbaric_marker adiabatic_marker
   slip_marker inflowoutflow_marker : Z)
  (isothermal_Temperature isothermal_TangVel isothermalbaric_Temperature
   isothermalbaric_TangVel isothermalbaric_Pressure adiabatic_TangVel : R)
  (invflux_obj jacflux_obj : InviscidFlux) (reconst : string)
  (rec_obj : Reconstruction) (lim_obj : Limiter) (reconstructPrim : bool) :
  let fv := FlowFV_new uninit ZERO_TOL mesh g Minf Tinf Reinf Pr a
              isothermal_marker isothermalbaric_marker adiabatic_marker
              slip_marker inflowoutflow_marker
              isothermal_Temperature isothermal_TangVel
              isothermalbaric_Temperature isothermalbaric_TangVel
              isothermalbaric_Pressure adiabatic_TangVel
              invflux_obj jacflux_obj reconst rec_obj lim_obj reconstructPrim in
  uinf fv = mkVec4 1 (cos a) (sin a) (1 / ((g - 1) * g * Minf ^ 2) + 1 / 2)
  /\ forall (file : string) (u : MVector) (i : nat),
       (i < gnelem mesh)%nat ->
       initializeUnknowns fv false file u i = uinf fv.
Proof.
  intros fv. split.
  - unfold fv, FlowFV_new, farfield_state.
    apply vec4_ext; cbn; try reflexivity.
    assert (E : forall x y : R, x = y -> 1 / x + 1 / 2 = 1 / y + 1 / 2)
      by (intros x y ->; reflexivity).
    apply E. ring.
  - intros file u i Hi.
    unfold initializeUnknowns.
    change (gnelem (m (base fv))) with (gnelem mesh).
    rewrite for_loop_fill.
    destruct (Nat.ltb_spec i (gnelem mesh)); [reflexivity|lia].
Qed.

End FreeStream.

(** ** Time steps *)

Section TimeSteps.

Context {T : Type} {ST : Scalar T} {PO : @PhysicsOps T}.
Variable uninit : nat -> @State T.

(** C10: with [gettimesteps = false], [compute_residual] returns [dtm] as
    it received it, whatever the state [u] and the residual. *)
Theorem compute_residual_without_timesteps_keeps_dtm
  (fv : FlowFV) (u residual : MVector) (dtm : nat -> T) :
  snd (compute_residual uninit fv u residual false dtm) = dtm.
Proof.
  unfold compute_residual.
  destruct (face_states uninit fv u) as [uleft uright].
  destruct (for_loop 0 (gnaface (m (base fv))) (face_step fv uleft uright) _)
    as [residual' integ].
  reflexivity.
Qed.

End TimeSteps.

(** ** Cell centres and ghost-cell centres *)

Section Centres.

Context {T : Type} {ST : Scalar T}.
Variable uninit : nat -> @State T.
Variable mesh : @UMesh2dh T.

(** Accumulating into one entry of a table. *)
Lemma accumulate_entry (c : nat -> T) (ielem idim n : nat) (rc0 : nat -> nat -> T) :
  let rcn := for_loop 0 n
               (fun inode rc => upd2 rc ielem idim (s_add (rc ielem idim) (c inode))) rc0 in
  rcn ielem idim = for_loop 0 n (fun inode s => s_add s (c inode)) (rc0 ielem idim)
  /\ forall i j, i <> ielem \/ j <> idim -> rcn i j = rc0 i j.
Proof.
  induction n as [|n [IHv IHo]]; simpl.
  - split; reflexivity.
  - rewrite !for_loop_last by lia. split.
    + rewrite upd2_same. now rewrite IHv.
    + intros i j Hne. rewrite upd2_other by assumption. now apply IHo.
Qed.

Lemma centre_step_entry (ielem idim : nat) (rc : nat -> nat -> T) :
  centre_step mesh ielem idim rc ielem idim
  = s_div (node_sum mesh ielem idim) (s_of_nat (gnnode mesh ielem)).
Proof.
  unfold centre_step. rewrite upd2_same.
  destruct (accumulate_entry
              (fun inode => gcoords mesh (ginpoel mesh ielem inode) idim)
              ielem idim (gnnode mesh ielem) (upd2 rc ielem idim s_zero)) as [Hv _].
  simpl in Hv. rewrite Hv, upd2_same. reflexivity.
Qed.

Lemma centre_step_other (ielem idim i j : nat) (rc : nat -> nat -> T) :
  i <> ielem \/ j <> idim -> centre_step mesh ielem idim rc i j = rc i j.
Proof.
  intros Hne. unfold centre_step. rewrite upd2_other by assumption.
  destruct (accumulate_entry
              (fun inode => gcoords mesh (ginpoel mesh ielem inode) idim)
              ielem idim (gnnode mesh ielem) (upd2 rc ielem idim s_zero)) as [_ Ho].
  simpl in Ho. rewrite Ho by assumption. now rewrite upd2_other.
Qed.

(** The constructor stores the centroid of every cell. *)
Lemma cell_centres_are_centroids (rc0 : nat -> nat -> T) (ielem idim : nat) :
  ielem < gnelem mesh -> idim < NDIM ->
  compute_cell_centres mesh rc0 ielem idim
  = s_div (node_sum mesh ielem idim) (s_of_nat (gnnode mesh ielem)).
Proof.
  intros Hi Hd. unfold compute_cell_centres.
  revert ielem idim Hi Hd.
  apply (for_loop_invariant
           (fun k rc => forall ielem idim, ielem < k -> idim < NDIM ->
              rc ielem idim
              = s_div (node_sum mesh ielem idim) (s_of_nat (gnnode mesh ielem)))).
  - lia.
  - intros ielem idim Hi; lia.
  - intros k rc _ IH ielem idim Hi Hd.
    change (centre_step mesh k 1 (centre_step mesh k 0 rc) ielem idim
            = s_div (node_sum mesh ielem idim) (s_of_nat (gnnode mesh ielem))).
    destruct (Nat.eq_dec ielem k) as [->|Hne].
    + unfold NDIM in Hd.
      destruct idim as [|[|idim]]; [| |lia].
      * rewrite centre_step_other by (right; lia). apply centre_step_entry.
      * apply centre_step_entry.
    + rewrite !centre_step_other by (left; assumption).
      apply IH; [lia|assumption].
Qed.

(** What the ghost-centre loop stores for every boundary face. *)
Lemma ghost_centres_about_midpoint (rc rcg0 : nat -> nat -> T) (iface idim : nat) :
  iface < gnbface mesh -> idim < NDIM ->
  compute_ghost_cell_coords_about_midpoint uninit mesh rc rcg0 iface idim
  = s_sub (s_mul s_two
             (s_mul s_half (s_add (gcoords mesh (gintfac mesh iface 2) idim)
                                  (gcoords mesh (gintfac mesh iface 3) idim))))
          (rc (gintfac mesh iface 0) idim).
Proof.
  intros Hi Hd. unfold compute_ghost_cell_coords_about_midpoint.
  revert iface idim Hi Hd.
  apply (for_loop_invariant
           (fun k rcg => forall iface idim, iface < k -> idim < NDIM ->
              rcg iface idim
              = s_sub (s_mul s_two
                         (s_mul s_half (s_add (gcoords mesh (gintfac mesh iface 2) idim)
                                              (gcoords mesh (gintfac mesh iface 3) idim))))
                      (rc (gintfac mesh iface 0) idim))).
  - lia.
  - intros iface idim Hi; lia.
  - intros k rcg _ IH iface idim Hi Hd.
    unfold NDIM, for_loop; simpl.
    destruct (Nat.eq_dec iface k) as [->|Hne].
    + unfold NDIM in Hd.
      destruct idim as [|[|idim]]; [| |lia].
      * rewrite upd2_other by (right; lia). rewrite upd2_same. reflexivity.
      * rewrite upd2_same. reflexivity.
    + rewrite !upd2_other by (left; assumption).
      apply IH; [lia|assumption].
Qed.

End Centres.

Section GhostSymmetry.

Local Open Scope R_scope.

(** C7: under the midpoint policy, for every boundary face the ghost-cell
    centre and the centre of the interior cell add up, in each coordinate,
    to twice the midpoint of the face, the midpoint being the mean of the
    two end nodes; and the centre of the interior cell is its centroid. *)
Theorem ghost_centre_symmetric_about_midpoint
  (uninit : nat -> @State R) (ZERO_TOL : R) (mesh : @UMesh2dh R) (iface idim : nat) :
  (iface < gnbface mesh)%nat -> (idim < NDIM)%nat ->
  let sp := Spatial_new uninit ZERO_TOL mesh in
  let ielem := gintfac mesh iface 0 in
  let ip1 := gintfac mesh iface 2 in
  let ip2 := gintfac mesh iface 3 in
  rcg sp iface idim + rc sp ielem idim
  = 2 * ((gcoords mesh ip1 idim + gcoords mesh ip2 idim) / 2)
  /\ ((ielem < gnelem mesh)%nat ->
      rc sp ielem idim = node_sum mesh ielem idim / INR (gnnode mesh ielem)).
Proof.
  intros Hi Hd sp ielem ip1 ip2. split.
  - unfold sp, Spatial_new; cbn [rcg rc].
    rewrite ghost_centres_about_midpoint by assumption.
    cbn. fold ip1 ip2 ielem. lra.
  - intros He. unfold sp, Spatial_new; cbn [rc].
    rewrite cell_centres_are_centroids by assumption.
    reflexivity.
Qed.

End GhostSymmetry.

(** ** The local time step *)

Section LocalTimeStep.

Context {T : Type} {ST : Scalar T} {PO : @PhysicsOps T}.
Variable uninit : nat -> @State T.

(** A face changes the wave-speed integral of its two cells only. *)
Lemma face_step_integ_other (fv : FlowFV) (uleft uright : MVector) (ied iel : nat)
  (st : MVector * (nat -> T)) :
  gintfac (m (base fv)) ied 0 <> iel ->
  gintfac (m (base fv)) ied 1 <> iel ->
  snd (face_step fv uleft uright ied st) iel = snd st iel.
Proof.
  intros HL HR. destruct st as [residual integ].
  unfold face_step. cbn [snd].
  destruct (gintfac (m (base fv)) ied 1 <? gnelem (m (base fv)));
    rewrite ?upd_other by congruence; reflexivity.
Qed.

(** C6, as amended: the time step of a cell is the plain quotient of its
    area by its wave-speed integral, with no test of the divisor; for a
    cell that no face touches the divisor is the 0.0 the integral was
    initialised with. *)
Theorem timestep_is_unguarded_quotient
  (fv : FlowFV) (u residual : MVector) (dtm : nat -> T) (iel : nat) :
  iel < gnelem (m (base fv)) ->
  snd (compute_residual uninit fv u residual true dtm) iel
  = s_div (garea (m (base fv)) iel) (wave_integral uninit fv u residual iel)
  /\ ((forall ied, ied < gnaface (m (base fv)) ->
         gintfac (m (base fv)) ied 0 <> iel /\ gintfac (m (base fv)) ied 1 <> iel) ->
      snd (compute_residual uninit fv u residual true dtm) iel
      = s_div (garea (m (base fv)) iel) s_zero).
Proof.
  intros Hiel.
  assert (Hq : snd (compute_residual uninit fv u residual true dtm) iel
               = s_div (garea (m (base fv)) iel)
                       (wave_integral uninit fv u residual iel)).
  { unfold compute_residual, wave_integral.
    destruct (face_states uninit fv u) as [uleft uright].
    destruct (for_loop 0 (gnaface (m (base fv))) (face_step fv uleft uright) _)
      as [residual' integ].
    cbn [snd]. rewrite for_loop_fill.
    destruct (Nat.ltb_spec iel (gnelem (m (base fv)))); [reflexivity|lia]. }
  split; [exact Hq|].
  intros Hisolated. rewrite Hq. f_equal.
  unfold wave_integral.
  destruct (face_states uninit fv u) as [uleft uright].
  apply (for_loop_invariant (fun _ st => snd st iel = s_zero)).
  - lia.
  - cbn [snd]. rewrite for_loop_fill.
    destruct (Nat.ltb_spec iel (gnelem (m (base fv)))); [reflexivity|lia].
  - intros ied st Hied Hst.
    destruct (Hisolated ied) as [HL HR]; [lia|].
    rewrite face_step_integ_other by assumption. exact Hst.
Qed.

End LocalTimeStep.

(** ** The residual accumulates *)

Section Accumulation.

Local Open Scope R_scope.

Context {PO : @PhysicsOps R}.
Variable uninit : nat -> @State R.

Lemma face_step_additive (fv : @FlowFV R) (uleft uright residual : MVector) (ied : nat)
  (st st0 : MVector * (nat -> R)) :
  (forall i, fst st i = vmap2 Rplus (residual i) (fst st0 i)) ->
  (forall i, snd st i = snd st0 i) ->
  (forall i, fst (face_step fv uleft uright ied st) i
             = vmap2 Rplus (residual i) (fst (face_step fv uleft uright ied st0) i))
  /\ (forall i, snd (face_step fv uleft uright ied st) i
                = snd (face_step fv uleft uright ied st0) i).
Proof.
  destruct st as [r w], st0 as [r0 w0]. cbn [fst snd]. intros Hr Hw.
  unfold face_step. cbn [fst snd].
  set (F := face_flux fv uleft uright ied).
  set (L := gintfac (m (base fv)) ied 0).
  set (K := gintfac (m (base fv)) ied 1).
  clearbody F L K.
  destruct (K <? gnelem (m (base fv))); split; intros i; unfold upd;
    repeat match goal with
           | |- context [Nat.eqb ?a ?b] => destruct (Nat.eqb_spec a b); subst
           end;
    rewrite ?Hr, ?Hw; try reflexivity; try contradiction;
    apply vec4_ext; cbn; lra.
Qed.

Lemma face_loop_additive (fv : @FlowFV R) (uleft uright residual : MVector)
  (integ : nat -> R) (n : nat) :
  let s := for_loop 0 n (face_step fv uleft uright) (residual, integ) in
  let s0 := for_loop 0 n (face_step fv uleft uright) (zeros, integ) in
  (forall i, fst s i = vmap2 Rplus (residual i) (fst s0 i))
  /\ (forall i, snd s i = snd s0 i).
Proof.
  induction n as [|n IH]; cbn zeta.
  - split; intros i; cbn; [|reflexivity].
    apply vec4_ext; cbn; lra.
  - rewrite !for_loop_last by lia. cbn zeta in IH.
    destruct IH as [IHr IHw]. now apply face_step_additive.
Qed.

(** The residual that [compute_residual] returns, against the one it
    returns for a residual array of zeros. *)
Lemma residual_adds_to_prior
  (fv : @FlowFV R) (u residual : @MVector R) (gettimesteps : bool) (dtm : nat -> R)
  (i : nat) :
  fst (compute_residual uninit fv u residual gettimesteps dtm) i
  = vmap2 Rplus (residual i)
      (fst (compute_residual uninit fv u zeros gettimesteps dtm) i).
Proof.
  unfold compute_residual.
  destruct (face_states uninit fv u) as [uleft uright].
  destruct (face_loop_additive fv uleft uright residual
              (for_loop 0 (gnelem (m (base fv)))
                 (fun iel integ => upd integ iel s_zero) (uninit1 uninit))
              (gnaface (m (base fv)))) as [Hr _].
  cbn zeta in Hr.
  destruct (for_loop 0 (gnaface (m (base fv))) (face_step fv uleft uright) (residual, _))
    as [r w].
  destruct (for_loop 0 (gnaface (m (base fv))) (face_step fv uleft uright) (zeros, _))
    as [r0 w0].
  apply Hr.
Qed.

(** C5, as amended: [compute_residual] zeroes the wave-speed integral but
    not the residual array; it adds the face contributions to what the
    array held on entry.  So the output residual is the prior contents
    plus the output for an array of zeros, and the time steps do not depend
    on the prior contents. *)
Theorem compute_residual_adds_to_prior_contents
  (fv : @FlowFV R) (u residual : @MVector R) (gettimesteps : bool) (dtm : nat -> R)
  (i : nat) :
  fst (compute_residual uninit fv u residual gettimesteps dtm) i
  = vmap2 Rplus (residual i)
      (fst (compute_residual uninit fv u zeros gettimesteps dtm) i)
  /\ snd (compute_residual uninit fv u residual gettimesteps dtm) i
     = snd (compute_residual uninit fv u zeros gettimesteps dtm) i.
Proof.
  split; [apply residual_adds_to_prior|].
  unfold compute_residual.
  destruct (face_states uninit fv u) as [uleft uright].
  destruct (face_loop_additive fv uleft uright residual
              (for_loop 0 (gnelem (m (base fv)))
                 (fun iel integ => upd integ iel s_zero) (uninit1 uninit))
              (gnaface (m (base fv)))) as [_ Hw].
  cbn zeta in Hw.
  destruct (for_loop 0 (gnaface (m (base fv))) (face_step fv uleft uright) (residual, _))
    as [r w].
  destruct (for_loop 0 (gnaface (m (base fv))) (face_step fv uleft uright) (zeros, _))
    as [r0 w0].
  cbn [fst snd] in *.
  destruct gettimesteps; [|reflexivity].
  rewrite !for_loop_fill, Hw. reflexivity.
Qed.

End Accumulation.

(** ** Conservation *)


Section Conservation.

Local Open Scope R_scope.

Context {PO : @PhysicsOps R}.
Variable uninit : nat -> @State R.







End Conservation.

(** ** The slip-wall ghost state *)

Section SlipWall.

Local Open Scope R_scope.

Context {PO : @PhysicsOps R}.

(** C4, as amended: on a boundary face whose marker is the slip-wall marker
    and is none of the isothermal-wall, adiabatic-wall, inflow-outflow and
    characteristic (-1) markers, for an interior state with positive
    density the ghost state keeps density and total energy and mirrors the
    normal momentum: (rho, rho v - 2 (rho v . n) n, rho E). *)
Theorem slip_wall_ghost_state (fv : @FlowFV R) (ied : nat) (ins bs : @State R) :
  let mesh := m (base fv) in
  let nx := ggallfa mesh ied 0 in
  let ny := ggallfa mesh ied 1 in
  let rvn := e1 ins * nx + e2 ins * ny in
  gmarker mesh ied = slip_wall_id fv ->
  gmarker mesh ied <> isothermal_wall_id fv ->
  gmarker mesh ied <> adiabatic_wall_id fv ->
  gmarker mesh ied <> inflow_outflow_id fv ->
  gmarker mesh ied <> (-1)%Z ->
  0 < e0 ins ->
  compute_boundary_state fv ied ins bs
  = mkVec4 (e0 ins) (e1 ins - 2 * rvn * nx) (e2 ins - 2 * rvn * ny) (e3 ins).
Proof.
  intros mesh nx ny rvn Hslip Hiso Hadia Hio Hchar Hrho.
  unfold compute_boundary_state. fold mesh.
  apply Z.eqb_eq in Hslip. apply Z.eqb_neq in Hiso, Hadia, Hio, Hchar.
  rewrite Hslip, Hiso, Hadia, Hio, Hchar.
  fold nx ny. unfold rvn.
  apply vec4_ext; cbn; try reflexivity; field; lra.
Qed.

End SlipWall.

(** ** Jacobian assembly *)

Section RecordedCalls.

Context {T : Type} {ST : Scalar T} {PO : @PhysicsOps T}.
Variable uninit : nat -> @State T.

(** A loop whose iterations only append calls. *)
Lemma fold_appends_calls (step : nat -> Recorder -> Recorder)
  (calls : ascii -> nat -> list (@OpCall T)) :
  (forall i op, rec_type (step i op) = rec_type op
                /\ rec_calls (step i op) = rec_calls op ++ calls (rec_type op) i) ->
  forall (l : list nat) (op : Recorder),
    rec_type (fold_left (fun s i => step i s) l op) = rec_type op
    /\ rec_calls (fold_left (fun s i => step i s) l op)
       = rec_calls op ++ flat_map (calls (rec_type op)) l.
Proof.
  intros Hstep l. induction l as [|i l IH]; intros op; simpl.
  - now rewrite app_nil_r.
  - destruct (Hstep i op) as [Hty Hcalls].
    destruct (IH (step i op)) as [IHty IHcalls].
    rewrite IHty, IHcalls, Hty, Hcalls, <- app_assoc. auto.
Qed.

Lemma jacobian_boundary_face_appends (fv : FlowFV) (u : MVector) (iface : nat)
  (op : Recorder) :
  rec_type (jacobian_boundary_face uninit fv u iface op) = rec_type op
  /\ rec_calls (jacobian_boundary_face uninit fv u iface op)
     = rec_calls op ++ boundary_face_calls uninit fv u (rec_type op) iface.
Proof.
  unfold boundary_face_calls, jacobian_boundary_face.
  destruct (get_jacobian (jflux fv) _ _ _) as [left_ right_].
  split; reflexivity.
Qed.

Lemma jacobian_interior_face_appends (fv : FlowFV) (u : MVector) (iface : nat)
  (op : Recorder) :
  rec_type (jacobian_interior_face fv u iface op) = rec_type op
  /\ rec_calls (jacobian_interior_face fv u iface op)
     = rec_calls op ++ interior_face_calls fv u (rec_type op) iface.
Proof.
  unfold interior_face_calls, jacobian_interior_face.
  destruct (get_jacobian (jflux fv) _ _ _) as [L U].
  cbn [type Recorder_LinearOperator rec_type].
  destruct (Ascii.eqb (rec_type op) "d"); cbn;
    split; try reflexivity; rewrite <- !app_assoc; reflexivity.
Qed.

(** The calls of [compute_jacobian]: one group for each boundary face, in
    the order of the faces, then one group for each interior face. *)
Lemma compute_jacobian_calls (fv : FlowFV) (u : MVector) (op : Recorder) :
  rec_calls (compute_jacobian uninit fv u op)
  = rec_calls op
    ++ flat_map (boundary_face_calls uninit fv u (rec_type op))
                (seq 0 (gnbface (m (base fv))))
    ++ flat_map (interior_face_calls fv u (rec_type op))
                (seq (gnbface (m (base fv)))
                     (gnaface (m (base fv)) - gnbface (m (base fv)))).
Proof.
  unfold compute_jacobian, for_loop.
  destruct (fold_appends_calls (jacobian_boundary_face uninit fv u)
              (boundary_face_calls uninit fv u)
              (jacobian_boundary_face_appends fv u)
              (seq 0 (gnbface (m (base fv)) - 0)) op) as [Hty Hcalls].
  destruct (fold_appends_calls (jacobian_interior_face fv u)
              (interior_face_calls fv u)
              (jacobian_interior_face_appends fv u)
              (seq (gnbface (m (base fv)))
                   (gnaface (m (base fv)) - gnbface (m (base fv))))
              (fold_left (fun s i => jacobian_boundary_face uninit fv u i s)
                         (seq 0 (gnbface (m (base fv)) - 0)) op)) as [_ Hcalls'].
  rewrite Hcalls', Hcalls, Hty, Nat.sub_0_r, <- app_assoc. reflexivity.
Qed.

(** The group of a face inside the calls made over a range of faces. *)
Lemma flat_map_seq_split {X : Type} (f : nat -> list X) (lo n i : nat) :
  lo <= i < lo + n ->
  exists before after, flat_map f (seq lo n) = before ++ f i ++ after.
Proof.
  intros Hi.
  assert (Hin : In i (seq lo n)) by (apply in_seq; lia).
  destruct (in_split _ _ Hin) as (l1 & l2 & Hsplit).
  exists (flat_map f l1), (flat_map f l2).
  rewrite Hsplit, flat_map_app. reflexivity.
Qed.

End RecordedCalls.

Ltac block_ring :=
  apply vec4_ext; apply vec4_ext; unfold bmap, vmap;
  cbn [e0 e1 e2 e3 s_add s_sub s_mul s_opp s_one s_zero Scalar_R]; ring.

Section JacobianBlocks.

Local Open Scope R_scope.

Context {PO : @PhysicsOps R}.
Variable uninit : nat -> @State R.
Variable fv : @FlowFV R.

(** The derivatives of the Jacobian flux with respect to the left and the
    right state.  The documentation of [compute_jacobian] (lines 745-751)
    fixes what [get_jacobian] returns: minus the derivative with respect
    to the left state, and the derivative with respect to the right
    state. *)
Variables dF_dul dF_dur : @State R -> @State R -> Vec2 R -> @Block R.

Hypothesis jflux_convention : forall ul ur n,
  get_jacobian (jflux fv) ul ur n = (bmap Ropp (dF_dul ul ur n), dF_dur ul ur n).

(** C2: for an interior face between cells L and R the assembly submits
    A[L,R] = + len dF/du_R and A[R,L] = - len dF/du_L, then adds to the
    diagonal blocks of L and of R the negatives of A[R,L] and of A[L,R];
    for an operator of type 'd' the lower block goes with tag 1 and the
    upper block with tag 2, each with the interior-face index, and
    otherwise both extra arguments are NVARS. *)
Theorem interior_face_blocks (u : @MVector R) (op : @Recorder R) (iface : nat) :
  let mesh := m (base fv) in
  let lelem := gintfac mesh iface 0 in
  let relem := gintfac mesh iface 1 in
  let n := mkVec2 (ggallfa mesh iface 0) (ggallfa mesh iface 1) in
  let len := ggallfa mesh iface 2 in
  let A_LR := bmap (Rmult len) (dF_dur (u lelem) (u relem) n) in
  let A_RL := bmap (fun x => - (len * x)) (dF_dul (u lelem) (u relem) n) in
  let isd := Ascii.eqb (rec_type op) "d" in
  let group :=
    [ SubmitBlock (relem * NVARS) (lelem * NVARS) A_RL
        (if isd then 1%nat else NVARS) (if isd then (iface - gnbface mesh)%nat else NVARS);
      SubmitBlock (lelem * NVARS) (relem * NVARS) A_LR
        (if isd then 2%nat else NVARS) (if isd then (iface - gnbface mesh)%nat else NVARS);
      UpdateDiagBlock (lelem * NVARS) (bmap Ropp A_RL) NVARS;
      UpdateDiagBlock (relem * NVARS) (bmap Ropp A_LR) NVARS ] in
  (gnbface mesh <= iface < gnaface mesh)%nat ->
  interior_face_calls fv u (rec_type op) iface = group
  /\ exists before after,
       rec_calls (compute_jacobian uninit fv u op) = before ++ group ++ after.
Proof.
  intros mesh lelem relem n len A_LR A_RL isd group Hi.
  assert (Hgroup : interior_face_calls fv u (rec_type op) iface = group).
  { unfold interior_face_calls, jacobian_interior_face.
    fold mesh lelem relem n len. rewrite jflux_convention.
    cbn [type Recorder_LinearOperator rec_type]. fold isd.
    set (D := dF_dul (u lelem) (u relem) n) in *.
    set (E := dF_dur (u lelem) (u relem) n) in *.
    assert (HL : bmap (fun x => s_mul x len) (bmap Ropp D) = A_RL)
      by (unfold A_RL; block_ring).
    assert (HU : bmap (fun x => s_mul x len) E = A_LR)
      by (unfold A_LR; block_ring).
    assert (HnL : bmap (fun x => s_mul x (s_opp s_one)) A_RL = bmap Ropp A_RL)
      by block_ring.
    assert (HnU : bmap (fun x => s_mul x (s_opp s_one)) A_LR = bmap Ropp A_LR)
      by block_ring.
    rewrite HL, HU, HnL, HnU.
    unfold group. destruct isd; reflexivity. }
  split; [exact Hgroup|].
  rewrite compute_jacobian_calls. fold mesh.
  destruct (@flat_map_seq_split _ (interior_face_calls fv u (rec_type op))
              (gnbface mesh) (gnaface mesh - gnbface mesh) iface)
    as (before & after & Hsplit); [lia|].
  rewrite Hsplit, Hgroup.
  exists (rec_calls op
          ++ flat_map (boundary_face_calls uninit fv u (rec_type op))
                      (seq 0 (gnbface mesh)) ++ before), after.
  rewrite <- !app_assoc. reflexivity.
Qed.

(** C3, as amended: for a boundary face the ghost state is computed from
    the interior state, the Jacobian flux is evaluated at (u_L, u_g), and
    the assembly makes one call only: it adds len dF/du_L to the diagonal
    block of the left cell.  Nothing is submitted off the diagonal, and
    the right Jacobian, through which the ghost state depends on u_L, does
    not enter the block. *)
Theorem boundary_face_blocks (u : @MVector R) (op : @Recorder R) (iface : nat) :
  let mesh := m (base fv) in
  let lelem := gintfac mesh iface 0 in
  let n := mkVec2 (ggallfa mesh iface 0) (ggallfa mesh iface 1) in
  let len := ggallfa mesh iface 2 in
  let u_g := compute_boundary_state fv iface (u lelem) (uninit 0%nat) in
  let group :=
    [ UpdateDiagBlock (lelem * NVARS) (bmap (Rmult len) (dF_dul (u lelem) u_g n)) NVARS ] in
  (iface < gnbface mesh)%nat ->
  boundary_face_calls uninit fv u (rec_type op) iface = group
  /\ exists before after,
       rec_calls (compute_jacobian uninit fv u op) = before ++ group ++ after.
Proof.
  intros mesh lelem n len u_g group Hi.
  assert (Hgroup : boundary_face_calls uninit fv u (rec_type op) iface = group).
  { unfold boundary_face_calls, jacobian_boundary_face.
    fold mesh lelem n len u_g. rewrite jflux_convention.
    cbn [updateDiagBlock Recorder_LinearOperator rec_calls app].
    unfold group. do 2 f_equal. block_ring. }
  split; [exact Hgroup|].
  rewrite compute_jacobian_calls. fold mesh.
  destruct (@flat_map_seq_split _ (boundary_face_calls uninit fv u (rec_type op))
              0%nat (gnbface mesh) iface)
    as (before & after & Hsplit); [lia|].
  rewrite Hsplit, Hgroup.
  exists (rec_calls op ++ before),
         (after ++ flat_map (interior_face_calls fv u (rec_type op))
                     (seq (gnbface mesh) (gnaface mesh - gnbface mesh))).
  rewrite <- !app_assoc. reflexivity.
Qed.

End JacobianBlocks.

(** ** The matrix-free Jacobian-vector product *)

Section FlatArrays.

Context {T : Type} {ST : Scalar T}.

Lemma vget_vset_same (v : @State T) (k : nat) (a : T) :
  k < NVARS -> vget (vset v k a) k = a.
Proof.
  unfold NVARS. intros Hk.
  destruct k as [|[|[|[|k]]]]; try reflexivity; lia.
Qed.

Lemma vget_vset_other (v : @State T) (k k' : nat) (a : T) :
  k < NVARS -> k' < NVARS -> k' <> k -> vget (vset v k a) k' = vget v k'.
Proof.
  unfold NVARS. intros Hk Hk' Hne.
  destruct k as [|[|[|[|k]]]]; destruct k' as [|[|[|[|k']]]];
    try reflexivity; lia.
Qed.

Lemma data_data_set (x : @MVector T) (i j : nat) (a : T) :
  data (data_set x i a) j = if Nat.eqb j i then a else data x j.
Proof.
  assert (Hi : i mod NVARS < NVARS) by (apply Nat.mod_upper_bound; discriminate).
  assert (Hj : j mod NVARS < NVARS) by (apply Nat.mod_upper_bound; discriminate).
  unfold data, data_set, upd.
  destruct (Nat.eqb_spec j i) as [->|Hne].
  - rewrite Nat.eqb_refl. now apply vget_vset_same.
  - destruct (Nat.eqb_spec (j / NVARS) (i / NVARS)) as [E|E]; [|reflexivity].
    rewrite <- E. apply vget_vset_other; try assumption.
    intros Hmod. apply Hne.
    rewrite (Nat.div_mod_eq j NVARS), (Nat.div_mod_eq i NVARS), E, Hmod.
    reflexivity.
Qed.

(** A loop over the entries that replaces each by a function of its index
    and of its old value. *)
Lemma for_loop_data_map (f : nat -> T -> T) (N : nat) (x : @MVector T) (j : nat) :
  data (for_loop 0 N (fun i x => data_set x i (f i (data x i))) x) j
  = if j <? N then f j (data x j) else data x j.
Proof.
  induction N as [|N IH].
  - reflexivity.
  - rewrite for_loop_last by lia. rewrite data_data_set.
    destruct (Nat.eqb_spec j N) as [->|Hne].
    + rewrite IH.
      destruct (Nat.ltb_spec N N); [lia|].
      destruct (Nat.ltb_spec N (S N)); [reflexivity|lia].
    + rewrite IH.
      destruct (Nat.ltb_spec j N), (Nat.ltb_spec j (S N)); try reflexivity; lia.
Qed.

(** Entry [k] of row [c] is entry [c * NVARS + k] of the array. *)
Lemma data_of_row (x : @MVector T) (c k : nat) :
  k < NVARS -> data x (c * NVARS + k) = vget (x c) k.
Proof.
  intros Hk. unfold data.
  replace ((c * NVARS + k) / NVARS) with c
    by (apply Nat.div_unique with k; [assumption|lia]).
  replace ((c * NVARS + k) mod NVARS) with k
    by (apply Nat.mod_unique with c; [assumption|lia]).
  reflexivity.
Qed.

Lemma row_ext (v w : @State T) :
  (forall k, k < NVARS -> vget v k = vget w k) -> v = w.
Proof.
  intros H. unfold NVARS in H.
  apply vec4_ext;
    [apply (H 0)|apply (H 1)|apply (H 2)|apply (H 3)]; lia.
Qed.

(** The same loop, read row by row. *)
Lemma for_loop_data_map_row (f : nat -> T -> T) (n : nat) (x : @MVector T)
  (c k : nat) :
  c < n -> k < NVARS ->
  vget (for_loop 0 (n * NVARS) (fun i x => data_set x i (f i (data x i))) x c) k
  = f (c * NVARS + k) (vget (x c) k).
Proof.
  intros Hc Hk.
  rewrite <- !data_of_row by assumption.
  rewrite for_loop_data_map.
  destruct (Nat.ltb_spec (c * NVARS + k) (n * NVARS)) as [_|Hge]; [reflexivity|].
  unfold NVARS in *. nia.
Qed.

(** The loop that adds the time term, lines 149-151: first its inner loop
    over the components of one row. *)
Lemma time_term_row (c : T) (v : @MVector T) (iel : nat) (prod : @MVector T)
  (i : nat) :
  for_loop 0 NVARS (fun ivar prod =>
      upd prod iel
          (vset (prod iel) ivar
                (s_add (vget (prod iel) ivar) (s_mul c (vget (v iel) ivar)))))
    prod i
  = if Nat.eqb i iel then vmap2 (fun p w => s_add p (s_mul c w)) (prod iel) (v iel)
    else prod i.
Proof.
  unfold NVARS, for_loop. cbn [seq Nat.sub fold_left].
  unfold upd at 1.
  destruct (Nat.eqb_spec i iel) as [->|Hne].
  - rewrite !upd_same. apply vec4_ext; reflexivity.
  - rewrite !upd_other by assumption. reflexivity.
Qed.

Lemma time_term_loop (c : nat -> T) (v : @MVector T) (n : nat) (prod : @MVector T)
  (i : nat) :
  for_loop 0 n (fun iel prod =>
    for_loop 0 NVARS (fun ivar prod =>
      upd prod iel
          (vset (prod iel) ivar
                (s_add (vget (prod iel) ivar) (s_mul (c iel) (vget (v iel) ivar)))))
      prod) prod i
  = if i <? n then vmap2 (fun p w => s_add p (s_mul (c i) w)) (prod i) (v i)
    else prod i.
Proof.
  induction n as [|n IH].
  - reflexivity.
  - rewrite for_loop_last by lia. rewrite time_term_row.
    destruct (Nat.eqb_spec i n) as [->|Hne].
    + rewrite IH.
      destruct (Nat.ltb_spec n n); [lia|].
      destruct (Nat.ltb_spec n (S n)); [reflexivity|lia].
    + rewrite IH.
      destruct (Nat.ltb_spec i n), (Nat.ltb_spec i (S n)); try reflexivity; lia.
Qed.

End FlatArrays.

Section JacobianVectorProduct.

Local Open Scope R_scope.

Context {PO : @PhysicsOps R}.
Variable uninit : nat -> @State R.


(** The finite-difference loop, lines 143-144, row by row. *)
Lemma difference_quotient_loop (n : nat) (h : R) (resu prod : @MVector R) (iel : nat) :
  (iel < n)%nat ->
  for_loop 0 (n * NVARS)
    (fun i prod => data_set prod i (s_div (s_sub (data prod i) (data resu i)) h))
    prod iel
  = vmap (fun x => x / h) (vmap2 Rminus (prod iel) (resu iel)).
Proof.
  intros Hiel. apply row_ext. intros k Hk.
  rewrite (for_loop_data_map_row
             (fun i p => s_div (s_sub p (data resu i)) h)) by assumption.
  rewrite !data_of_row by assumption.
  unfold NVARS in Hk.
  destruct k as [|[|[|[|k]]]]; try lia; reflexivity.
Qed.


End JacobianVectorProduct.

(** * Runs on concrete inputs *)

(** ** In binary64 arithmetic *)

(** Two binary64 rows that differ in a component are different. *)
Lemma rows_differ (k : nat) (v w : @State PrimFloat.float) :
  PrimFloat.eqb (vget v k) (vget w k) = false ->
  PrimFloat.eqb (vget v k) (vget v k) = true ->
  v <> w.
Proof. intros Hvw Hvv E. rewrite <- E in Hvw. congruence. Qed.

(** Counterexample to C5 as stated: on the two-cell channel in uniform
    flow, the residual of cell 0 is (4, 4, 0, 4) when the array holds
    zeros on entry and (5, 5, 1, 5) when it holds ones: the output
    depends on the prior contents. *)
Lemma residual_depends_on_prior_contents :
  fst (compute_residual (T := PrimFloat.float) (PO := ideal_gas) zeros channel_flow uniform_stream
         zeros false zeros_dtm) 0
  = mkVec4 (fl 4) (fl 4) (fl 0) (fl 4)
  /\ fst (compute_residual (T := PrimFloat.float) (PO := ideal_gas) zeros channel_flow uniform_stream
            ones false zeros_dtm) 0
     = mkVec4 (fl 5) (fl 5) (fl 1) (fl 5)
  /\ fst (compute_residual (T := PrimFloat.float) (PO := ideal_gas) zeros channel_flow uniform_stream
            zeros false zeros_dtm) 0
     <> fst (compute_residual (T := PrimFloat.float) (PO := ideal_gas) zeros channel_flow uniform_stream
               ones false zeros_dtm) 0.
Proof.
  split; [vm_compute; reflexivity|].
  split; [vm_compute; reflexivity|].
  apply (rows_differ 0); vm_compute; reflexivity.
Qed.

(** Counterexample to C6 as stated: a cell that no face touches has
    wave-speed integral 0.0, and its time step is the quotient 1.0 / 0.0,
    which is the binary64 infinity, not a finite cap.  The same happens on
    the two-cell channel for a gas at rest with zero pressure, where every
    face contributes (|0| + 0) * 1 to the integral. *)
Lemma isolated_cell_timestep_is_infinite :
  snd (compute_residual (T := PrimFloat.float) (PO := ideal_gas) zeros
         isolated_cell_flow uniform_stream zeros true zeros_dtm) 0
  = PrimFloat.infinity
  /\ is_finite (snd (compute_residual (T := PrimFloat.float) (PO := ideal_gas) zeros
                       isolated_cell_flow uniform_stream zeros true zeros_dtm) 0)
     = false
  /\ snd (compute_residual (T := PrimFloat.float) (PO := ideal_gas) zeros
            channel_flow cold_gas_at_rest zeros true zeros_dtm) 0
     = PrimFloat.infinity.
Proof. repeat split; vm_compute; reflexivity. Qed.

(** Counterexample to C4 as stated: face 0 of the channel has normal
    (0, -1) and marker 2; when 2 is the slip-wall marker and also the
    inflow-outflow marker, the ghost state of the interior state
    (1, 0, 1, 2) is the free stream (1, 1, 0, 1) and not the mirrored state
    (1, 0, -1, 2). *)
Lemma slip_marker_shared_with_inflow_outflow :
  gmarker (m (base (@shared_marker_flow PrimFloat.float _))) 0
  = slip_wall_id (@shared_marker_flow PrimFloat.float _)
  /\ compute_boundary_state (T := PrimFloat.float) (PO := ideal_gas) shared_marker_flow 0
       rising_state rising_state
     = mkVec4 (fl 1) (fl 1) (fl 0) (fl 1)
  /\ compute_boundary_state (T := PrimFloat.float) (PO := ideal_gas) shared_marker_flow 0
       rising_state rising_state
     <> mkVec4 (fl 1) (fl 0) (PrimFloat.opp (fl 1)) (fl 2).
Proof.
  split; [reflexivity|].
  split; [vm_compute; reflexivity|].
  apply (rows_differ 1); vm_compute; reflexivity.
Qed.

(** Counterexample to C3 as stated: on the unit square, whose bottom and
    top faces are slip walls, the ghost state depends on the interior
    state, yet the calls of [compute_jacobian] are the same whether the
    right Jacobian of the Jacobian flux is the identity or zero: four
    diagonal updates of cell 0 by - len * left, and nothing else. *)
Lemma right_jacobian_does_not_reach_the_diagonal :
  rec_calls (compute_jacobian (T := PrimFloat.float) (PO := ideal_gas) zeros square_flow_identity
               uniform_stream fresh_operator)
  = rec_calls (compute_jacobian (T := PrimFloat.float) (PO := ideal_gas) zeros square_flow_zero
                 uniform_stream fresh_operator)
  /\ rec_calls (compute_jacobian (T := PrimFloat.float) (PO := ideal_gas) zeros square_flow_identity
                  uniform_stream fresh_operator)
     = [ UpdateDiagBlock 0 minus_len_left 4; UpdateDiagBlock 0 minus_len_left 4;
         UpdateDiagBlock 0 minus_len_left 4; UpdateDiagBlock 0 minus_len_left 4 ]
  /\ snd (get_jacobian (jflux (@square_flow_identity PrimFloat.float _))
            rising_state rising_state (mkVec2 (fl 0) (PrimFloat.opp (fl 1))))
     <> snd (get_jacobian (jflux (@square_flow_zero PrimFloat.float _))
               rising_state rising_state (mkVec2 (fl 0) (PrimFloat.opp (fl 1))))
  /\ compute_boundary_state (T := PrimFloat.float) (PO := ideal_gas) square_flow_identity 0
       rising_state rising_state
     <> compute_boundary_state (T := PrimFloat.float) (PO := ideal_gas) square_flow_identity 0
          uniform_stream_state rising_state.
Proof.
  split; [vm_compute; reflexivity|].
  split; [vm_compute; reflexivity|].
  split.
  - intros E. apply (f_equal (fun b : Block => e0 b)) in E.
    revert E. apply (rows_differ 0); vm_compute; reflexivity.
  - apply (rows_differ 2); vm_compute; reflexivity.
Qed.



(** ** In exact arithmetic *)

(** C8 on the channel: cell 0 is initialised to the free-stream state. *)
Lemma freestream_initial_condition_on_channel :
  0 < gnelem (@channel_mesh R _)
  /\ initializeUnknowns constructed_flow false "" zeros 0 = uinf constructed_flow.
Proof.
  split; [cbn; lia|].
  apply (proj2 (freestream_state_and_initial_condition
                  zeros (/ 2 ^ 52)%R channel_mesh 2%R 1%R 1%R 1%R 1%R 0%R
                  6 (-1) 8 2 4 1%R 0%R 1%R 0%R 1%R 0%R
                  mean_flux mean_flux "NONE" no_reconstruction no_limiter false)).
  cbn; lia.
Defined.

(** C7 on the channel: face 5 is the left end of cell 0. *)
Lemma ghost_centre_of_left_end :
  5 < gnbface (@channel_mesh R _)
  /\ 0 < NDIM
  /\ gintfac (@channel_mesh R _) 5 0 < gnelem (@channel_mesh R _)
  /\ (rcg (Spatial_new zeros (/ 2 ^ 52) channel_mesh) 5 0
      + rc (Spatial_new zeros (/ 2 ^ 52) channel_mesh) 0 0
      = 2 * ((gcoords (@channel_mesh R _) 5 0 + gcoords (@channel_mesh R _) 0 0) / 2))%R
  /\ rc (Spatial_new zeros (/ 2 ^ 52)%R channel_mesh) 0 0
     = (node_sum (@channel_mesh R _) 0 0 / INR 4)%R.
Proof.
  assert (H1 : 5 < gnbface (@channel_mesh R _)) by (cbn; lia).
  assert (H2 : 0 < NDIM) by (unfold NDIM; lia).
  assert (H3 : gintfac (@channel_mesh R _) 5 0 < gnelem (@channel_mesh R _))
    by (cbn; lia).
  destruct (ghost_centre_symmetric_about_midpoint
              zeros (/ 2 ^ 52)%R (@channel_mesh R _) H1 H2) as [Hsym Hcentroid].
  exact (conj H1 (conj H2 (conj H3 (conj Hsym (Hcentroid H3))))).
Defined.

(** C6 on the isolated cell: its time step is the quotient of its area 1
    by the divisor 0. *)
Lemma isolated_cell_timestep_quotient :
  0 < gnelem (m (base (@isolated_cell_flow R _)))
  /\ snd (compute_residual (T := R) (PO := ideal_gas) zeros isolated_cell_flow
            uniform_stream zeros true zeros_dtm) 0
     = (1 / 0)%R.
Proof.
  assert (H1 : 0 < gnelem (m (base (@isolated_cell_flow R _)))) by (cbn; lia).
  split; [exact H1|].
  change (1 / 0)%R
    with (s_div (garea (m (base (@isolated_cell_flow R _))) 0) s_zero).
  apply (proj2 (timestep_is_unguarded_quotient (PO := ideal_gas) zeros
                  isolated_cell_flow uniform_stream zeros zeros_dtm H1)).
  intros ied Hied. cbn in Hied. lia.
Defined.


(** C4 on the channel: face 0 is a slip wall with normal (0, -1), and the
    state (1, 0, 1, 2) is mirrored to (1, 0, -1, 2). *)
Lemma slip_wall_mirrors_rising_state :
  gmarker (m (base (@channel_flow R _))) 0 = slip_wall_id (@channel_flow R _)
  /\ (0 < e0 (@rising_state R _))%R
  /\ compute_boundary_state (T := R) (PO := ideal_gas) channel_flow 0 rising_state rising_state
     = mkVec4 1%R 0%R (-1)%R 2%R.
Proof.
  assert (Hrho : (0 < e0 (@rising_state R _))%R) by (cbn; lra).
  split; [reflexivity|]. split; [exact Hrho|].
  rewrite (slip_wall_ghost_state (PO := ideal_gas) channel_flow 0
             rising_state rising_state);
    [apply vec4_ext; cbn; lra | reflexivity | | | | | exact Hrho];
    cbn; discriminate.
Defined.

(** The mean flux follows the convention of [compute_jacobian], with both
    derivatives equal to diag(1/2). *)
Lemma mean_flux_convention (ul ur : @State R) (n : Vec2 R) :
  get_jacobian (jflux (@channel_flow R _)) ul ur n
  = (bmap Ropp (diag_block (1 / 2)%R), diag_block (1 / 2)%R).
Proof.
  cbn. apply (f_equal2 pair); [|reflexivity].
  apply vec4_ext; apply vec4_ext; cbn; lra.
Qed.

(** C2 on the channel: face 6 is the interior face, with left cell 0, right
    cell 1 and length 1. *)
Lemma channel_interior_face_blocks :
  gnbface (m (base (@channel_flow R _))) <= 6 < gnaface (m (base (@channel_flow R _)))
  /\ interior_face_calls (T := R) channel_flow uniform_stream "d" 6
     = [ SubmitBlock 4 0 (bmap (fun x => - (1 * x))%R (diag_block (1 / 2)%R)) 1 0;
         SubmitBlock 0 4 (bmap (Rmult 1) (diag_block (1 / 2)%R)) 2 0;
         UpdateDiagBlock 0
           (bmap Ropp (bmap (fun x => - (1 * x))%R (diag_block (1 / 2)%R))) 4;
         UpdateDiagBlock 4
           (bmap Ropp (bmap (Rmult 1) (diag_block (1 / 2)%R))) 4 ].
Proof.
  assert (Hi : gnbface (m (base (@channel_flow R _))) <= 6
               < gnaface (m (base (@channel_flow R _)))) by (cbn; lia).
  split; [exact Hi|].
  exact (proj1 (interior_face_blocks (PO := ideal_gas) zeros channel_flow
                  (fun _ _ _ => diag_block (1 / 2)%R)
                  (fun _ _ _ => diag_block (1 / 2)%R)
                  mean_flux_convention uniform_stream fresh_operator Hi)).
Defined.

(** C3 on the channel: face 0 is a boundary face of cell 0, of length 1. *)
Lemma channel_boundary_face_blocks :
  0 < gnbface (m (base (@channel_flow R _)))
  /\ boundary_face_calls (T := R) (PO := ideal_gas) zeros channel_flow
       uniform_stream "d" 0
     = [ UpdateDiagBlock 0 (bmap (Rmult 1) (diag_block (1 / 2)%R)) 4 ].
Proof.
  assert (Hi : 0 < gnbface (m (base (@channel_flow R _)))) by (cbn; lia).
  split; [exact Hi|].
  exact (proj1 (boundary_face_blocks (PO := ideal_gas) zeros channel_flow
                  (fun _ _ _ => diag_block (1 / 2)%R)
                  (fun _ _ _ => diag_block (1 / 2)%R)
                  mean_flux_convention uniform_stream fresh_operator Hi)).
Defined.




(** * Further properties of the code *)

(** ** More loops *)

(** A loop that replaces entry [k] at iteration [k] by a function of its
    old value. *)
Lemma for_loop_map_own {X : Type} (f : nat -> X -> X) (n : nat) (a : nat -> X)
  (i : nat) :
  for_loop 0 n (fun k a => upd a k (f k (a k))) a i
  = if i <? n then f i (a i) else a i.
Proof.
  induction n as [|n IH].
  - reflexivity.
  - rewrite for_loop_last by lia.
    destruct (Nat.eq_dec i n) as [->|Hne].
    + rewrite upd_same, IH.
      destruct (Nat.ltb_spec n n); [lia|].
      destruct (Nat.ltb_spec n (S n)); [reflexivity|lia].
    + rewrite upd_other by assumption. rewrite IH.
      destruct (Nat.ltb_spec i n), (Nat.ltb_spec i (S n)); try reflexivity; lia.
Qed.

(** A loop over [lo, hi) that stores into entry [k] of two arrays values
    that do not depend on the arrays. *)
Lemma for_loop_fill_pair {X : Type} (f h : nat -> X) (lo hi : nat)
  (a b : nat -> X) (i : nat) :
  lo <= hi ->
  let r := for_loop lo hi (fun k '(a, b) => (upd a k (f k), upd b k (h k))) (a, b) in
  fst r i = (if (lo <=? i) && (i <? hi) then f i else a i)
  /\ snd r i = (if (lo <=? i) && (i <? hi) then h i else b i).
Proof.
  intros Hle. cbn zeta. induction hi as [|hi IH].
  - assert (lo = 0) by lia; subst. cbn. split; reflexivity.
  - destruct (Nat.eq_dec lo (S hi)) as [->|Hne].
    + rewrite for_loop_empty by lia. cbn [fst snd].
      destruct (Nat.leb_spec (S hi) i), (Nat.ltb_spec i (S hi));
        cbn; split; try reflexivity; lia.
    + rewrite for_loop_last by lia.
      destruct IH as [IHa IHb]; [lia|].
      destruct (for_loop lo hi _ (a, b)) as [a' b']. cbn [fst snd] in *.
      destruct (Nat.eq_dec i hi) as [->|Hi].
      * rewrite !upd_same.
        destruct (Nat.leb_spec lo hi), (Nat.ltb_spec hi (S hi));
          cbn; split; try reflexivity; lia.
      * rewrite !upd_other by assumption. rewrite IHa, IHb.
        destruct (Nat.leb_spec lo i), (Nat.ltb_spec i hi), (Nat.ltb_spec i (S hi));
          cbn; split; try reflexivity; lia.
Qed.

(** ** Boundary closure *)

Section BoundaryClosure.

Context {T : Type} {ST : Scalar T} {PO : @PhysicsOps T}.

(** [compute_boundary_states] rewrites the row of every boundary face with
    the ghost state of that face and leaves every other row as it was. *)
Lemma compute_boundary_states_row (fv : @FlowFV T) (ins bs : @MVector T) (ied : nat) :
  compute_boundary_states fv ins bs ied
  = if ied <? gnbface (m (base fv))
    then compute_boundary_state fv ied (ins ied) (bs ied)
    else bs ied.
Proof.
  unfold compute_boundary_states.
  apply (for_loop_map_own
           (fun ied b => compute_boundary_state fv ied (ins ied) b)).
Qed.

(** On an inflow-outflow face (whose marker is not -1) the ghost state is
    the free-stream state, whatever the interior state and whether or not
    the marker is also given to a wall. *)
Theorem inflow_outflow_ghost_is_freestream
  (fv : @FlowFV T) (ied : nat) (ins bs : @State T) :
  gmarker (m (base fv)) ied = inflow_outflow_id fv ->
  gmarker (m (base fv)) ied <> (-1)%Z ->
  compute_boundary_state fv ied ins bs = uinf fv.
Proof.
  intros Hio Hchar. unfold compute_boundary_state.
  apply Z.eqb_eq in Hio. apply Z.eqb_neq in Hchar.
  rewrite Hio, Hchar. reflexivity.
Qed.

(** On a face whose marker is none of the slip-wall, isothermal-wall,
    adiabatic-wall, inflow-outflow and characteristic (-1) markers, nothing
    is written: the ghost state is what its storage held before. *)
Theorem unmatched_marker_writes_nothing
  (fv : @FlowFV T) (ied : nat) (ins bs : @State T) :
  gmarker (m (base fv)) ied <> slip_wall_id fv ->
  gmarker (m (base fv)) ied <> isothermal_wall_id fv ->
  gmarker (m (base fv)) ied <> adiabatic_wall_id fv ->
  gmarker (m (base fv)) ied <> inflow_outflow_id fv ->
  gmarker (m (base fv)) ied <> (-1)%Z ->
  compute_boundary_state fv ied ins bs = bs.
Proof.
  intros Hslip Hiso Hadia Hio Hchar. unfold compute_boundary_state.
  apply Z.eqb_neq in Hslip, Hiso, Hadia, Hio, Hchar.
  rewrite Hslip, Hiso, Hadia, Hio, Hchar. reflexivity.
Qed.

(** On an isothermal or adiabatic wall (whose marker is neither the
    inflow-outflow marker nor -1) the ghost state has the density of the
    interior state and the opposite momentum. *)
Theorem no_slip_wall_reverses_momentum
  (fv : @FlowFV T) (ied : nat) (ins bs : @State T) :
  gmarker (m (base fv)) ied = isothermal_wall_id fv
  \/ gmarker (m (base fv)) ied = adiabatic_wall_id fv ->
  gmarker (m (base fv)) ied <> inflow_outflow_id fv ->
  gmarker (m (base fv)) ied <> (-1)%Z ->
  let bs' := compute_boundary_state fv ied ins bs in
  e0 bs' = e0 ins /\ e1 bs' = s_opp (e1 ins) /\ e2 bs' = s_opp (e2 ins).
Proof.
  intros Hwall Hio Hchar. cbn zeta. unfold compute_boundary_state.
  apply Z.eqb_neq in Hio, Hchar. rewrite Hio, Hchar.
  destruct (Z.eqb_spec (gmarker (m (base fv)) ied) (adiabatic_wall_id fv)) as [_|Hna].
  - cbn. auto.
  - destruct Hwall as [Hiso|Hadia]; [|contradiction].
    apply Z.eqb_eq in Hiso. rewrite Hiso. cbn. auto.
Qed.

End BoundaryClosure.

Section BoundaryClosureReal.

Local Open Scope R_scope.

Context {PO : @PhysicsOps R}.

Lemma s_leb_R (x y : R) : s_leb x y = true <-> x <= y.
Proof.
  cbn. destruct (Rle_dec x y); split; intros; try assumption;
    try reflexivity; try discriminate; contradiction.
Qed.

(** The ghost state of a face that is a slip wall and nothing else. *)
Lemma slip_state_formula (fv : @FlowFV R) (ied : nat) (ins bs : @State R) :
  gmarker (m (base fv)) ied = slip_wall_id fv ->
  gmarker (m (base fv)) ied <> isothermal_wall_id fv ->
  gmarker (m (base fv)) ied <> adiabatic_wall_id fv ->
  gmarker (m (base fv)) ied <> inflow_outflow_id fv ->
  gmarker (m (base fv)) ied <> (-1)%Z ->
  compute_boundary_state fv ied ins bs
  = mkVec4 (e0 ins)
      (e1 ins - 2 * ((e1 ins * ggallfa (m (base fv)) ied 0
                      + e2 ins * ggallfa (m (base fv)) ied 1) / e0 ins)
                * ggallfa (m (base fv)) ied 0 * e0 ins)
      (e2 ins - 2 * ((e1 ins * ggallfa (m (base fv)) ied 0
                      + e2 ins * ggallfa (m (base fv)) ied 1) / e0 ins)
                * ggallfa (m (base fv)) ied 1 * e0 ins)
      (e3 ins).
Proof.
  intros Hslip Hiso Hadia Hio Hchar. unfold compute_boundary_state.
  apply Z.eqb_eq in Hslip. apply Z.eqb_neq in Hiso, Hadia, Hio, Hchar.
  rewrite Hslip, Hiso, Hadia, Hio, Hchar. reflexivity.
Qed.

(** On a slip wall with a unit normal and an interior state of positive
    density, the ghost state has the opposite normal momentum, the same
    tangential momentum and the same momentum magnitude; and the ghost
    state of the ghost state is the interior state. *)
Theorem slip_wall_is_a_reflection
  (fv : @FlowFV R) (ied : nat) (ins bs bs2 : @State R) :
  let nx := ggallfa (m (base fv)) ied 0 in
  let ny := ggallfa (m (base fv)) ied 1 in
  let ghost := compute_boundary_state fv ied ins bs in
  gmarker (m (base fv)) ied = slip_wall_id fv ->
  gmarker (m (base fv)) ied <> isothermal_wall_id fv ->
  gmarker (m (base fv)) ied <> adiabatic_wall_id fv ->
  gmarker (m (base fv)) ied <> inflow_outflow_id fv ->
  gmarker (m (base fv)) ied <> (-1)%Z ->
  nx * nx + ny * ny = 1 ->
  0 < e0 ins ->
  e1 ghost * nx + e2 ghost * ny = - (e1 ins * nx + e2 ins * ny)
  /\ e1 ghost * ny - e2 ghost * nx = e1 ins * ny - e2 ins * nx
  /\ e1 ghost * e1 ghost + e2 ghost * e2 ghost
     = e1 ins * e1 ins + e2 ins * e2 ins
  /\ compute_boundary_state fv ied ghost bs2 = ins.
Proof.
  intros nx ny ghost Hslip Hiso Hadia Hio Hchar Hunit Hrho.
  assert (Hg : ghost = mkVec4 (e0 ins)
                 (e1 ins - 2 * (e1 ins * nx + e2 ins * ny) * nx)
                 (e2 ins - 2 * (e1 ins * nx + e2 ins * ny) * ny)
                 (e3 ins)).
  { unfold ghost. rewrite slip_state_formula by assumption.
    fold nx ny. apply vec4_ext; cbn; try reflexivity; field; lra. }
  rewrite slip_state_formula by assumption. fold nx ny.
  rewrite Hg. cbn [e0 e1 e2 e3].
  destruct ins as [r mx my en]. cbn [e0 e1 e2 e3] in *.
  assert (Hmx : (mx - 2 * (mx * nx + my * ny) * nx) * nx
                + (my - 2 * (mx * nx + my * ny) * ny) * ny
                = - (mx * nx + my * ny)).
  { replace ((mx - 2 * (mx * nx + my * ny) * nx) * nx
             + (my - 2 * (mx * nx + my * ny) * ny) * ny)
      with ((mx * nx + my * ny) * (1 - 2 * (nx * nx + ny * ny))) by ring.
    rewrite Hunit. ring. }
  repeat split.
  - exact Hmx.
  - ring.
  - replace ((mx - 2 * (mx * nx + my * ny) * nx) * (mx - 2 * (mx * nx + my * ny) * nx)
             + (my - 2 * (mx * nx + my * ny) * ny) * (my - 2 * (mx * nx + my * ny) * ny))
      with (mx * mx + my * my
            + 4 * (mx * nx + my * ny) * (mx * nx + my * ny) * (nx * nx + ny * ny - 1))
      by ring.
    rewrite Hunit. ring.
  - rewrite Hmx. apply vec4_ext; cbn [e0 e1 e2 e3]; try reflexivity; field; lra.
Qed.

(** On a characteristic face (marker -1), for an interior state of
    positive density and positive sound speed and an adiabatic index other
    than 1, the interior normal Mach number selects the ghost state: the
    free stream when it is not positive, the interior density and momentum
    with the free-stream pressure when it is at most 1, and the interior
    state beyond. *)
Theorem characteristic_ghost_state
  (fv : @FlowFV R) (ied : nat) (ins bs : @State R) :
  let nx := ggallfa (m (base fv)) ied 0 in
  let ny := ggallfa (m (base fv)) ied 1 in
  let Mni := (e1 ins * nx + e2 ins * ny) / e0 ins
             / getSoundSpeedFromConserved (physics fv) ins in
  let ghost := compute_boundary_state fv ied ins bs in
  gmarker (m (base fv)) ied = (-1)%Z ->
  0 < e0 ins ->
  0 < getSoundSpeedFromConserved (physics fv) ins ->
  g (physics fv) <> 1 ->
  (Mni <= 0 -> ghost = uinf fv)
  /\ (0 < Mni <= 1 ->
      ghost = mkVec4 (e0 ins) (e1 ins) (e2 ins)
                (getPressureFromConserved (physics fv) (uinf fv) / (g (physics fv) - 1)
                 + 1 / 2 * (e1 ins * e1 ins + e2 ins * e2 ins) / e0 ins))
  /\ (1 < Mni -> ghost = ins).
Proof.
  intros nx ny Mni ghost Hchar Hrho Hc Hg.
  unfold ghost, compute_boundary_state.
  apply Z.eqb_eq in Hchar. rewrite Hchar. fold nx ny.
  change (s_div (s_div (s_add (s_mul (e1 ins) nx) (s_mul (e2 ins) ny)) (e0 ins))
                (getSoundSpeedFromConserved (physics fv) ins)) with Mni.
  change (@s_zero R _) with 0. change (@s_one R _) with 1.
  destruct (s_leb Mni 0) eqn:E0; [apply s_leb_R in E0|];
    (destruct (s_leb Mni 1) eqn:E1; [apply s_leb_R in E1|]).
  - repeat split; intros H; try reflexivity; lra.
  - repeat split; intros H; try reflexivity; lra.
  - assert (H0 : ~ Mni <= 0) by (intros H0; apply s_leb_R in H0; congruence).
    repeat split; intros H; try reflexivity; lra.
  - assert (H0 : ~ Mni <= 0) by (intros H0; apply s_leb_R in H0; congruence).
    assert (H1 : ~ Mni <= 1) by (intros H1; apply s_leb_R in H1; congruence).
    repeat split; intros H; try reflexivity; lra.
Qed.

End BoundaryClosureReal.

(** ** Face states and the face loop *)

Section FaceLoop.

Context {T : Type} {ST : Scalar T} {PO : @PhysicsOps T}.

(** The rows of the two arrays of face states of a first-order run. *)
Lemma face_states_rows
  (uninit : nat -> @State T) (fv : @FlowFV T) (u : @MVector T) (ied : nat) :
  let mesh := m (base fv) in
  secondOrderRequested fv = false ->
  gnbface mesh <= gnaface mesh ->
  ied < gnaface mesh ->
  fst (face_states uninit fv u) ied = u (gintfac mesh ied 0)
  /\ snd (face_states uninit fv u) ied
     = if ied <? gnbface mesh
       then compute_boundary_state fv ied (u (gintfac mesh ied 0)) (uninit ied)
       else u (gintfac mesh ied 1).
Proof.
  intros mesh Hfirst Hle Hied. unfold face_states. fold mesh. rewrite Hfirst.
  set (ul0 := for_loop 0 (gnbface mesh)
                (fun ied uleft => upd uleft ied (u (gintfac mesh ied 0))) uninit).
  assert (Hul0 : forall i, ul0 i = if i <? gnbface mesh then u (gintfac mesh i 0)
                                   else uninit i).
  { intros i. unfold ul0.
    apply (for_loop_fill (fun ied => u (gintfac mesh ied 0))). }
  match goal with
  | |- context [let '(a, b) := ?P in _] => destruct P as [ul ur] eqn:EP
  end.
  assert (Hpair :
            fst (ul, ur) ied = (if (gnbface mesh <=? ied) && (ied <? gnaface mesh)
                                then u (gintfac mesh ied 0) else ul0 ied)
            /\ snd (ul, ur) ied = (if (gnbface mesh <=? ied) && (ied <? gnaface mesh)
                                   then u (gintfac mesh ied 1) else uninit ied)).
  { rewrite <- EP.
    exact (for_loop_fill_pair (fun ied => u (gintfac mesh ied 0))
             (fun ied => u (gintfac mesh ied 1)) ul0 uninit ied Hle). }
  destruct Hpair as [Hl Hr]. cbn [fst snd] in *.
  rewrite compute_boundary_states_row. fold mesh.
  rewrite Hl, Hr, Hul0.
  destruct (Nat.leb_spec (gnbface mesh) ied), (Nat.ltb_spec ied (gnaface mesh)),
    (Nat.ltb_spec ied (gnbface mesh)); cbn; split; try reflexivity; lia.
Qed.

(** In a first-order run the left state of every face is the state of its
    left cell; the right state of an interior face is the state of its
    right cell, and that of a boundary face is the ghost state computed
    from the left cell. *)
Theorem first_order_face_states
  (uninit : nat -> @State T) (fv : @FlowFV T) (u : @MVector T) (ied : nat) :
  let mesh := m (base fv) in
  secondOrderRequested fv = false ->
  gnbface mesh <= gnaface mesh ->
  ied < gnaface mesh ->
  fst (face_states uninit fv u) ied = u (gintfac mesh ied 0)
  /\ (ied < gnbface mesh ->
      snd (face_states uninit fv u) ied
      = compute_boundary_state fv ied (u (gintfac mesh ied 0)) (uninit ied))
  /\ (gnbface mesh <= ied ->
      snd (face_states uninit fv u) ied = u (gintfac mesh ied 1)).
Proof.
  intros mesh Hfirst Hle Hied.
  destruct (face_states_rows uninit fv u Hfirst Hle Hied) as [Hl Hr].
  fold mesh in Hl, Hr.
  split; [exact Hl|]. split; intros Hb; rewrite Hr.
  - destruct (Nat.ltb_spec ied (gnbface mesh)); [reflexivity|lia].
  - destruct (Nat.ltb_spec ied (gnbface mesh)); [lia|reflexivity].
Qed.

(** The ghost state of a face whose marker is one of the five that the
    boundary closure knows does not depend on what its storage held. *)
Lemma matched_marker_overwrites (fv : @FlowFV T) (ied : nat) (ins bs bs' : @State T) :
  gmarker (m (base fv)) ied = slip_wall_id fv
  \/ gmarker (m (base fv)) ied = isothermal_wall_id fv
  \/ gmarker (m (base fv)) ied = adiabatic_wall_id fv
  \/ gmarker (m (base fv)) ied = inflow_outflow_id fv
  \/ gmarker (m (base fv)) ied = (-1)%Z ->
  compute_boundary_state fv ied ins bs = compute_boundary_state fv ied ins bs'.
Proof.
  intros Hm. unfold compute_boundary_state.
  destruct (Z.eqb_spec (gmarker (m (base fv)) ied) (-1)) as [_|H5]; [reflexivity|].
  destruct (Z.eqb_spec (gmarker (m (base fv)) ied) (inflow_outflow_id fv))
    as [_|H4]; [reflexivity|].
  destruct (Z.eqb_spec (gmarker (m (base fv)) ied) (adiabatic_wall_id fv))
    as [_|H3]; [reflexivity|].
  destruct (Z.eqb_spec (gmarker (m (base fv)) ied) (isothermal_wall_id fv))
    as [_|H2]; [reflexivity|].
  destruct (Z.eqb_spec (gmarker (m (base fv)) ied) (slip_wall_id fv))
    as [_|H1]; [reflexivity|].
  destruct Hm as [H|[H|[H|[H|H]]]]; contradiction.
Qed.

(** The face loop on two runs whose face states agree on a face and whose
    residuals and wave-speed integrals agree on the interior cells. *)
Lemma face_step_agrees (fv : @FlowFV T) (ul ur ul' ur' : @MVector T) (ied : nat)
  (st st' : @MVector T * (nat -> T)) :
  ul ied = ul' ied -> ur ied = ur' ied ->
  (forall i, i < gnelem (m (base fv)) -> fst st i = fst st' i) ->
  (forall i, i < gnelem (m (base fv)) -> snd st i = snd st' i) ->
  (forall i, i < gnelem (m (base fv)) ->
     fst (face_step fv ul ur ied st) i = fst (face_step fv ul' ur' ied st') i)
  /\ (forall i, i < gnelem (m (base fv)) ->
        snd (face_step fv ul ur ied st) i = snd (face_step fv ul' ur' ied st') i).
Proof.
  destruct st as [r w], st' as [r' w']. cbn [fst snd]. intros Hl Hr Hres Hint.
  unfold face_step, face_flux. cbn [fst snd]. rewrite <- Hl, <- Hr.
  set (L := gintfac (m (base fv)) ied 0).
  set (K := gintfac (m (base fv)) ied 1).
  set (n := gnelem (m (base fv))) in *.
  clearbody L K n.
  destruct (Nat.ltb_spec K n) as [HK|HK]; split; intros i Hi; unfold upd;
    repeat match goal with
           | |- context [Nat.eqb ?a ?b] => destruct (Nat.eqb_spec a b); subst
           end;
    rewrite ?Hres, ?Hint by assumption; try reflexivity; try contradiction.
Qed.

(** In a first-order run on a mesh whose boundary faces all carry a marker
    that the boundary closure knows, the residual and the time steps of the
    interior cells do not depend on what the freshly allocated work
    arrays held: no uninitialised value is read. *)
Theorem first_order_residual_reads_no_uninitialised_value
  (uninit uninit' : nat -> @State T) (fv : @FlowFV T) (u residual : @MVector T)
  (gettimesteps : bool) (dtm : nat -> T) (i : nat) :
  let mesh := m (base fv) in
  secondOrderRequested fv = false ->
  gnbface mesh <= gnaface mesh ->
  (forall ied, ied < gnbface mesh ->
     gmarker mesh ied = slip_wall_id fv
     \/ gmarker mesh ied = isothermal_wall_id fv
     \/ gmarker mesh ied = adiabatic_wall_id fv
     \/ gmarker mesh ied = inflow_outflow_id fv
     \/ gmarker mesh ied = (-1)%Z) ->
  i < gnelem mesh ->
  fst (compute_residual uninit fv u residual gettimesteps dtm) i
  = fst (compute_residual uninit' fv u residual gettimesteps dtm) i
  /\ snd (compute_residual uninit fv u residual gettimesteps dtm) i
     = snd (compute_residual uninit' fv u residual gettimesteps dtm) i.
Proof.
  intros mesh Hfirst Hle Hmarkers Hi.
  assert (Hstates : forall ied, ied < gnaface mesh ->
            fst (face_states uninit fv u) ied = fst (face_states uninit' fv u) ied
            /\ snd (face_states uninit fv u) ied = snd (face_states uninit' fv u) ied).
  { intros ied Hied.
    destruct (face_states_rows uninit fv u Hfirst Hle Hied) as [Hl Hr].
    destruct (face_states_rows uninit' fv u Hfirst Hle Hied) as [Hl' Hr'].
    fold mesh in Hl, Hr, Hl', Hr'.
    rewrite Hl, Hr, Hl', Hr'. split; [reflexivity|].
    destruct (Nat.ltb_spec ied (gnbface mesh)); [|reflexivity].
    apply matched_marker_overwrites. now apply Hmarkers. }
  unfold compute_residual. fold mesh.
  destruct (face_states uninit fv u) as [ul ur].
  destruct (face_states uninit' fv u) as [ul' ur'].
  cbn [fst snd] in Hstates.
  set (w0 := for_loop 0 (gnelem mesh) (fun iel integ => upd integ iel s_zero)
               (uninit1 uninit)).
  set (w0' := for_loop 0 (gnelem mesh) (fun iel integ => upd integ iel s_zero)
                (uninit1 uninit')).
  assert (Hw0 : forall j, j < gnelem mesh -> w0 j = w0' j).
  { intros j Hj. unfold w0, w0'. rewrite !for_loop_fill.
    destruct (Nat.ltb_spec j (gnelem mesh)); [reflexivity|lia]. }
  assert (Hloop : forall k, k <= gnaface mesh ->
            (forall j, j < gnelem mesh ->
               fst (for_loop 0 k (face_step fv ul ur) (residual, w0)) j
               = fst (for_loop 0 k (face_step fv ul' ur') (residual, w0')) j)
            /\ (forall j, j < gnelem mesh ->
                  snd (for_loop 0 k (face_step fv ul ur) (residual, w0)) j
                  = snd (for_loop 0 k (face_step fv ul' ur') (residual, w0')) j)).
  { induction k as [|k IH]; intros Hk.
    - split; intros j Hj; [reflexivity|now apply Hw0].
    - rewrite !for_loop_last by lia.
      destruct IH as [IHr IHw]; [lia|].
      destruct (Hstates k) as [Hl Hr]; [lia|].
      now apply face_step_agrees. }
  destruct (Hloop (gnaface mesh)) as [Hr Hw]; [lia|].
  destruct (for_loop 0 (gnaface mesh) (face_step fv ul ur) (residual, w0)) as [r w].
  destruct (for_loop 0 (gnaface mesh) (face_step fv ul' ur') (residual, w0'))
    as [r' w'].
  cbn [fst snd] in *. split; [now apply Hr|].
  destruct gettimesteps; [|reflexivity].
  rewrite !for_loop_fill.
  destruct (Nat.ltb_spec i (gnelem mesh)); [|lia].
  rewrite Hw by assumption. reflexivity.
Qed.

(** A cell that is neither the left nor the right cell of any face keeps
    the residual it had on entry. *)
Theorem untouched_cell_keeps_residual
  (uninit : nat -> @State T) (fv : @FlowFV T) (u residual : @MVector T)
  (gettimesteps : bool) (dtm : nat -> T) (i : nat) :
  (forall ied, ied < gnaface (m (base fv)) ->
     gintfac (m (base fv)) ied 0 <> i /\ gintfac (m (base fv)) ied 1 <> i) ->
  fst (compute_residual uninit fv u residual gettimesteps dtm) i = residual i.
Proof.
  intros Hfree. unfold compute_residual.
  destruct (face_states uninit fv u) as [ul ur].
  assert (H : fst (for_loop 0 (gnaface (m (base fv))) (face_step fv ul ur)
                     (residual,
                      for_loop 0 (gnelem (m (base fv)))
                        (fun iel integ => upd integ iel s_zero) (uninit1 uninit))) i
              = residual i).
  { apply (for_loop_invariant (fun _ st => fst st i = residual i)).
    - lia.
    - reflexivity.
    - intros ied [r w] Hied Hst. cbn [fst] in Hst.
      destruct (Hfree ied) as [HL HR]; [lia|].
      unfold face_step. cbn [fst].
      destruct (gintfac (m (base fv)) ied 1 <? gnelem (m (base fv)));
        rewrite ?upd_other by congruence; exact Hst. }
  destruct (for_loop 0 (gnaface (m (base fv))) (face_step fv ul ur) _) as [r w].
  exact H.
Qed.

End FaceLoop.

Section WaveIntegral.

Local Open Scope R_scope.

Context {PO : @PhysicsOps R}.
Variable uninit : nat -> @State R.

(** On a mesh whose faces have non-negative length, when the left state of
    every face, and the right state of every face whose right cell is an
    interior cell, has a positive density and a non-negative number under
    the square root of its sound speed, the wave-speed integral of every
    interior cell is non-negative; so a cell of positive area whose
    integral is not zero gets a positive time step. *)
Theorem wave_integral_is_nonnegative
  (fv : @FlowFV R) (u residual : @MVector R) (dtm : nat -> R) (iel : nat) :
  let mesh := m (base fv) in
  let uleft := fst (face_states uninit fv u) in
  let uright := snd (face_states uninit fv u) in
  (forall ied, (ied < gnaface mesh)%nat -> 0 <= ggallfa mesh ied 2) ->
  (forall ied, (ied < gnaface mesh)%nat ->
     0 < e0 (uleft ied) /\ 0 <= sound_speed_radicand fv (uleft ied)) ->
  (forall ied, (ied < gnaface mesh)%nat -> (gintfac mesh ied 1 < gnelem mesh)%nat ->
     0 < e0 (uright ied) /\ 0 <= sound_speed_radicand fv (uright ied)) ->
  (iel < gnelem mesh)%nat ->
  0 <= wave_integral uninit fv u residual iel
  /\ (0 < garea mesh iel -> wave_integral uninit fv u residual iel <> 0 ->
      0 < snd (compute_residual uninit fv u residual true dtm) iel).
Proof.
  intros mesh uleft uright Hlen Hleft Hright Hiel.
  assert (Hnonneg : 0 <= wave_integral uninit fv u residual iel).
  { unfold wave_integral. fold mesh.
    destruct (face_states uninit fv u) as [ul ur].
    revert iel Hiel.
    apply (for_loop_invariant
             (fun _ st => forall iel, (iel < gnelem mesh)%nat -> 0 <= snd st iel)).
    - lia.
    - intros iel Hiel. cbn [snd]. rewrite for_loop_fill.
      destruct (Nat.ltb_spec iel (gnelem mesh)); [cbn; lra|lia].
    - intros ied [r w] Hied Hst iel Hiel. cbn [snd] in Hst.
      unfold face_step. cbn [snd]. fold mesh.
      assert (Hl := Hlen ied (proj2 Hied)).
      assert (Hadd : forall a v c, 0 <= a -> 0 <= a + (Rabs v + sqrt c) * ggallfa mesh ied 2).
      { intros a v c Ha.
        assert (0 <= Rabs v) by apply Rabs_pos.
        assert (0 <= sqrt c) by apply sqrt_pos.
        assert (0 <= (Rabs v + sqrt c) * ggallfa mesh ied 2)
          by (apply Rmult_le_pos; lra).
        lra. }
      destruct (Nat.ltb_spec (gintfac mesh ied 1) (gnelem mesh)) as [HK|HK];
        unfold upd;
        repeat match goal with
               | |- context [Nat.eqb ?a ?b] => destruct (Nat.eqb_spec a b); subst
               end;
        try (apply Hadd); try (apply Hadd); try (apply Hst); try assumption; try lia. }
  split; [exact Hnonneg|].
  intros Harea Hne.
  assert (Hq : snd (compute_residual uninit fv u residual true dtm) iel
               = garea mesh iel / wave_integral uninit fv u residual iel).
  { unfold compute_residual, wave_integral. fold mesh.
    destruct (face_states uninit fv u) as [ul ur].
    destruct (for_loop 0 (gnaface mesh) (face_step fv ul ur) _) as [r w].
    cbn [snd]. rewrite for_loop_fill.
    destruct (Nat.ltb_spec iel (gnelem mesh)); [reflexivity|lia]. }
  rewrite Hq. apply Rdiv_lt_0_compat; lra.
Qed.

End WaveIntegral.

(** ** Counting the calls of the Jacobian assembly *)

Section CallCount.

Context {T : Type} {ST : Scalar T} {PO : @PhysicsOps T}.
Variable uninit : nat -> @State T.

Lemma flat_map_constant_length {X Y : Type} (f : X -> list Y) (k : nat) (l : list X) :
  (forall x, List.length (f x) = k) -> List.length (flat_map f l) = k * List.length l.
Proof.
  intros Hk. induction l as [|x l IH]; simpl; [lia|].
  rewrite length_app, Hk, IH. lia.
Qed.

Lemma boundary_face_calls_shape (fv : @FlowFV T) (u : @MVector T) (ty : ascii)
  (iface : nat) :
  List.length (boundary_face_calls uninit fv u ty iface) = 1
  /\ List.length (filter is_submit (boundary_face_calls uninit fv u ty iface)) = 0.
Proof.
  unfold boundary_face_calls, jacobian_boundary_face.
  destruct (get_jacobian (jflux fv) _ _ _) as [left_ right_].
  split; reflexivity.
Qed.

Lemma interior_face_calls_shape (fv : @FlowFV T) (u : @MVector T) (ty : ascii)
  (iface : nat) :
  List.length (interior_face_calls fv u ty iface) = 4
  /\ List.length (filter is_submit (interior_face_calls fv u ty iface)) = 2.
Proof.
  unfold interior_face_calls, jacobian_interior_face.
  destruct (get_jacobian (jflux fv) _ _ _) as [L U].
  cbn [type Recorder_LinearOperator rec_type].
  destruct (Ascii.eqb ty "d"); split; reflexivity.
Qed.

(** [compute_jacobian] never changes the type of the operator; it makes
    one call for each boundary face and four for each interior face, of
    which two for each interior face, and none for a boundary face, submit
    an off-diagonal block. *)
Theorem compute_jacobian_call_count (fv : @FlowFV T) (u : @MVector T)
  (op : @Recorder T) :
  let mesh := m (base fv) in
  let op' := compute_jacobian uninit fv u op in
  rec_type op' = rec_type op
  /\ List.length (rec_calls op')
     = List.length (rec_calls op) + gnbface mesh + 4 * (gnaface mesh - gnbface mesh)
  /\ List.length (filter is_submit (rec_calls op'))
     = List.length (filter is_submit (rec_calls op)) + 2 * (gnaface mesh - gnbface mesh).
Proof.
  intros mesh op'. split; [|split].
  - unfold op', compute_jacobian, for_loop.
    destruct (fold_appends_calls (jacobian_interior_face fv u)
                (interior_face_calls fv u)
                (jacobian_interior_face_appends fv u)
                (seq (gnbface (m (base fv)))
                     (gnaface (m (base fv)) - gnbface (m (base fv))))
                (fold_left (fun s i => jacobian_boundary_face uninit fv u i s)
                           (seq 0 (gnbface (m (base fv)) - 0)) op)) as [Hty _].
    destruct (fold_appends_calls (jacobian_boundary_face uninit fv u)
                (boundary_face_calls uninit fv u)
                (jacobian_boundary_face_appends uninit fv u)
                (seq 0 (gnbface (m (base fv)) - 0)) op) as [Hty' _].
    rewrite Hty, Hty'. reflexivity.
  - unfold op'. rewrite compute_jacobian_calls. fold mesh.
    rewrite !length_app.
    rewrite (@flat_map_constant_length _ _ _ 1)
      by (intros x; apply boundary_face_calls_shape).
    rewrite (@flat_map_constant_length _ _ _ 4)
      by (intros x; apply interior_face_calls_shape).
    rewrite !length_seq. lia.
  - unfold op'. rewrite compute_jacobian_calls. fold mesh.
    rewrite !filter_app, !length_app.
    assert (Hfm : forall (f : nat -> list (@OpCall T)) k l,
              (forall x, List.length (filter is_submit (f x)) = k) ->
              List.length (filter is_submit (flat_map f l)) = k * List.length l).
    { intros f k l Hk. induction l as [|x l IH]; simpl; [lia|].
      rewrite filter_app, length_app, Hk, IH. lia. }
    rewrite (Hfm _ 0) by (intros x; apply boundary_face_calls_shape).
    rewrite (Hfm _ 2) by (intros x; apply interior_face_calls_shape).
    rewrite !length_seq. lia.
Qed.

End CallCount.

(** ** The matrix-free product with scaling and shift *)

Section JacobianGemv.

Local Open Scope R_scope.

Context {PO : @PhysicsOps R}.
Variable uninit : nat -> @State R.

Lemma gemv_quotient_loop (n : nat) (a b h : R) (resu w prod : @MVector R) (iel : nat) :
  (iel < n)%nat ->
  for_loop 0 (n * NVARS)
    (fun i prod =>
       data_set prod i
         (s_add (s_div (s_mul a (s_sub (data prod i) (data resu i))) h)
                (s_mul b (data w i))))
    prod iel
  = vmap2 Rplus
      (vmap (fun x => a * x / h) (vmap2 Rminus (prod iel) (resu iel)))
      (vmap (Rmult b) (w iel)).
Proof.
  intros Hiel. apply row_ext. intros k Hk.
  rewrite (for_loop_data_map_row
             (fun i p => s_add (s_div (s_mul a (s_sub p (data resu i))) h)
                               (s_mul b (data w i)))) by assumption.
  rewrite !data_of_row by assumption.
  unfold NVARS in Hk.
  destruct k as [|[|[|[|k]]]]; try lia; reflexivity.
Qed.

(** [compute_jac_gemv] returns, for every cell, a times what
    [compute_jac_vec] returns on the same arguments plus b times w, and
    leaves the same perturbed state in [aux]. *)
Theorem jac_gemv_scales_and_shifts_jac_vec
  (fv : @FlowFV R) (a b : R) (resu u v w : @MVector R) (add_time_deriv : bool)
  (dtm : nat -> R) (aux prod : @MVector R) (iel : nat) :
  let gemv := FlowFV_compute_jac_gemv uninit fv a resu u v add_time_deriv dtm b w
                aux prod in
  let jvec := FlowFV_compute_jac_vec uninit fv resu u v add_time_deriv dtm aux prod in
  (iel < gnelem (m (base fv)))%nat ->
  fst gemv = fst jvec
  /\ snd gemv iel
     = vmap2 Rplus (vmap (Rmult a) (snd jvec iel)) (vmap (Rmult b) (w iel)).
Proof.
  intros gemv jvec Hiel. split; [reflexivity|].
  unfold gemv, jvec, FlowFV_compute_jac_gemv, FlowFV_compute_jac_vec,
    compute_jac_gemv, compute_jac_vec. cbn [snd].
  set (h := s_div (eps (base fv))
              (s_sqrt (dot (gnelem (m (base fv)) * NVARS) v v))).
  set (Rp := fst (compute_residual uninit fv
                    (axpbypcz (gnelem (m (base fv)) * NVARS) s_zero aux s_one u h v)
                    prod false (uninit1 uninit))).
  clearbody h Rp.
  destruct add_time_deriv.
  - rewrite (time_term_loop
               (fun iel => s_div (s_mul a (garea (m (base fv)) iel)) (dtm iel))).
    rewrite (time_term_loop
               (fun iel => s_div (garea (m (base fv)) iel) (dtm iel))).
    destruct (Nat.ltb_spec iel (gnelem (m (base fv)))); [|lia].
    rewrite gemv_quotient_loop, difference_quotient_loop by assumption.
    generalize (Rp iel) (resu iel) (v iel) (w iel); intros x r y z.
    apply vec4_ext; cbn; unfold Rdiv; ring.
  - rewrite gemv_quotient_loop, difference_quotient_loop by assumption.
    generalize (Rp iel) (resu iel) (w iel); intros x r z.
    apply vec4_ext; cbn; unfold Rdiv; ring.
Qed.

End JacobianGemv.

(** ** Gauss points and the reflection about the face *)

Section GaussPoints.

Context {T : Type} {ST : Scalar T}.

Lemma upd3_same {X : Type} (a : nat -> nat -> nat -> X) (i j k : nat) (x : X) :
  upd3 a i j k x i j k = x.
Proof. unfold upd3. rewrite Nat.eqb_refl. apply upd2_same. Qed.

Lemma upd3_other {X : Type} (a : nat -> nat -> nat -> X) (i j k i' j' k' : nat)
  (x : X) :
  i' <> i \/ j' <> j \/ k' <> k -> upd3 a i j k x i' j' k' = a i' j' k'.
Proof.
  intros Hne. unfold upd3.
  destruct (Nat.eqb_spec i' i) as [->|Hi]; [|reflexivity].
  apply upd2_other. destruct Hne as [H|[H|H]]; [contradiction|now left|now right].
Qed.

(** What the constructor stores for Gauss point [ig] of face [ied]. *)
Lemma gauss_point_entry (NGAUSS : nat) (mesh : @UMesh2dh T)
  (gr0 : nat -> nat -> nat -> T) (ied ig k : nat) :
  ied < gnaface mesh -> ig < NGAUSS -> k < NDIM ->
  compute_gauss_points NGAUSS mesh gr0 ied ig k
  = s_add (gcoords mesh (gintfac mesh ied 2) k)
      (s_mul (s_div (s_add (s_of_nat ig) s_one) (s_add (s_of_nat NGAUSS) s_one))
             (s_sub (gcoords mesh (gintfac mesh ied 3) k)
                    (gcoords mesh (gintfac mesh ied 2) k))).
Proof.
  intros Hied Hig Hk. unfold compute_gauss_points.
  pose (val := fun ied ig k =>
         s_add (gcoords mesh (gintfac mesh ied 2) k)
           (s_mul (s_div (s_add (s_of_nat ig) s_one) (s_add (s_of_nat NGAUSS) s_one))
                  (s_sub (gcoords mesh (gintfac mesh ied 3) k)
                         (gcoords mesh (gintfac mesh ied 2) k)))).
  revert ied ig k Hied Hig Hk.
  apply (for_loop_invariant
           (fun n gr => forall ied ig k, ied < n -> ig < NGAUSS -> k < NDIM ->
                                         gr ied ig k = val ied ig k)).
  - lia.
  - intros ied ig k Hied; lia.
  - intros n gr _ IH ied ig k Hied Hig Hk.
    assert (Hinner : forall j, j <= NGAUSS ->
              let gr' := for_loop 0 j (fun ig gr =>
                           let gr := upd3 gr n ig 0 (val n ig 0) in
                           upd3 gr n ig 1 (val n ig 1)) gr in
              (forall ig k, ig < j -> k < NDIM -> gr' n ig k = val n ig k)
              /\ (forall ied ig k, ied <> n -> gr' ied ig k = gr ied ig k)).
    { induction j as [|j IHj]; intros Hj; cbn zeta.
      - split; [intros; lia|reflexivity].
      - rewrite for_loop_last by lia. cbn zeta in IHj.
        destruct IHj as [IHv IHo]; [lia|]. split.
        + intros ig' k' Hig' Hk'. unfold NDIM in Hk'.
          destruct (Nat.eq_dec ig' j) as [->|Hne].
          * destruct k' as [|[|k']]; [| |lia].
            -- rewrite upd3_other by (right; right; lia). apply upd3_same.
            -- apply upd3_same.
          * rewrite !upd3_other by (right; left; assumption).
            apply IHv; [lia|assumption].
        + intros ied' ig' k' Hne.
          rewrite !upd3_other by (left; assumption). now apply IHo. }
    destruct (Hinner NGAUSS (le_n _)) as [Hv Ho]. cbn zeta in Hv, Ho.
    destruct (Nat.eq_dec ied n) as [->|Hne].
    + exact (Hv ig k Hig Hk).
    + assert (Hlt : ied < n) by lia.
      exact (eq_trans (Ho ied ig k Hne) (IH ied ig k Hlt Hig Hk)).
Qed.

End GaussPoints.

Section GaussPointsReal.

Local Open Scope R_scope.

(** Every Gauss point lies strictly inside its face, at the parameter
    (ig + 1) / (NGAUSS + 1) between the two end nodes; Gauss points ig and
    NGAUSS - 1 - ig are mirror images of each other in the midpoint. *)
Theorem gauss_points_lie_inside_the_face
  (NGAUSS : nat) (mesh : @UMesh2dh R) (gr0 : nat -> nat -> nat -> R)
  (ied ig k : nat) :
  let t := (INR ig + 1) / (INR NGAUSS + 1) in
  let a := gcoords mesh (gintfac mesh ied 2) k in
  let b := gcoords mesh (gintfac mesh ied 3) k in
  let gr := compute_gauss_points NGAUSS mesh gr0 in
  (ied < gnaface mesh)%nat -> (ig < NGAUSS)%nat -> (k < NDIM)%nat ->
  0 < t < 1
  /\ gr ied ig k = (1 - t) * a + t * b
  /\ gr ied ig k + gr ied (NGAUSS - 1 - ig)%nat k = a + b.
Proof.
  intros t a b gr Hied Hig Hk.
  assert (Hig' : INR ig + 1 <= INR NGAUSS).
  { rewrite <- S_INR. apply le_INR. lia. }
  assert (Hpos : 0 <= INR ig) by apply pos_INR.
  assert (Hden : 0 < INR NGAUSS + 1) by lra.
  assert (Ht : 0 < t < 1).
  { unfold t. split.
    - apply Rdiv_lt_0_compat; lra.
    - apply Rmult_lt_reg_r with (INR NGAUSS + 1); [lra|].
      unfold Rdiv. rewrite Rmult_assoc, Rinv_l by lra. lra. }
  split; [exact Ht|].
  unfold gr. rewrite !gauss_point_entry by (assumption || lia).
  cbn [s_add s_sub s_mul s_div s_one s_of_nat Scalar_R]. fold a b. fold t.
  split; [ring|].
  rewrite minus_INR by lia. rewrite minus_INR by lia.
  change (INR 1) with 1.
  replace ((INR NGAUSS - 1 - INR ig + 1) / (INR NGAUSS + 1)) with (1 - t)
    by (unfold t; field; lra).
  ring.
Qed.

End GaussPointsReal.

Section ReflectionAboutFace.

Context {T : Type} {ST : Scalar T} {SO : ScalarOrder T}.

(** What [compute_ghost_cell_coords_about_face] stores for a boundary
    face. *)
Lemma ghost_about_face_entry (A_SMALL_NUMBER : T) (mesh : @UMesh2dh T)
  (rc rcg0 : nat -> nat -> T) (ied : nat) :
  ied < gnbface mesh ->
  let rcg := compute_ghost_cell_coords_about_face A_SMALL_NUMBER mesh rc rcg0 in
  let p := reflection_point A_SMALL_NUMBER mesh rc ied in
  rcg ied 0 = s_sub (s_mul s_two (fst p)) (rc (gintfac mesh ied 0) 0)
  /\ rcg ied 1 = s_sub (s_mul s_two (snd p)) (rc (gintfac mesh ied 0) 1).
Proof.
  intros Hied. cbn zeta. unfold compute_ghost_cell_coords_about_face.
  revert ied Hied.
  apply (for_loop_invariant
           (fun n rcg => forall ied, ied < n ->
              rcg ied 0
              = s_sub (s_mul s_two (fst (reflection_point A_SMALL_NUMBER mesh rc ied)))
                      (rc (gintfac mesh ied 0) 0)
              /\ rcg ied 1
                 = s_sub (s_mul s_two (snd (reflection_point A_SMALL_NUMBER mesh rc ied)))
                         (rc (gintfac mesh ied 0) 1))).
  - lia.
  - intros ied Hied; lia.
  - intros n rcg _ IH ied Hied.
    destruct (reflection_point A_SMALL_NUMBER mesh rc n) as [xs ys] eqn:Ep.
    destruct (Nat.eq_dec ied n) as [->|Hne].
    + rewrite Ep. cbn [fst snd].
      rewrite upd2_other by (right; lia). rewrite !upd2_same. split; reflexivity.
    + rewrite !upd2_other by (left; assumption). apply IH. lia.
Qed.

End ReflectionAboutFace.

Section ReflectionAboutFaceReal.

Local Open Scope R_scope.

Lemma s_gtb_R (x y : R) : s_gtb x y = true <-> x > y.
Proof.
  cbn. destruct (Rgt_dec x y); split; intros; try assumption;
    try reflexivity; try discriminate; contradiction.
Qed.

(** For a boundary face whose normal has both components larger in
    magnitude than the threshold, whose end nodes differ in x and whose
    slope differs from that of the normal, the point halfway between the
    cell centre and the ghost centre lies on the line through the end
    nodes, and the ghost centre is displaced from the cell centre along
    the normal: the ghost cell is the mirror image in the face. *)
Theorem ghost_about_face_mirrors_in_the_face_line
  (A_SMALL_NUMBER : R) (mesh : @UMesh2dh R) (rc rcg0 : nat -> nat -> R) (ied : nat) :
  let rcg := compute_ghost_cell_coords_about_face A_SMALL_NUMBER mesh rc rcg0 in
  let nx := ggallfa mesh ied 0 in
  let ny := ggallfa mesh ied 1 in
  let xi := rc (gintfac mesh ied 0) 0%nat in
  let yi := rc (gintfac mesh ied 0) 1%nat in
  let x1 := gcoords mesh (gintfac mesh ied 2) 0 in
  let x2 := gcoords mesh (gintfac mesh ied 3) 0 in
  let y1 := gcoords mesh (gintfac mesh ied 2) 1 in
  let y2 := gcoords mesh (gintfac mesh ied 3) 1 in
  (ied < gnbface mesh)%nat ->
  0 <= A_SMALL_NUMBER ->
  Rabs nx > A_SMALL_NUMBER -> Rabs ny > A_SMALL_NUMBER ->
  x2 <> x1 ->
  (y2 - y1) / (x2 - x1) <> ny / nx ->
  ((rcg ied 1%nat + yi) / 2 - y1) * (x2 - x1) = (y2 - y1) * ((rcg ied 0%nat + xi) / 2 - x1)
  /\ (rcg ied 0%nat - xi) * ny = (rcg ied 1%nat - yi) * nx.
Proof.
  intros rcg nx ny xi yi x1 x2 y1 y2 Hied HA Hnx Hny Hx Hslope.
  destruct (ghost_about_face_entry A_SMALL_NUMBER mesh rc rcg0 Hied) as [H0 H1].
  cbn zeta in H0, H1. fold rcg in H0, H1.
  unfold reflection_point in H0, H1.
  fold nx ny xi yi x1 x2 y1 y2 in H0, H1.
  apply s_gtb_R in Hnx as Hbx. apply s_gtb_R in Hny as Hby.
  change (s_abs nx) with (Rabs nx) in H0, H1.
  change (s_abs ny) with (Rabs ny) in H0, H1.
  rewrite Hbx, Hby in H0, H1. cbn [andb fst snd] in H0, H1.
  cbn [s_add s_sub s_mul s_div s_two Scalar_R] in H0, H1.
  assert (Hnx0 : nx <> 0).
  { intros E. rewrite E, Rabs_R0 in Hnx. lra. }
  assert (Hd : x2 - x1 <> 0) by lra.
  assert (Hs : (y2 - y1) / (x2 - x1) - ny / nx <> 0) by lra.
  assert (Hp : (y2 - y1) * nx - ny * (x2 - x1) <> 0).
  { intros E. apply Hs.
    replace ((y2 - y1) / (x2 - x1) - ny / nx)
      with (((y2 - y1) * nx - ny * (x2 - x1)) / ((x2 - x1) * nx))
      by (field; split; assumption).
    rewrite E. unfold Rdiv. ring. }
  rewrite H0, H1. split; field; repeat split; assumption.
Qed.

(** For a boundary face whose normal has a negligible x component the
    ghost centre is the cell centre mirrored in the horizontal line
    through the first end node; when only the y component is negligible
    it is mirrored in the vertical line through the first end node. *)
Theorem ghost_about_face_axis_aligned
  (A_SMALL_NUMBER : R) (mesh : @UMesh2dh R) (rc rcg0 : nat -> nat -> R) (ied : nat) :
  let rcg := compute_ghost_cell_coords_about_face A_SMALL_NUMBER mesh rc rcg0 in
  let nx := ggallfa mesh ied 0 in
  let ny := ggallfa mesh ied 1 in
  let xi := rc (gintfac mesh ied 0) 0%nat in
  let yi := rc (gintfac mesh ied 0) 1%nat in
  let x1 := gcoords mesh (gintfac mesh ied 2) 0 in
  let y1 := gcoords mesh (gintfac mesh ied 2) 1 in
  (ied < gnbface mesh)%nat ->
  (Rabs nx <= A_SMALL_NUMBER -> rcg ied 0%nat = xi /\ rcg ied 1%nat = 2 * y1 - yi)
  /\ (Rabs nx > A_SMALL_NUMBER -> Rabs ny <= A_SMALL_NUMBER ->
      rcg ied 0%nat = 2 * x1 - xi /\ rcg ied 1%nat = yi).
Proof.
  intros rcg nx ny xi yi x1 y1 Hied.
  destruct (ghost_about_face_entry A_SMALL_NUMBER mesh rc rcg0 Hied) as [H0 H1].
  cbn zeta in H0, H1. fold rcg in H0, H1.
  unfold reflection_point in H0, H1.
  fold nx ny xi yi x1 y1 in H0, H1.
  split.
  - intros Hnx.
    assert (Hbx : s_gtb (Rabs nx) A_SMALL_NUMBER = false).
    { destruct (s_gtb (Rabs nx) A_SMALL_NUMBER) eqn:E; [|reflexivity].
      apply s_gtb_R in E. lra. }
    assert (Hlx : s_leb (Rabs nx) A_SMALL_NUMBER = true) by (apply s_leb_R; exact Hnx).
    change (s_abs nx) with (Rabs nx) in H0, H1.
    rewrite Hbx, Hlx in H0, H1. cbn [andb fst snd] in H0, H1.
    cbn [s_sub s_mul s_two Scalar_R] in H0, H1. rewrite H0, H1. split; ring.
  - intros Hnx Hny.
    assert (Hby : s_gtb (Rabs ny) A_SMALL_NUMBER = false).
    { destruct (s_gtb (Rabs ny) A_SMALL_NUMBER) eqn:E; [|reflexivity].
      apply s_gtb_R in E. lra. }
    assert (Hlx : s_leb (Rabs nx) A_SMALL_NUMBER = false).
    { destruct (s_leb (Rabs nx) A_SMALL_NUMBER) eqn:E; [|reflexivity].
      apply s_leb_R in E. lra. }
    change (s_abs nx) with (Rabs nx) in H0, H1.
    change (s_abs ny) with (Rabs ny) in H0, H1.
    rewrite Hby, Hlx, andb_false_r in H0, H1. cbn [fst snd] in H0, H1.
    cbn [s_sub s_mul s_two Scalar_R] in H0, H1. rewrite H0, H1. split; ring.
Qed.

End ReflectionAboutFaceReal.

(** ** Post-processing *)

Section EntropyError.

Local Open Scope R_scope.

Context {PO : @PhysicsOps R} {EO : @EntropyOps R}.
Variable uninit : nat -> @State R.

(** When every cell holds the free-stream state, the entropy error that
    [compute_entropy_cell] returns is zero. *)
Theorem entropy_error_of_free_stream_is_zero (fv : @FlowFV R) (u : @MVector R) :
  (forall iel, (iel < gnelem (m (base fv)))%nat -> u iel = uinf fv) ->
  compute_entropy_cell uninit fv u = 0.
Proof.
  intros Hu. unfold compute_entropy_cell.
  match goal with
  | |- context [let '(a, b) := ?P in _] =>
      assert (H : snd P = 0); [|destruct P as [s_err error]]
  end.
  - apply (for_loop_invariant (fun _ (st : (nat -> R) * R) => snd st = 0)).
    + lia.
    + reflexivity.
    + intros iel [s_err error] Hiel Hst. cbn [snd] in *.
      rewrite upd_same, Hu by lia. rewrite Hst.
      cbn [s_add s_sub s_mul s_div Scalar_R]. unfold Rdiv. ring.
  - cbn [snd] in H. rewrite H. apply sqrt_0.
Qed.

End EntropyError.

Section NodalAverages.

Local Open Scope R_scope.

Context {PO : @PhysicsOps R}.
Variable uninit : nat -> @State R.

(** The innermost loop of the accumulation, lines 825-829, for one cell
    and one of its nodes. *)
Lemma accumulate_node_step (U : @State R) (A : R) (ip : nat)
  (st : @MVector R * (nat -> R)) (p : nat) :
  let st' := for_loop 0 NVARS (fun ivar '(up, areasum) =>
               (upd up ip (vset (up ip) ivar (s_add (vget (up ip) ivar)
                                                    (s_mul (vget U ivar) A))),
                upd areasum ip (s_add (areasum ip) A))) st in
  fst st' p = (if Nat.eqb p ip then vmap2 (fun x y => x + y * A) (fst st ip) U
               else fst st p)
  /\ snd st' p = (if Nat.eqb p ip then snd st ip + A + A + A + A else snd st p).
Proof.
  destruct st as [up areasum]. cbn zeta.
  unfold NVARS, for_loop. cbn [seq Nat.sub fold_left fst snd].
  destruct (Nat.eqb_spec p ip) as [->|Hne].
  - rewrite !upd_same. split; [apply vec4_ext|]; reflexivity.
  - rewrite !upd_other by assumption. split; reflexivity.
Qed.

Lemma accumulate_at_nodes_uniform (fv : @FlowFV R) (u : @MVector R) (U : @State R) :
  (forall c, (c < gnelem (m (base fv)))%nat -> u c = U) ->
  (forall c, (c < gnelem (m (base fv)))%nat -> 0 < garea (m (base fv)) c) ->
  accumulated U
    (fun p => exists c n, (c < gnelem (m (base fv)))%nat
                          /\ (n < gnnode (m (base fv)) c)%nat
                          /\ ginpoel (m (base fv)) c n = p)
    (accumulate_at_nodes fv u).
Proof.
  intros Hu Harea. unfold accumulate_at_nodes.
  set (mesh := m (base fv)) in *.
  apply (for_loop_invariant
           (fun k st => accumulated U
              (fun p => exists c n, (c < k)%nat /\ (n < gnnode mesh c)%nat
                                    /\ ginpoel mesh c n = p) st)).
  - lia.
  - intros p. exists 0. cbn [fst snd]. repeat split; try lra.
    + unfold vconst, vmap. cbn. f_equal; ring.
    + cbn. ring.
    + intros (c & n & Hc & _). lia.
  - intros k st Hk Hst.
    assert (Hinner : accumulated U
              (fun p => (exists c n, (c < k)%nat /\ (n < gnnode mesh c)%nat
                                     /\ ginpoel mesh c n = p)
                        \/ exists n, (n < gnnode mesh k)%nat /\ ginpoel mesh k n = p)
              (for_loop 0 (gnnode mesh k) (fun inode st =>
                 for_loop 0 NVARS (fun ivar '(up, areasum) =>
                   let ip := ginpoel mesh k inode in
                   (upd up ip (vset (up ip) ivar
                                 (s_add (vget (up ip) ivar)
                                        (s_mul (vget (u k) ivar) (garea mesh k)))),
                    upd areasum ip (s_add (areasum ip) (garea mesh k))))
                   st) st)).
    { apply (for_loop_invariant
               (fun j st => accumulated U
                  (fun p => (exists c n, (c < k)%nat /\ (n < gnnode mesh c)%nat
                                         /\ ginpoel mesh c n = p)
                            \/ exists n, (n < j)%nat /\ ginpoel mesh k n = p) st)).
      - lia.
      - intros p. destruct (Hst p) as (s & Hs & Hup & Har & Hseen).
        exists s. repeat split; try assumption.
        intros [H|(n & Hn & _)]; [now apply Hseen|lia].
      - intros j st' Hj Hst'. unfold accumulated in *. cbv beta. intros p.
        match goal with
        | |- exists s, _ /\ @fst ?A ?B ?X p = _ /\ _ =>
            assert (HX : @fst A B X p
                         = (if Nat.eqb p (ginpoel mesh k j)
                            then vmap2 (fun x y => x + y * garea mesh k)
                                       (fst st' (ginpoel mesh k j)) (u k)
                            else fst st' p)
                         /\ @snd A B X p
                            = (if Nat.eqb p (ginpoel mesh k j)
                               then snd st' (ginpoel mesh k j) + garea mesh k
                                    + garea mesh k + garea mesh k + garea mesh k
                               else snd st' p))
              by exact (accumulate_node_step (u k) (garea mesh k)
                          (ginpoel mesh k j) st' p);
            destruct HX as [Hf Hs]; rewrite Hf, Hs
        end.
        assert (HA : 0 < garea mesh k) by (apply Harea; lia).
        destruct (Nat.eqb_spec p (ginpoel mesh k j)) as [Heq|Hne].
        + rewrite <- Heq.
          destruct (Hst' p) as (s & Hs0 & Hup & Har & Hseen).
          exists (s + garea mesh k). rewrite Hup, Har, Hu by lia.
          repeat split; try lra.
          unfold vmap2, vmap. cbn [e0 e1 e2 e3]. f_equal; ring.
        + destruct (Hst' p) as (s & Hs0 & Hup & Har & Hseen).
          exists s. repeat split; try assumption.
          intros [H|(n & Hn & Hp)]; [apply Hseen; now left|].
          destruct (Nat.eq_dec n j) as [->|Hnj]; [congruence|].
          apply Hseen. right. exists n. split; [lia|assumption]. }
    intros p. destruct (Hinner p) as (s & Hs & Hup & Har & Hseen).
    exists s. repeat split; try assumption.
    intros (c & n & Hc & Hn & Hp).
    apply Hseen. destruct (Nat.eq_dec c k) as [->|Hck].
    + right. exists n. auto.
    + left. exists c, n. repeat split; try assumption; lia.
Qed.

(** The division loop, lines 832-834. *)
Lemma divide_row (a : R) (ipoin : nat) (up : @MVector R) (p : nat) :
  for_loop 0 NVARS (fun ivar up =>
      upd up ipoin (vset (up ipoin) ivar (s_div (vget (up ipoin) ivar) a))) up p
  = if Nat.eqb p ipoin then vmap (fun x => x / a) (up ipoin) else up p.
Proof.
  unfold NVARS, for_loop. cbn [seq Nat.sub fold_left].
  unfold upd at 1.
  destruct (Nat.eqb_spec p ipoin) as [->|Hne].
  - rewrite !upd_same. apply vec4_ext; reflexivity.
  - rewrite !upd_other by assumption. reflexivity.
Qed.

Lemma divide_loop (areasum : nat -> R) (n : nat) (up : @MVector R) (p : nat) :
  for_loop 0 n (fun ipoin up =>
    for_loop 0 NVARS (fun ivar up =>
      upd up ipoin (vset (up ipoin) ivar (s_div (vget (up ipoin) ivar) (areasum ipoin))))
      up) up p
  = if p <? n then vmap (fun x => x / areasum p) (up p) else up p.
Proof.
  induction n as [|n IH].
  - reflexivity.
  - rewrite for_loop_last by lia. rewrite divide_row.
    destruct (Nat.eqb_spec p n) as [->|Hne].
    + rewrite IH.
      destruct (Nat.ltb_spec n n); [lia|].
      destruct (Nat.ltb_spec n (S n)); [reflexivity|lia].
    + rewrite IH.
      destruct (Nat.ltb_spec p n), (Nat.ltb_spec p (S n)); try reflexivity; lia.
Qed.

(** What the last loop of [postprocess_point] stores for a node. *)
Lemma postprocess_point_rows (gnpoin : nat) (fv : @FlowFV R) (u : @MVector R)
  (p : nat) :
  (p < gnpoin)%nat ->
  let up := nodal_averages gnpoin fv u in
  let out := postprocess_point uninit gnpoin fv u in
  fst out p 0%nat = e0 (up p)
  /\ snd out p 0%nat = e1 (up p) / e0 (up p)
  /\ snd out p 1%nat = e2 (up p) / e0 (up p)
  /\ fst out p 2%nat = getPressureFromConserved (physics fv) (up p).
Proof.
  intros Hp. cbn zeta. unfold postprocess_point.
  set (up := nodal_averages gnpoin fv u).
  revert p Hp.
  apply (for_loop_invariant
           (fun k (st : (nat -> nat -> R) * (nat -> nat -> R)) =>
              forall p, (p < k)%nat ->
                fst st p 0%nat = e0 (up p)
                /\ snd st p 0%nat = e1 (up p) / e0 (up p)
                /\ snd st p 1%nat = e2 (up p) / e0 (up p)
                /\ fst st p 2%nat = getPressureFromConserved (physics fv) (up p))).
  - lia.
  - intros p Hp; lia.
  - intros k [scalars velocities] _ IH p Hp. cbn [fst snd] in *.
    destruct (Nat.eq_dec p k) as [->|Hne].
    + repeat split;
        repeat (rewrite upd2_other by (right; lia));
        rewrite upd2_same; reflexivity.
    + rewrite !upd2_other by (left; assumption). apply IH. lia.
Qed.

(** For a solution that holds the same state U in every cell, on a mesh
    of cells of positive area, [postprocess_point] gives at every node of
    a cell the velocity of U, but the density of U divided by NVARS = 4,
    and the pressure of U / 4: the area sum of a node is incremented once
    for each of the four variables. *)
Theorem postprocess_point_of_uniform_state
  (gnpoin : nat) (fv : @FlowFV R) (u : @MVector R) (U : @State R) (c0 n0 : nat) :
  let mesh := m (base fv) in
  let p := ginpoel mesh c0 n0 in
  let out := postprocess_point uninit gnpoin fv u in
  (forall c, (c < gnelem mesh)%nat -> u c = U) ->
  (forall c, (c < gnelem mesh)%nat -> 0 < garea mesh c) ->
  (c0 < gnelem mesh)%nat -> (n0 < gnnode mesh c0)%nat -> (p < gnpoin)%nat ->
  e0 U <> 0 ->
  nodal_averages gnpoin fv u p = vmap (fun x => x / 4) U
  /\ fst out p 0%nat = e0 U / 4
  /\ snd out p 0%nat = e1 U / e0 U
  /\ snd out p 1%nat = e2 U / e0 U
  /\ fst out p 2%nat = getPressureFromConserved (physics fv) (vmap (fun x => x / 4) U).
Proof.
  intros mesh p out Hu Harea Hc0 Hn0 Hp HU.
  assert (Hup : nodal_averages gnpoin fv u p = vmap (fun x => x / 4) U).
  { unfold nodal_averages.
    pose proof (accumulate_at_nodes_uniform fv u Hu Harea p) as (s & Hs & Hf & Har & Hseen).
    destruct (accumulate_at_nodes fv u) as [up areasum]. cbn [fst snd] in *.
    rewrite divide_loop.
    destruct (Nat.ltb_spec p gnpoin); [|lia].
    assert (Hpos : 0 < s).
    { apply Hseen. exists c0, n0. repeat split; assumption. }
    rewrite Hf, Har. unfold vmap. cbn [e0 e1 e2 e3].
    f_equal; field; lra. }
  destruct (postprocess_point_rows fv u Hp) as (H0 & H1 & H2 & H3).
  cbn zeta in H0, H1, H2, H3. fold out in H0, H1, H2, H3.
  rewrite Hup in H0, H1, H2, H3. cbn [vmap e0 e1 e2 e3] in H0, H1, H2.
  repeat split; try assumption.
  - rewrite H1. field. exact HU.
  - rewrite H2. field. exact HU.
Qed.

End NodalAverages.

(** ** The diffusion discretisation *)

(** A loop that stores the same value into [n] consecutive entries. *)
Lemma for_loop_fill_offset {X : Type} (b n : nat) (x : X) (a : nat -> X) (q : nat) :
  for_loop 0 n (fun j a => upd a (b + j) x) a q
  = if (b <=? q) && (q <? b + n) then x else a q.
Proof.
  induction n as [|n IH].
  - rewrite for_loop_empty by lia.
    destruct (Nat.leb_spec b q), (Nat.ltb_spec q (b + 0)); cbn [andb];
      try reflexivity; lia.
  - rewrite for_loop_last by lia.
    destruct (Nat.eq_dec q (b + n)) as [->|Hne].
    + rewrite upd_same.
      destruct (Nat.leb_spec b (b + n)), (Nat.ltb_spec (b + n) (b + S n)); cbn;
        try reflexivity; lia.
    + rewrite upd_other by assumption. rewrite IH.
      destruct (Nat.leb_spec b q), (Nat.ltb_spec q (b + n)),
        (Nat.ltb_spec q (b + S n)); cbn; try reflexivity; lia.
Qed.

(** A loop that stores into the entries of row [r]. *)
Lemma for_loop_fill_row {X : Type} (f : nat -> X) (r n : nat)
  (a : nat -> nat -> X) (i v : nat) :
  for_loop 0 n (fun k a => upd2 a r k (f k)) a i v
  = if (i =? r) && (v <? n) then f v else a i v.
Proof.
  induction n as [|n IH].
  - rewrite for_loop_empty by lia.
    destruct (i =? r), (Nat.ltb_spec v 0); cbn [andb]; try reflexivity; lia.
  - rewrite for_loop_last by lia.
    destruct (Nat.eq_dec i r) as [->|Hi].
    + rewrite Nat.eqb_refl in *. cbn [andb] in *.
      destruct (Nat.eq_dec v n) as [->|Hv].
      * rewrite upd2_same.
        destruct (Nat.ltb_spec n (S n)); [reflexivity|lia].
      * rewrite upd2_other by (right; assumption). rewrite IH.
        destruct (Nat.ltb_spec v n), (Nat.ltb_spec v (S n)); try reflexivity; lia.
    + rewrite upd2_other by (left; assumption). rewrite IH.
      apply Nat.eqb_neq in Hi. rewrite Hi. reflexivity.
Qed.

Lemma flat_index_lt (n i i' j : nat) : i < i' -> j < n -> i * n + j < i' * n.
Proof. intros Hi Hj. nia. Qed.

Lemma flat_index_inj (n i j i' j' : nat) :
  j < n -> j' < n -> i * n + j = i' * n + j' -> i = i' /\ j = j'.
Proof.
  intros Hj Hj' E.
  destruct (lt_eq_lt_dec i i') as [[Hlt|Heq]|Hgt].
  - pose proof (flat_index_lt Hlt Hj). lia.
  - subst. split; [reflexivity|lia].
  - pose proof (flat_index_lt Hgt Hj'). lia.
Qed.

Section DiffusionLoops.

Context {T : Type} {ST : Scalar T}.

(** The buffer after lines 1113-1118: [a] times the identity. *)
Lemma fill_diagonal_entry (nvars : nat) (a : T) (ll0 : nat -> T) (i j : nat) :
  i < nvars -> j < nvars ->
  fill_diagonal nvars a ll0 (i * nvars + j) = if i =? j then a else s_zero.
Proof.
  intros Hi Hj. unfold fill_diagonal.
  pose (P := fun (k : nat) (ll : nat -> T) =>
    forall i j, i < k -> j < nvars ->
      ll (i * nvars + j) = if i =? j then a else s_zero).
  refine (for_loop_invariant P (lo := 0) (hi := nvars) _ _ _ _ _ i j Hi Hj).
  - lia.
  - intros ? ? H; lia.
  - intros k ll Hk HP i' j' Hi' Hj'.
    destruct (Nat.eq_dec i' k) as [->|Hne].
    + destruct (Nat.eq_dec j' k) as [->|Hnj].
      * rewrite upd_same, Nat.eqb_refl. reflexivity.
      * rewrite upd_other by lia. rewrite for_loop_fill_offset.
        destruct (Nat.leb_spec (k * nvars) (k * nvars + j')); [|lia].
        destruct (Nat.ltb_spec (k * nvars + j') (k * nvars + nvars)); [|lia].
        cbn [andb]. assert (Hf : (k =? j') = false) by (apply Nat.eqb_neq; lia).
        rewrite Hf. reflexivity.
    + assert (Hlt : i' < k) by lia.
      pose proof (flat_index_lt Hlt Hj').
      rewrite upd_other by lia. rewrite for_loop_fill_offset.
      destruct (Nat.leb_spec (k * nvars) (i' * nvars + j')); [lia|].
      cbn [andb]. apply HP; assumption.
Qed.

(** The buffer after lines 1130-1131: the diagonal is multiplied by -1. *)
Lemma negate_diagonal_entry (nvars : nat) (ll : nat -> T) (i j : nat) :
  i < nvars -> j < nvars ->
  for_loop 0 nvars (fun ivar (ll : nat -> T) =>
      upd ll (ivar * nvars + ivar) (s_mul (ll (ivar * nvars + ivar)) (s_opp s_one))) ll
    (i * nvars + j)
  = if i =? j then s_mul (ll (i * nvars + i)) (s_opp s_one) else ll (i * nvars + j).
Proof.
  intros Hi Hj.
  pose (P := fun (k : nat) (ll' : nat -> T) =>
    forall i j, i < nvars -> j < nvars ->
      ll' (i * nvars + j)
      = if (i =? j) && (i <? k) then s_mul (ll (i * nvars + i)) (s_opp s_one)
        else ll (i * nvars + j)).
  assert (H : P nvars (for_loop 0 nvars (fun ivar (ll : nat -> T) =>
      upd ll (ivar * nvars + ivar) (s_mul (ll (ivar * nvars + ivar)) (s_opp s_one))) ll)).
  { apply for_loop_invariant.
    - lia.
    - intros i' j' _ _. destruct (i' =? j'); reflexivity.
    - intros k ll' Hk HP i' j' Hi' Hj'.
      destruct (Nat.eq_dec (i' * nvars + j') (k * nvars + k)) as [E|Hne].
      + destruct (@flat_index_inj nvars i' j' k k Hj' (proj2 Hk) E) as [-> ->].
        rewrite upd_same, Nat.eqb_refl.
        destruct (Nat.ltb_spec k (S k)); [|lia]. cbn [andb].
        rewrite (HP k k) by lia. rewrite Nat.eqb_refl.
        destruct (Nat.ltb_spec k k); [lia|]. reflexivity.
      + rewrite upd_other by assumption. rewrite (HP i' j') by assumption.
        destruct (Nat.eqb_spec i' j') as [->|Hij]; [|reflexivity]. cbn [andb].
        assert (j' <> k) by (intros ->; apply Hne; reflexivity).
        destruct (Nat.ltb_spec j' k), (Nat.ltb_spec j' (S k)); try reflexivity; lia. }
  rewrite (H i j Hi Hj).
  destruct (Nat.eqb_spec i j) as [->|Hij]; [|reflexivity].
  destruct (Nat.ltb_spec j nvars); [|lia]. reflexivity.
Qed.

(** A buffer that holds [a] times the identity is recorded as the
    diagonal block of [a]. *)
Lemma entries_diagonal (nvars : nat) (a : T) (ll : nat -> T) :
  (forall i j, i < nvars -> j < nvars ->
     ll (i * nvars + j) = if i =? j then a else s_zero) ->
  entries nvars ll = diagonal_block nvars a.
Proof.
  intros H. unfold entries, diagonal_block.
  apply map_ext_in. intros q Hq. apply in_seq in Hq.
  assert (Hn : nvars <> 0) by (intros ->; lia).
  assert (Hi : q / nvars < nvars) by (apply Nat.Div0.div_lt_upper_bound; lia).
  assert (Hj : q mod nvars < nvars) by (apply Nat.mod_upper_bound; assumption).
  rewrite <- (H _ _ Hi Hj). f_equal.
  rewrite (Nat.div_mod_eq q nvars) at 1. lia.
Qed.

End DiffusionLoops.

Section DiffusionReal.

Variable uninit : nat -> @State R.
Variable nvars : nat.
Local Open Scope R_scope.

(** After the constructor of [Diffusion], [h] of a cell is non-negative,
    at least the length of each of its faces, and either zero or the
    length of one of its faces. *)
Theorem longest_face_bounds_every_face
  (gnfael : nat -> nat) (gelemface : nat -> nat -> nat)
  (mesh : @UMesh2dh R) (h0 : nat -> R) (iel : nat) :
  let h := longest_faces gnfael gelemface mesh h0 in
  (iel < gnelem mesh)%nat ->
  0 <= h iel
  /\ (forall ifael, (ifael < gnfael iel)%nat ->
        ggallfa mesh (gelemface iel ifael) 2 <= h iel)
  /\ (h iel = 0
      \/ exists ifael, (ifael < gnfael iel)%nat
                       /\ h iel = ggallfa mesh (gelemface iel ifael) 2).
Proof.
  intros h Hiel. subst h. unfold longest_faces.
  pose (good := fun (i : nat) (x : R) =>
    0 <= x
    /\ (forall ifael, (ifael < gnfael i)%nat ->
          ggallfa mesh (gelemface i ifael) 2 <= x)
    /\ (x = 0 \/ exists ifael, (ifael < gnfael i)%nat
                               /\ x = ggallfa mesh (gelemface i ifael) 2)).
  pose (P := fun (k : nat) (h : nat -> R) => forall i, (i < k)%nat -> good i (h i)).
  refine (for_loop_invariant P (lo := 0%nat) (hi := gnelem mesh) _ _ _ _ _ iel Hiel).
  - lia.
  - intros ? H; lia.
  - intros k h Hk HP.
    pose (Q := fun (n : nat) (h' : nat -> R) =>
      (forall j, j <> k -> h' j = h j)
      /\ 0 <= h' k
      /\ (forall ifael, (ifael < n)%nat ->
            ggallfa mesh (gelemface k ifael) 2 <= h' k)
      /\ (h' k = 0 \/ exists ifael, (ifael < n)%nat
                                    /\ h' k = ggallfa mesh (gelemface k ifael) 2)).
    assert (HQ : Q (gnfael k) (for_loop 0 (gnfael k) (fun ifael h =>
        let face := gelemface k ifael in
        if s_gtb (ggallfa mesh face 2) (h k)
        then upd h k (ggallfa mesh face 2) else h) (upd h k s_zero))).
    { apply for_loop_invariant.
      - lia.
      - unfold Q. rewrite upd_same. cbn [s_zero Scalar_R].
        repeat split.
        + intros j Hj. apply upd_other; assumption.
        + lra.
        + intros ? ?; lia.
        + left; reflexivity.
      - intros n h' Hn (Hframe & Hpos & Hle & Hatt). cbn zeta.
        destruct (s_gtb (ggallfa mesh (gelemface k n) 2) (h' k)) eqn:E.
        + apply s_gtb_R in E. unfold Q. rewrite upd_same. repeat split.
          * intros j Hj. rewrite upd_other by assumption. apply Hframe; assumption.
          * lra.
          * intros f Hf. destruct (Nat.eq_dec f n) as [->|Hne]; [lra|].
            assert (Hlt : (f < n)%nat) by lia. specialize (Hle f Hlt). lra.
          * right. exists n. split; [lia|reflexivity].
        + assert (Hng : ~ ggallfa mesh (gelemface k n) 2 > h' k).
          { intros Hgt. apply s_gtb_R in Hgt. congruence. }
          unfold Q. repeat split.
          * exact Hframe.
          * exact Hpos.
          * intros f Hf. destruct (Nat.eq_dec f n) as [->|Hne]; [lra|].
            apply Hle. lia.
          * destruct Hatt as [H0|(f & Hf & Hfe)]; [left; exact H0|].
            right. exists f. split; [lia|exact Hfe]. }
    destruct HQ as (Hframe & Hpos & Hle & Hatt).
    intros i Hi. destruct (Nat.eq_dec i k) as [->|Hne].
    + unfold good. repeat split; assumption.
    + rewrite Hframe by assumption. apply HP. lia.
Qed.

(** The states gathered by the first loop of [compute_residual]. *)
Lemma boundary_interior_states_entry (d : @Diffusion R) (u ul0 : nat -> nat -> R)
  (ied ivar : nat) :
  (ied < gnbface (m (dbase d)))%nat -> (ivar < nvars)%nat ->
  boundary_interior_states nvars d u ul0 ied ivar
  = u (gintfac (m (dbase d)) ied 0) ivar.
Proof.
  intros Hied Hivar. unfold boundary_interior_states. cbn zeta.
  pose (P := fun (k : nat) (a : nat -> nat -> R) =>
    forall i v, (i < k)%nat -> (v < nvars)%nat ->
      a i v = u (gintfac (m (dbase d)) i 0) v).
  refine (for_loop_invariant P (lo := 0%nat) (hi := gnbface (m (dbase d)))
            _ _ _ _ _ ied ivar Hied Hivar).
  - lia.
  - intros ? ? H; lia.
  - intros k a Hk HP i v Hi Hv.
    rewrite (for_loop_fill_row (fun v => u (gintfac (m (dbase d)) k 0) v)).
    destruct (Nat.eqb_spec i k) as [->|Hne].
    + destruct (Nat.ltb_spec v nvars); [reflexivity|lia].
    + cbn [andb]. apply HP; [lia|assumption].
Qed.

(** The ghost value that [DiffusionMA::compute_residual] hands to the
    gradient reconstruction at a boundary face is 2 bval - u of the
    interior cell, whatever the two work arrays held: the mean of the
    interior and the ghost value is the boundary value. *)
Theorem diffusion_ghost_states_are_dirichlet
  (d : @Diffusion R) (u ul0 ug0 : nat -> nat -> R) (ied ivar : nat) :
  let mesh := m (dbase d) in
  let ug := Diffusion_compute_boundary_states nvars d
              (boundary_interior_states nvars d u ul0) ug0 in
  (ied < gnbface mesh)%nat -> (ivar < nvars)%nat ->
  ug ied ivar = 2 * bval d - u (gintfac mesh ied 0) ivar
  /\ (u (gintfac mesh ied 0) ivar + ug ied ivar) / 2 = bval d.
Proof.
  intros mesh ug Hied Hivar.
  assert (E : ug ied ivar = 2 * bval d - u (gintfac mesh ied 0) ivar).
  { subst ug. unfold Diffusion_compute_boundary_states.
    rewrite (for_loop_map_own
               (fun ied row => Diffusion_compute_boundary_state nvars d ied
                  (boundary_interior_states nvars d u ul0 ied) row)).
    fold mesh. destruct (Nat.ltb_spec ied (gnbface mesh)); [|lia].
    unfold Diffusion_compute_boundary_state.
    rewrite (for_loop_fill
               (fun ivar => s_sub (s_mul s_two (bval d))
                  (boundary_interior_states nvars d u ul0 ied ivar))).
    destruct (Nat.ltb_spec ivar nvars); [|lia].
    rewrite boundary_interior_states_entry by assumption. reflexivity. }
  split; [exact E|]. rewrite E. lra.
Qed.

(** Storing into one entry changes the sum of its column by the change
    of the entry, and no other column. *)
Lemma sum_column_upd2 (n : nat) (a : nat -> nat -> R) (i j : nat) (x : R) :
  sum_column n (upd2 a i j x) j
  = sum_column n a j + (if (i <? n)%nat then x - a i j else 0).
Proof.
  unfold sum_column. induction n as [|n IH].
  - cbn. lra.
  - rewrite !for_loop_last by lia. rewrite IH. cbn [s_add Scalar_R].
    destruct (Nat.eq_dec i n) as [->|Hne].
    + rewrite upd2_same.
      destruct (Nat.ltb_spec n n), (Nat.ltb_spec n (S n)); try lia. lra.
    + rewrite upd2_other by (left; lia).
      destruct (Nat.ltb_spec i n), (Nat.ltb_spec i (S n)); try lia; lra.
Qed.

Lemma sum_column_upd2_other (n : nat) (a : nat -> nat -> R) (i j j' : nat) (x : R) :
  j' <> j -> sum_column n (upd2 a i j x) j' = sum_column n a j'.
Proof.
  intros Hj. unfold sum_column. induction n as [|n IH].
  - reflexivity.
  - rewrite !for_loop_last by lia. rewrite IH.
    rewrite upd2_other by (right; assumption). reflexivity.
Qed.

(** One interior face leaves the sum of every column as it is. *)
Lemma diffusion_interior_face_conserves (dm : @DiffusionMA R)
  (u dudx dudy residual : nat -> nat -> R) (iface ivar : nat) :
  let mesh := m (dbase (diff dm)) in
  (gintfac mesh iface 0 < gnelem mesh)%nat ->
  (gintfac mesh iface 1 < gnelem mesh)%nat ->
  sum_column (gnelem mesh)
    (diffusion_interior_face uninit nvars dm u dudx dudy iface residual) ivar
  = sum_column (gnelem mesh) residual ivar.
Proof.
  intros mesh Hl Hr. unfold diffusion_interior_face. cbn zeta. fold mesh.
  match goal with
  | |- sum_column _ (for_loop 0 nvars ?body residual) ivar = _ =>
      pose (P := fun (k : nat) (res : nat -> nat -> R) =>
        forall j, sum_column (gnelem mesh) res j
                  = sum_column (gnelem mesh) residual j);
      refine (for_loop_invariant P (lo := 0%nat) (hi := nvars) body residual
                _ _ _ ivar)
  end.
  - lia.
  - intros j. reflexivity.
  - intros k res Hk HP j. rewrite <- (HP j).
    destruct (Nat.eq_dec j k) as [->|Hne].
    + rewrite !sum_column_upd2.
      destruct (Nat.ltb_spec (gintfac mesh iface 0) (gnelem mesh)); [|lia].
      destruct (Nat.ltb_spec (gintfac mesh iface 1) (gnelem mesh)); [|lia].
      cbn [s_add s_sub Scalar_R]. lra.
    + rewrite !sum_column_upd2_other by assumption. reflexivity.
Qed.

(** The interior-face loop of [DiffusionMA::compute_residual] conserves:
    when both cells of every interior face are cells of the mesh, the sum
    over the cells of each component of the residual is the same after the
    loop as before, for any gradients. *)
Theorem diffusion_interior_faces_conserve (dm : @DiffusionMA R)
  (u dudx dudy residual : nat -> nat -> R) (ivar : nat) :
  let mesh := m (dbase (diff dm)) in
  (forall iface, (gnbface mesh <= iface < gnaface mesh)%nat ->
     (gintfac mesh iface 0 < gnelem mesh)%nat
     /\ (gintfac mesh iface 1 < gnelem mesh)%nat) ->
  sum_column (gnelem mesh)
    (for_loop (gnbface mesh) (gnaface mesh)
       (diffusion_interior_face uninit nvars dm u dudx dudy) residual) ivar
  = sum_column (gnelem mesh) residual ivar.
Proof.
  intros mesh Hcells.
  destruct (Nat.le_gt_cases (gnbface mesh) (gnaface mesh)) as [Hle|Hgt].
  - pose (P := fun (k : nat) (res : nat -> nat -> R) =>
      sum_column (gnelem mesh) res ivar = sum_column (gnelem mesh) residual ivar).
    apply (for_loop_invariant P); [exact Hle|reflexivity|].
    intros iface res Hi HP. unfold P in *. rewrite <- HP.
    destruct (Hcells iface Hi) as [Hl Hr].
    apply diffusion_interior_face_conserves; assumption.
  - rewrite for_loop_empty by lia. reflexivity.
Qed.

(** The displacement stored in [dr]. *)
Lemma displacement_entries (p q : nat -> R) :
  let dr := for_loop 0 NDIM (fun i dr => upd dr i (s_sub (p i) (q i)))
              (uninit1 uninit) in
  dist_of dr = sqrt ((p 0%nat - q 0%nat) * (p 0%nat - q 0%nat)
                     + (p 1%nat - q 1%nat) * (p 1%nat - q 1%nat))
  /\ forall mesh iface,
       sn_of mesh iface dr
       = (p 0%nat - q 0%nat) / dist_of dr * ggallfa mesh iface 0
         + (p 1%nat - q 1%nat) / dist_of dr * ggallfa mesh iface 1.
Proof.
  intros dr.
  assert (E0 : dr 0%nat = p 0%nat - q 0%nat) by reflexivity.
  assert (E1 : dr 1%nat = p 1%nat - q 1%nat) by reflexivity.
  assert (Ed : dist_of dr = sqrt ((p 0%nat - q 0%nat) * (p 0%nat - q 0%nat)
                     + (p 1%nat - q 1%nat) * (p 1%nat - q 1%nat))).
  { unfold dist_of. cbn [for_loop NDIM Nat.sub seq fold_left s_sqrt s_add s_mul
                           s_zero Scalar_R].
    rewrite E0, E1. f_equal. ring. }
  split; [exact Ed|]. intros mesh iface. unfold sn_of.
  cbn [for_loop NDIM Nat.sub seq fold_left s_add s_mul s_div s_zero Scalar_R].
  rewrite E0, E1. ring.
Qed.

(** The calls of one interior face in [DiffusionMA::compute_jacobian]: the
    two off-diagonal blocks are - c times the identity and the two
    diagonal updates are + c times the identity, with
    c = diffusivity * sn * len / dist. *)
Theorem diffusion_jacobian_of_interior_face (dm : @DiffusionMA R) (ty : ascii)
  (iface : nat) (calls : list (@DiffusionCall R)) :
  let d := diff dm in
  let mesh := m (dbase d) in
  let lelem := gintfac mesh iface 0 in
  let relem := gintfac mesh iface 1 in
  let dx := rc (dbase d) relem 0 - rc (dbase d) lelem 0 in
  let dy := rc (dbase d) relem 1 - rc (dbase d) lelem 1 in
  let dist := sqrt (dx * dx + dy * dy) in
  let sn := dx / dist * ggallfa mesh iface 0 + dy / dist * ggallfa mesh iface 1 in
  let c := diffusivity d * sn * ggallfa mesh iface 2 / dist in
  let faceid := (iface - gnbface mesh)%nat in
  let dtype := Ascii.eqb ty "d" in
  diffusion_jacobian_interior_face uninit nvars dm ty iface calls
  = calls ++
    [DSubmitBlock (relem * nvars) (lelem * nvars) (diagonal_block nvars (- c))
       (if dtype then 1 else nvars) (if dtype then faceid else nvars);
     DSubmitBlock (lelem * nvars) (relem * nvars) (diagonal_block nvars (- c))
       (if dtype then 2 else nvars) (if dtype then faceid else nvars);
     DUpdateDiagBlock (lelem * nvars) (diagonal_block nvars c) nvars;
     DUpdateDiagBlock (relem * nvars) (diagonal_block nvars c) nvars].
Proof.
  intros d mesh lelem relem dx dy dist sn c faceid dtype.
  unfold diffusion_jacobian_interior_face. cbn zeta.
  fold d mesh lelem relem faceid dtype.
  destruct (displacement_entries (rc (dbase d) relem) (rc (dbase d) lelem))
    as [Ed Es].
  cbn zeta in Ed, Es. rewrite (Es mesh iface), Ed.
  fold dx dy dist. fold sn.
  assert (Eoff : entries nvars
                   (fill_diagonal nvars (s_div (s_mul (s_mul (s_opp (diffusivity d)) sn)
                                                  (ggallfa mesh iface 2)) dist)
                      (uninit1 uninit))
                 = diagonal_block nvars (- c)).
  { apply entries_diagonal. intros i j Hi Hj.
    rewrite fill_diagonal_entry by assumption.
    destruct (i =? j); [|reflexivity].
    subst c. cbn [s_div s_mul s_opp Scalar_R]. unfold Rdiv. ring. }
  assert (Ediag : entries nvars
                    (for_loop 0 nvars (fun ivar (ll : nat -> R) =>
                       upd ll (ivar * nvars + ivar)
                         (s_mul (ll (ivar * nvars + ivar)%nat) (s_opp s_one)))
                       (fill_diagonal nvars
                          (s_div (s_mul (s_mul (s_opp (diffusivity d)) sn)
                                    (ggallfa mesh iface 2)) dist)
                          (uninit1 uninit)))
                  = diagonal_block nvars c).
  { apply entries_diagonal. intros i j Hi Hj.
    rewrite negate_diagonal_entry by assumption.
    rewrite !fill_diagonal_entry by assumption.
    rewrite Nat.eqb_refl.
    destruct (i =? j); [|reflexivity].
    subst c. cbn [s_div s_mul s_opp s_one Scalar_R]. unfold Rdiv. ring. }
  rewrite Ediag, Eoff.
  destruct dtype; rewrite <- app_assoc; reflexivity.
Qed.

(** The call of one boundary face in [DiffusionMA::compute_jacobian]: one
    diagonal update by c times the identity, with [dist] and [sn] taken
    between the cell centre and the ghost cell centre. *)
Theorem diffusion_jacobian_of_boundary_face (dm : @DiffusionMA R)
  (iface : nat) (calls : list (@DiffusionCall R)) :
  let d := diff dm in
  let mesh := m (dbase d) in
  let lelem := gintfac mesh iface 0 in
  let dx := rcg (dbase d) iface 0 - rc (dbase d) lelem 0 in
  let dy := rcg (dbase d) iface 1 - rc (dbase d) lelem 1 in
  let dist := sqrt (dx * dx + dy * dy) in
  let sn := dx / dist * ggallfa mesh iface 0 + dy / dist * ggallfa mesh iface 1 in
  let c := diffusivity d * sn * ggallfa mesh iface 2 / dist in
  diffusion_jacobian_boundary_face uninit nvars dm iface calls
  = calls ++ [DUpdateDiagBlock (lelem * nvars) (diagonal_block nvars c) nvars].
Proof.
  intros d mesh lelem dx dy dist sn c.
  unfold diffusion_jacobian_boundary_face. cbn zeta.
  fold d mesh lelem.
  destruct (displacement_entries (rcg (dbase d) iface) (rc (dbase d) lelem))
    as [Ed Es].
  cbn zeta in Ed, Es. rewrite (Es mesh iface), Ed.
  fold dx dy dist. fold sn.
  f_equal. f_equal. f_equal.
  apply entries_diagonal. intros i j Hi Hj.
  rewrite fill_diagonal_entry by assumption. reflexivity.
Qed.

End DiffusionReal.

(** ** Output per cell *)

Section CellOutput.

Context {PO : @PhysicsOps R}.
Variable uninit : nat -> @State R.
Local Open Scope R_scope.

(** [postprocess_cell] gives for every cell the density of the solution, a
    velocity whose product with the density is the momentum of the
    solution, the pressure of the solution and the Mach number
    |v| / c; rows beyond the cells are not written. *)
Theorem postprocess_cell_recovers_the_solution
  (fv : @FlowFV R) (u : @MVector R) (iel : nat) :
  let mesh := m (base fv) in
  let out := postprocess_cell uninit fv u in
  let vx := snd out iel 0%nat in
  let vy := snd out iel 1%nat in
  (iel < gnelem mesh)%nat ->
  e0 (u iel) <> 0 ->
  fst out iel 0%nat = e0 (u iel)
  /\ vx * fst out iel 0%nat = e1 (u iel)
  /\ vy * fst out iel 0%nat = e2 (u iel)
  /\ fst out iel 2%nat = getPressureFromConserved (physics fv) (u iel)
  /\ fst out iel 1%nat
     = sqrt (vx * vx + vy * vy) / getSoundSpeedFromConserved (physics fv) (u iel).
Proof.
  intros mesh out vx vy Hiel Hrho.
  pose (row := fun (i : nat) (st : (nat -> nat -> R) * (nat -> nat -> R)) =>
    fst st i 0%nat = e0 (u i)
    /\ snd st i 0%nat = e1 (u i) / e0 (u i)
    /\ snd st i 1%nat = e2 (u i) / e0 (u i)
    /\ fst st i 2%nat = getPressureFromConserved (physics fv) (u i)
    /\ fst st i 1%nat
       = sqrt (e1 (u i) / e0 (u i) * (e1 (u i) / e0 (u i))
               + e2 (u i) / e0 (u i) * (e2 (u i) / e0 (u i)))
         / getSoundSpeedFromConserved (physics fv) (u i)).
  assert (Hrow : row iel out).
  { subst out. unfold postprocess_cell. fold mesh.
    set (sc0 := for_loop 0 (gnelem mesh)
                  (fun iel scalars => upd2 scalars iel 0%nat (e0 (u iel)))
                  (uninit2 uninit)).
    assert (Hsc0 : forall i, (i < gnelem mesh)%nat -> sc0 i 0%nat = e0 (u i)).
    { intros i Hi. unfold sc0.
      pose (Q := fun (k : nat) (sc : nat -> nat -> R) =>
        forall j, (j < k)%nat -> sc j 0%nat = e0 (u j)).
      refine (for_loop_invariant Q (lo := 0%nat) (hi := gnelem mesh) _ _ _ _ _ i Hi).
      - lia.
      - intros ? H; lia.
      - intros k sc Hk HQ j Hj. destruct (Nat.eq_dec j k) as [->|Hne].
        + apply upd2_same.
        + rewrite upd2_other by (left; assumption). apply HQ. lia. }
    pose (P := fun (k : nat) (st : (nat -> nat -> R) * (nat -> nat -> R)) =>
      (forall i, (i < gnelem mesh)%nat -> fst st i 0%nat = e0 (u i))
      /\ forall i, (i < k)%nat -> row i st).
    match goal with
    | |- row iel (for_loop 0 _ ?body ?init) =>
        assert (HP : P (gnelem mesh) (for_loop 0 (gnelem mesh) body init))
    end.
    { apply for_loop_invariant.
      - lia.
      - split; [exact Hsc0|]. intros ? H; lia.
      - intros k [sc vel] Hk [Hd Hrows]. cbn [fst snd] in Hd.
        split.
        + intros i Hi. cbn [fst].
          rewrite !upd2_other by (right; lia). apply Hd; assumption.
        + intros i Hi. destruct (Nat.eq_dec i k) as [->|Hne].
          * unfold row. cbn [fst snd s_add s_div s_sqr s_sqrt Scalar_R].
            repeat split.
            -- rewrite !upd2_other by (right; lia). apply Hd. lia.
            -- rewrite upd2_other by (right; lia). apply upd2_same.
            -- apply upd2_same.
            -- rewrite upd2_other by (right; lia). apply upd2_same.
            -- rewrite upd2_same. rewrite upd2_same.
               rewrite upd2_other by (right; lia). rewrite upd2_same.
               reflexivity.
          * specialize (Hrows i ltac:(lia)). unfold row in *.
            cbn [fst snd s_add s_div s_sqr s_sqrt Scalar_R] in *.
            rewrite !upd2_other by (left; assumption). exact Hrows. }
    exact (proj2 HP iel Hiel). }
  destruct Hrow as (H0 & H1 & H2 & H3 & H4).
  subst vx vy. rewrite H0, H1, H2, H3, H4.
  repeat split; try reflexivity; field; assumption.
Qed.

End CellOutput.

(** * Runs of the further properties *)

(** Face 2 of the channel, its right end, is an inflow-outflow face: the
    ghost state of the rising state is the free-stream state. *)
Lemma channel_right_end_takes_freestream :
  gmarker (m (base (@channel_flow R _))) 2 = inflow_outflow_id (@channel_flow R _)
  /\ gmarker (m (base (@channel_flow R _))) 2 <> (-1)%Z
  /\ compute_boundary_state (T := R) (PO := ideal_gas) channel_flow 2
       rising_state rising_state
     = uinf (@channel_flow R _).
Proof.
  assert (H1 : gmarker (m (base (@channel_flow R _))) 2
               = inflow_outflow_id (@channel_flow R _)) by reflexivity.
  assert (H2 : gmarker (m (base (@channel_flow R _))) 2 <> (-1)%Z)
    by (cbn; discriminate).
  exact (conj H1 (conj H2
           (inflow_outflow_ghost_is_freestream (PO := ideal_gas) channel_flow 2
              rising_state rising_state H1 H2))).
Defined.

(** With no boundary condition for marker 4, the ghost state of face 2
    is what the storage held. *)
Lemma unmarked_end_keeps_its_storage :
  gmarker (m (base unmarked_ends_flow)) 2 <> slip_wall_id unmarked_ends_flow
  /\ compute_boundary_state (T := R) (PO := ideal_gas) unmarked_ends_flow 2
       rising_state uniform_stream_state
     = uniform_stream_state.
Proof.
  assert (H1 : gmarker (m (base unmarked_ends_flow)) 2
               <> slip_wall_id unmarked_ends_flow) by (cbn; discriminate).
  split; [exact H1|].
  apply (unmatched_marker_writes_nothing (PO := ideal_gas) unmarked_ends_flow 2
           rising_state uniform_stream_state H1); cbn; discriminate.
Defined.

(** Face 2 as an adiabatic wall: the rising state (1, 0, 1, 2) has the
    ghost momentum (0, -1). *)
Lemma adiabatic_end_reverses_rising_state :
  gmarker (m (base adiabatic_ends_flow)) 2 = adiabatic_wall_id adiabatic_ends_flow
  /\ e1 (compute_boundary_state (T := R) (PO := ideal_gas) adiabatic_ends_flow 2
           rising_state rising_state) = (- 0)%R
  /\ e2 (compute_boundary_state (T := R) (PO := ideal_gas) adiabatic_ends_flow 2
           rising_state rising_state) = (- 1)%R.
Proof.
  assert (H1 : gmarker (m (base adiabatic_ends_flow)) 2
               = adiabatic_wall_id adiabatic_ends_flow) by reflexivity.
  split; [exact H1|].
  assert (H2 : gmarker (m (base adiabatic_ends_flow)) 2
               <> inflow_outflow_id adiabatic_ends_flow) by (cbn; discriminate).
  assert (H3 : gmarker (m (base adiabatic_ends_flow)) 2 <> (-1)%Z)
    by (cbn; discriminate).
  pose proof (no_slip_wall_reverses_momentum (PO := ideal_gas) adiabatic_ends_flow 2
                rising_state rising_state (or_intror H1) H2 H3) as H.
  exact (conj (proj1 (proj2 H)) (proj2 (proj2 H))).
Defined.

(** Face 0 of the channel is a slip wall with unit normal (0, -1): the
    ghost state of the rising state mirrors back to the rising state. *)
Lemma slip_wall_mirrors_twice :
  gmarker (m (base (@channel_flow R _))) 0 = slip_wall_id (@channel_flow R _)
  /\ (0 < e0 (@rising_state R _))%R
  /\ compute_boundary_state (T := R) (PO := ideal_gas) channel_flow 0
       (compute_boundary_state (T := R) (PO := ideal_gas) channel_flow 0
          rising_state (vconst 0%R)) (vconst 0%R)
     = rising_state.
Proof.
  assert (H1 : gmarker (m (base (@channel_flow R _))) 0
               = slip_wall_id (@channel_flow R _)) by reflexivity.
  assert (Hrho : (0 < e0 (@rising_state R _))%R) by (cbn; lra).
  split; [exact H1|]. split; [exact Hrho|].
  refine (proj2 (proj2 (proj2
            (slip_wall_is_a_reflection (PO := ideal_gas) channel_flow 0
               rising_state (vconst 0%R) (vconst 0%R) H1 _ _ _ _ _ Hrho))));
    try (cbn; discriminate).
  cbn; lra.
Defined.

(** Face 3 of the far-field square has normal (-1, 0): the free stream
    (1, 1, 0, 1), of density 1 and sound speed 1, enters through it at
    normal Mach number -1, and the ghost state is the free-stream state. *)
Lemma farfield_inflow_takes_freestream :
  gmarker (m (base farfield_square_flow)) 3 = (-1)%Z
  /\ (0 < e0 (@uniform_stream_state R _))%R
  /\ getSoundSpeedFromConserved (PhysicsOps := ideal_gas)
       (physics farfield_square_flow) uniform_stream_state = 1%R
  /\ g (physics farfield_square_flow) <> 1%R
  /\ compute_boundary_state (T := R) (PO := ideal_gas) farfield_square_flow 3
       uniform_stream_state (vconst 0%R)
     = uinf farfield_square_flow.
Proof.
  assert (H1 : gmarker (m (base farfield_square_flow)) 3 = (-1)%Z) by reflexivity.
  assert (H2 : (0 < e0 (@uniform_stream_state R _))%R) by (cbn; lra).
  assert (H3 : getSoundSpeedFromConserved (PhysicsOps := ideal_gas)
                 (physics farfield_square_flow) uniform_stream_state = 1%R).
  { cbn.
    replace (2 * ((2 - 1) * (1 - 1 / 2 * (1 * 1 + 0 * 0) / 1)) / 1)%R with 1%R by lra.
    apply sqrt_1. }
  assert (H3' : (0 < getSoundSpeedFromConserved (PhysicsOps := ideal_gas)
                       (physics farfield_square_flow) uniform_stream_state)%R)
    by (rewrite H3; lra).
  assert (H4 : g (physics farfield_square_flow) <> 1%R) by (cbn; lra).
  split; [exact H1|]. split; [exact H2|]. split; [exact H3|]. split; [exact H4|].
  apply (proj1 (characteristic_ghost_state (PO := ideal_gas) farfield_square_flow 3
                  uniform_stream_state (vconst 0%R) H1 H2 H3' H4)).
  rewrite H3. cbn. lra.
Defined.

(** On the channel, face 6 is the interior face, with left cell 0 and
    right cell 1: its two states are the states of these cells. *)
Lemma channel_interior_face_states :
  secondOrderRequested (@channel_flow R _) = false
  /\ 6 < gnaface (m (base (@channel_flow R _)))
  /\ fst (face_states (T := R) (PO := ideal_gas) zeros channel_flow uniform_stream) 6
     = uniform_stream 0
  /\ snd (face_states (T := R) (PO := ideal_gas) zeros channel_flow uniform_stream) 6
     = uniform_stream 1.
Proof.
  assert (H1 : secondOrderRequested (@channel_flow R _) = false) by reflexivity.
  assert (H2 : gnbface (m (base (@channel_flow R _)))
               <= gnaface (m (base (@channel_flow R _)))) by (cbn; lia).
  assert (H3 : 6 < gnaface (m (base (@channel_flow R _)))) by (cbn; lia).
  assert (H2' : gnbface (m (base (@channel_flow R _))) <= 6) by (cbn; lia).
  split; [exact H1|]. split; [exact H3|].
  pose proof (first_order_face_states (PO := ideal_gas) zeros channel_flow
                uniform_stream H1 H2 H3) as H.
  exact (conj (proj1 H) (proj2 (proj2 H) H2')).
Defined.

(** On the channel every boundary face carries the slip-wall marker 2 or
    the inflow-outflow marker 4, and the residual of cell 0 is the same
    whether the work arrays start as zeros or as ones. *)
Lemma channel_residual_ignores_work_arrays :
  0 < gnelem (m (base (@channel_flow R _)))
  /\ fst (compute_residual (T := R) (PO := ideal_gas) zeros channel_flow
            uniform_stream zeros true zeros_dtm) 0
     = fst (compute_residual (T := R) (PO := ideal_gas) ones channel_flow
              uniform_stream zeros true zeros_dtm) 0.
Proof.
  assert (H1 : secondOrderRequested (@channel_flow R _) = false) by reflexivity.
  assert (H2 : gnbface (m (base (@channel_flow R _)))
               <= gnaface (m (base (@channel_flow R _)))) by (cbn; lia).
  assert (H3 : forall ied, ied < gnbface (m (base (@channel_flow R _))) ->
     gmarker (m (base (@channel_flow R _))) ied = slip_wall_id (@channel_flow R _)
     \/ gmarker (m (base (@channel_flow R _))) ied
        = isothermal_wall_id (@channel_flow R _)
     \/ gmarker (m (base (@channel_flow R _))) ied
        = adiabatic_wall_id (@channel_flow R _)
     \/ gmarker (m (base (@channel_flow R _))) ied
        = inflow_outflow_id (@channel_flow R _)
     \/ gmarker (m (base (@channel_flow R _))) ied = (-1)%Z).
  { intros ied Hied. cbn in Hied.
    do 6 (destruct ied as [|ied];
          [cbn; first [left; reflexivity | right; right; right; left; reflexivity]|]).
    lia. }
  assert (H4 : 0 < gnelem (m (base (@channel_flow R _)))) by (cbn; lia).
  split; [exact H4|].
  exact (proj1 (first_order_residual_reads_no_uninitialised_value (PO := ideal_gas)
                  zeros ones channel_flow uniform_stream zeros true zeros_dtm
                  H1 H2 H3 H4)).
Defined.

(** The isolated cell has no face, and its residual stays as it was. *)
Lemma isolated_cell_keeps_residual :
  (forall ied, ied < gnaface (m (base (@isolated_cell_flow R _))) ->
     gintfac (m (base (@isolated_cell_flow R _))) ied 0 <> 0
     /\ gintfac (m (base (@isolated_cell_flow R _))) ied 1 <> 0)
  /\ fst (compute_residual (T := R) (PO := ideal_gas) zeros isolated_cell_flow
            uniform_stream ones true zeros_dtm) 0
     = ones 0.
Proof.
  assert (H1 : forall ied, ied < gnaface (m (base (@isolated_cell_flow R _))) ->
     gintfac (m (base (@isolated_cell_flow R _))) ied 0 <> 0
     /\ gintfac (m (base (@isolated_cell_flow R _))) ied 1 <> 0).
  { intros ied Hied. cbn in Hied. lia. }
  split; [exact H1|].
  exact (untouched_cell_keeps_residual (PO := ideal_gas) zeros isolated_cell_flow
           uniform_stream ones true zeros_dtm H1).
Defined.

(** On the channel in the uniform stream (1, 1, 0, 1) every face has
    length 1 and every face state that the loop reads has density 1 and
    the number 1 under the square root, and the integral of the wave speed
    of cell 0 is non-negative. *)
Lemma channel_wave_integral_is_nonnegative :
  (0 < gnelem (m (base (@channel_flow R _))))%nat
  /\ (forall ied, (ied < gnaface (m (base (@channel_flow R _))))%nat ->
        (0 < e0 (fst (face_states (T := R) (PO := ideal_gas) zeros channel_flow
                        uniform_stream) ied))%R
        /\ (0 <= sound_speed_radicand channel_flow
                   (fst (face_states (T := R) (PO := ideal_gas) zeros channel_flow
                           uniform_stream) ied))%R)
  /\ (0 <= wave_integral (T := R) (PO := ideal_gas) zeros channel_flow
            uniform_stream zeros 0)%R.
Proof.
  assert (H1 : forall ied, (ied < gnaface (m (base (@channel_flow R _))))%nat ->
                 (0 <= ggallfa (m (base (@channel_flow R _))) ied 2)%R).
  { intros ied Hied. cbn in Hied.
    do 7 (destruct ied as [|ied]; [cbn; lra|]). lia. }
  assert (H2 : (0 < gnelem (m (base (@channel_flow R _))))%nat) by (cbn; lia).
  assert (Hfirst : secondOrderRequested (@channel_flow R _) = false) by reflexivity.
  assert (Hle : (gnbface (m (base (@channel_flow R _)))
                 <= gnaface (m (base (@channel_flow R _))))%nat) by (cbn; lia).
  assert (Hstate : (0 < e0 (@uniform_stream_state R _))%R
                   /\ (0 <= sound_speed_radicand channel_flow
                              (@uniform_stream_state R _))%R).
  { unfold sound_speed_radicand. cbn. lra. }
  assert (H3 : forall ied, (ied < gnaface (m (base (@channel_flow R _))))%nat ->
     (0 < e0 (fst (face_states (T := R) (PO := ideal_gas) zeros channel_flow
                     uniform_stream) ied))%R
     /\ (0 <= sound_speed_radicand channel_flow
                (fst (face_states (T := R) (PO := ideal_gas) zeros channel_flow
                        uniform_stream) ied))%R).
  { intros ied Hied.
    rewrite (proj1 (face_states_rows (PO := ideal_gas) zeros channel_flow
                      uniform_stream Hfirst Hle Hied)).
    exact Hstate. }
  assert (H4 : forall ied, (ied < gnaface (m (base (@channel_flow R _))))%nat ->
     (gintfac (m (base (@channel_flow R _))) ied 1
      < gnelem (m (base (@channel_flow R _))))%nat ->
     (0 < e0 (snd (face_states (T := R) (PO := ideal_gas) zeros channel_flow
                     uniform_stream) ied))%R
     /\ (0 <= sound_speed_radicand channel_flow
                (snd (face_states (T := R) (PO := ideal_gas) zeros channel_flow
                        uniform_stream) ied))%R).
  { intros ied Hied Hright.
    rewrite (proj2 (face_states_rows (PO := ideal_gas) zeros channel_flow
                      uniform_stream Hfirst Hle Hied)).
    cbn in Hied.
    do 6 (destruct ied as [|ied]; [cbn in Hright; lia|]).
    destruct ied as [|ied]; [exact Hstate|lia]. }
  split; [exact H2|]. split; [exact H3|].
  exact (proj1 (@wave_integral_is_nonnegative ideal_gas zeros channel_flow
                  uniform_stream zeros zeros_dtm 0%nat H1 H3 H4 H2)).
Defined.

(** On the channel, for a = 2 and b = 3: the product of cell 0 is twice
    that of [compute_jac_vec] plus three times the row of [w]. *)
Lemma channel_gemv_of_cell_0 :
  (0 < gnelem (m (base (@channel_flow R _))))%nat
  /\ snd (FlowFV_compute_jac_gemv (T := R) (PO := ideal_gas) zeros channel_flow
            2%R zeros uniform_stream ones true ones_dtm 3%R ones zeros zeros) 0
     = vmap2 Rplus
         (vmap (Rmult 2)
            (snd (FlowFV_compute_jac_vec (T := R) (PO := ideal_gas) zeros channel_flow
                    zeros uniform_stream ones true ones_dtm zeros zeros) 0))
         (vmap (Rmult 3) (ones 0)).
Proof.
  assert (H1 : (0 < gnelem (m (base (@channel_flow R _))))%nat) by (cbn; lia).
  split; [exact H1|].
  exact (proj2 (jac_gemv_scales_and_shifts_jac_vec (PO := ideal_gas) zeros
                  channel_flow 2%R 3%R zeros uniform_stream ones ones true ones_dtm
                  zeros zeros H1)).
Defined.

(** With two Gauss points, the first point of the interior face of the
    channel, which runs from (1, 0) to (1, 1), lies a third of the way
    along it. *)
Lemma channel_first_gauss_point :
  (6 < gnaface (@channel_mesh R _))%nat
  /\ compute_gauss_points 2 (@channel_mesh R _) (fun _ _ _ => 0%R) 6 0 1
     = ((1 - (INR 0 + 1) / (INR 2 + 1)) * 0 + (INR 0 + 1) / (INR 2 + 1) * 1)%R.
Proof.
  assert (H1 : (6 < gnaface (@channel_mesh R _))%nat) by (cbn; lia).
  assert (H2 : (0 < 2)%nat) by lia.
  assert (H3 : (1 < NDIM)%nat) by (unfold NDIM; lia).
  split; [exact H1|].
  exact (proj1 (proj2 (gauss_points_lie_inside_the_face (@channel_mesh R _)
                         (fun _ _ _ => 0%R) H1 H2 H3))).
Defined.

(** The hypotenuse of the right triangle runs from (4, 0) to (0, 3) with
    unit normal (3/5, 4/5): the ghost centre of the centroid (4/3, 1) has
    its midpoint with the centroid on the hypotenuse, and lies from the
    centroid in the direction of the normal. *)
Lemma right_triangle_ghost_centre :
  (1 < gnbface right_triangle_mesh)%nat
  /\ (Rabs (ggallfa right_triangle_mesh 1 0) > 1 / 1000)%R
  /\ (Rabs (ggallfa right_triangle_mesh 1 1) > 1 / 1000)%R
  /\ (let rcg := compute_ghost_cell_coords_about_face (1 / 1000)%R right_triangle_mesh
                   right_triangle_centre (fun _ _ => 0%R) in
      ((rcg 1%nat 1%nat + 1) / 2 - 0) * (0 - 4)
      = (3 - 0) * ((rcg 1%nat 0%nat + 4 / 3) / 2 - 4)
      /\ (rcg 1%nat 0%nat - 4 / 3) * (4 / 5) = (rcg 1%nat 1%nat - 1) * (3 / 5))%R.
Proof.
  assert (H1 : (1 < gnbface right_triangle_mesh)%nat) by (cbn; lia).
  assert (H2 : (0 <= 1 / 1000)%R) by lra.
  assert (H3 : (Rabs (ggallfa right_triangle_mesh 1 0) > 1 / 1000)%R).
  { change (ggallfa right_triangle_mesh 1 0) with (3 / 5)%R.
    rewrite Rabs_right by lra. lra. }
  assert (H4 : (Rabs (ggallfa right_triangle_mesh 1 1) > 1 / 1000)%R).
  { change (ggallfa right_triangle_mesh 1 1) with (4 / 5)%R.
    rewrite Rabs_right by lra. lra. }
  assert (H5 : gcoords right_triangle_mesh (gintfac right_triangle_mesh 1 3) 0
               <> gcoords right_triangle_mesh (gintfac right_triangle_mesh 1 2) 0)
    by (cbn; lra).
  assert (H6 : ((gcoords right_triangle_mesh (gintfac right_triangle_mesh 1 3) 1
                 - gcoords right_triangle_mesh (gintfac right_triangle_mesh 1 2) 1)
                / (gcoords right_triangle_mesh (gintfac right_triangle_mesh 1 3) 0
                   - gcoords right_triangle_mesh (gintfac right_triangle_mesh 1 2) 0)
                <> ggallfa right_triangle_mesh 1 1 / ggallfa right_triangle_mesh 1 0)%R)
    by (cbn; lra).
  split; [exact H1|]. split; [exact H3|]. split; [exact H4|].
  exact (ghost_about_face_mirrors_in_the_face_line right_triangle_mesh
           right_triangle_centre (fun _ _ => 0%R) H1 H2 H3 H4 H5 H6).
Defined.

(** Face 2 of the channel, its right end, has normal (1, 0): the ghost
    centre keeps the height of the cell centre and mirrors its abscissa in
    the first node of the face. *)
Lemma channel_right_end_ghost_centre :
  (2 < gnbface (@channel_mesh R _))%nat
  /\ (Rabs (ggallfa (@channel_mesh R _) 2 0) > 1 / 1000)%R
  /\ (Rabs (ggallfa (@channel_mesh R _) 2 1) <= 1 / 1000)%R
  /\ (let rc := rc (Spatial_new zeros (/ 2 ^ 52)%R (@channel_mesh R _)) in
      let rcg := compute_ghost_cell_coords_about_face (1 / 1000)%R (@channel_mesh R _)
                   rc (fun _ _ => 0%R) in
      rcg 2%nat 0%nat = 2 * 2 - rc 1%nat 0%nat /\ rcg 2%nat 1%nat = rc 1%nat 1%nat)%R.
Proof.
  assert (H1 : (2 < gnbface (@channel_mesh R _))%nat) by (cbn; lia).
  assert (H3 : (Rabs (ggallfa (@channel_mesh R _) 2 0) > 1 / 1000)%R).
  { change (ggallfa (@channel_mesh R _) 2 0) with 1%R.
    rewrite Rabs_right by lra. lra. }
  assert (H4 : (Rabs (ggallfa (@channel_mesh R _) 2 1) <= 1 / 1000)%R).
  { change (ggallfa (@channel_mesh R _) 2 1) with 0%R.
    rewrite Rabs_R0. lra. }
  split; [exact H1|]. split; [exact H3|]. split; [exact H4|].
  exact (proj2 (ghost_about_face_axis_aligned (1 / 1000)%R (@channel_mesh R _)
                  (rc (Spatial_new zeros (/ 2 ^ 52)%R (@channel_mesh R _)))
                  (fun _ _ => 0%R) H1) H3 H4).
Defined.

(** The channel in uniform flow at the free-stream state has no entropy
    error. *)
Lemma channel_uniform_stream_has_no_entropy_error :
  (forall iel, (iel < gnelem (m (base (@channel_flow R _))))%nat ->
     @uniform_stream R _ iel = uinf (@channel_flow R _))
  /\ compute_entropy_cell (T := R) zeros (EO := ideal_gas_entropy) channel_flow
       uniform_stream = 0%R.
Proof.
  assert (H1 : forall iel, (iel < gnelem (m (base (@channel_flow R _))))%nat ->
                 @uniform_stream R _ iel = uinf (@channel_flow R _))
    by (intros iel _; reflexivity).
  split; [exact H1|].
  exact (entropy_error_of_free_stream_is_zero (EO := ideal_gas_entropy) zeros
           channel_flow uniform_stream H1).
Defined.

(** The channel has six nodes; in the uniform stream (1, 1, 0, 1) the
    nodal density at node 0 comes out as 1/4, and the nodal velocity as
    (1, 0). *)
Lemma channel_nodal_density_of_uniform_stream :
  (0 < gnelem (m (base (@channel_flow R _))))%nat
  /\ (ginpoel (m (base (@channel_flow R _))) 0 0 < 6)%nat
  /\ fst (postprocess_point (T := R) (PO := ideal_gas) zeros 6 channel_flow
            uniform_stream) 0%nat 0%nat = (1 / 4)%R
  /\ snd (postprocess_point (T := R) (PO := ideal_gas) zeros 6 channel_flow
            uniform_stream) 0%nat 0%nat = (1 / 1)%R.
Proof.
  assert (H1 : forall c, (c < gnelem (m (base (@channel_flow R _))))%nat ->
                 @uniform_stream R _ c = uniform_stream_state)
    by (intros c _; reflexivity).
  assert (H2 : forall c, (c < gnelem (m (base (@channel_flow R _))))%nat ->
                 (0 < garea (m (base (@channel_flow R _))) c)%R)
    by (intros c _; cbn; lra).
  assert (H3 : (0 < gnelem (m (base (@channel_flow R _))))%nat) by (cbn; lia).
  assert (H4 : (0 < gnnode (m (base (@channel_flow R _))) 0)%nat) by (cbn; lia).
  assert (H5 : (ginpoel (m (base (@channel_flow R _))) 0 0 < 6)%nat) by (cbn; lia).
  assert (H6 : e0 (@uniform_stream_state R _) <> 0%R) by (cbn; lra).
  split; [exact H3|]. split; [exact H5|].
  pose proof (postprocess_point_of_uniform_state (PO := ideal_gas) zeros
                channel_flow uniform_stream H1 H2 H3 H4 H5 H6) as H.
  exact (conj (proj1 (proj2 H)) (proj1 (proj2 (proj2 H)))).
Defined.

(** Cell 0 of the channel has the faces 0, 6, 4 and 5, all of length 1:
    its [h] is at least the length of its second face. *)
Lemma channel_longest_face_of_cell_0 :
  (0 < gnelem (@channel_mesh R _))%nat
  /\ (1 < channel_gnfael 0)%nat
  /\ (ggallfa (@channel_mesh R _) (channel_gelemface 0 1) 2
      <= h (diff channel_diffusion) 0)%R.
Proof.
  assert (H1 : (0 < gnelem (@channel_mesh R _))%nat) by (cbn; lia).
  assert (H2 : (1 < channel_gnfael 0)%nat) by (unfold channel_gnfael; lia).
  split; [exact H1|]. split; [exact H2|].
  exact (proj1 (proj2 (longest_face_bounds_every_face channel_gnfael
                         channel_gelemface (@channel_mesh R _)
                         (uninit1 zeros) H1)) 1%nat H2).
Defined.

(** Boundary value 3 on the channel: where the interior value is 1, the
    ghost value of face 0 is 2 * 3 - 1. *)
Lemma channel_dirichlet_ghost_value :
  (0 < gnbface (m (dbase (diff channel_diffusion))))%nat
  /\ Diffusion_compute_boundary_states 1 (diff channel_diffusion)
       (boundary_interior_states 1 (diff channel_diffusion)
          (fun _ _ => 1%R) (fun _ _ => 0%R))
       (fun _ _ => 0%R) 0%nat 0%nat
     = (2 * 3 - 1)%R.
Proof.
  assert (H1 : (0 < gnbface (m (dbase (diff channel_diffusion))))%nat)
    by (cbn; lia).
  assert (H2 : (0 < 1)%nat) by lia.
  split; [exact H1|].
  exact (proj1 (diffusion_ghost_states_are_dirichlet (diff channel_diffusion)
                  (fun _ _ => 1%R) (fun _ _ => 0%R) (fun _ _ => 0%R) H1 H2)).
Defined.

(** On the channel the interior face 6 lies between the cells 0 and 1,
    and the interior-face loop keeps the sum of the residual. *)
Lemma channel_diffusion_conserves :
  (forall iface,
     (gnbface (m (dbase (diff channel_diffusion))) <= iface
      < gnaface (m (dbase (diff channel_diffusion))))%nat ->
     (gintfac (m (dbase (diff channel_diffusion))) iface 0
      < gnelem (m (dbase (diff channel_diffusion))))%nat
     /\ (gintfac (m (dbase (diff channel_diffusion))) iface 1
         < gnelem (m (dbase (diff channel_diffusion))))%nat)
  /\ sum_column (gnelem (m (dbase (diff channel_diffusion))))
       (for_loop (gnbface (m (dbase (diff channel_diffusion))))
          (gnaface (m (dbase (diff channel_diffusion))))
          (diffusion_interior_face zeros 1 channel_diffusion
             (fun iel _ => INR iel) (fun _ _ => 1%R) (fun _ _ => 1%R))
          (fun _ _ => 0%R)) 0
     = sum_column (gnelem (m (dbase (diff channel_diffusion)))) (fun _ _ => 0%R) 0.
Proof.
  assert (H1 : forall iface,
     (gnbface (m (dbase (diff channel_diffusion))) <= iface
      < gnaface (m (dbase (diff channel_diffusion))))%nat ->
     (gintfac (m (dbase (diff channel_diffusion))) iface 0
      < gnelem (m (dbase (diff channel_diffusion))))%nat
     /\ (gintfac (m (dbase (diff channel_diffusion))) iface 1
         < gnelem (m (dbase (diff channel_diffusion))))%nat).
  { intros iface Hi. cbn in Hi. assert (iface = 6%nat) as -> by lia.
    cbn. lia. }
  split; [exact H1|].
  exact (diffusion_interior_faces_conserve zeros 1 channel_diffusion
           (fun iel _ => INR iel) (fun _ _ => 1%R) (fun _ _ => 1%R)
           (fun _ _ => 0%R) 0 H1).
Defined.

(** Cell 0 of the channel in the uniform stream (1, 1, 0, 1): the density
    is 1 and the velocity times the density is the momentum (1, 0). *)
Lemma channel_cell_output_of_uniform_stream :
  (0 < gnelem (m (base (@channel_flow R _))))%nat
  /\ e0 (@uniform_stream R _ 0%nat) <> 0%R
  /\ fst (postprocess_cell (T := R) (PO := ideal_gas) zeros channel_flow
            uniform_stream) 0%nat 0%nat = e0 (@uniform_stream R _ 0%nat)
  /\ (snd (postprocess_cell (T := R) (PO := ideal_gas) zeros channel_flow
             uniform_stream) 0%nat 0%nat
      * fst (postprocess_cell (T := R) (PO := ideal_gas) zeros channel_flow
               uniform_stream) 0%nat 0%nat)%R = e1 (@uniform_stream R _ 0%nat).
Proof.
  assert (H1 : (0 < gnelem (m (base (@channel_flow R _))))%nat) by (cbn; lia).
  assert (H2 : e0 (@uniform_stream R _ 0%nat) <> 0%R) by (cbn; lra).
  split; [exact H1|]. split; [exact H2|].
  pose proof (postprocess_cell_recovers_the_solution (PO := ideal_gas) zeros
                channel_flow uniform_stream H1 H2) as H.
  exact (conj (proj1 H) (proj1 (proj2 H))).
Defined.
